(** * jkl: a static site generator

    A shallow embedding of the generation engine of jkl (main.go, site.go,
    config.go): the in-memory [Site], the scan of the source tree
    ([read], [Reload]), the destination synchronisation ([prep],
    [matchIgnore]), the rendering pass ([writePages], [writeStatic],
    [Generate]) and the publisher ([Deploy]).

    The operating system, the template engine, the feed library and the
    object store are collaborators of the program.  The file system is
    modelled as an in-memory tree, with the operations of package os the
    program calls; the other collaborators are the fields of the class
    [Externals]. *)

From Stdlib Require Import String Ascii List ZArith Bool Lia Sorted.
From stdpp Require Import base option list strings gmap pretty.
Import ListNotations.

Local Open Scope string_scope.
Local Open Scope list_scope.

(** ** Go values: errors, panics, state *)

(** A Go [error] value.  [SkipDir] is the sentinel of path/filepath. *)
Inductive error : Type :=
| SkipDir
| Err (msg : string).

Definition isSkipDir (e : error) : bool :=
  match e with SkipDir => true | Err _ => false end.

(** [err == nil] *)
Definition isNil (err : option error) : bool :=
  match err with None => true | Some _ => false end.

(** A call either returns or panics (nil dereference, failed type
    assertion). *)
Inductive outcome (A : Type) : Type :=
| Done (a : A)
| Panicked.
Arguments Done {A} a.
Arguments Panicked {A}.

(** Stateful code: a state transformer that may panic. *)
Definition M (St A : Type) : Type := St -> outcome (A * St).

Definition ret {St A} (a : A) : M St A := fun st => Done (a, st).

Definition bind {St A B} (c : M St A) (k : A -> M St B) : M St B :=
  fun st => match c st with
            | Done (a, st') => k a st'
            | Panicked => Panicked
            end.

Definition gets {St A} (f : St -> A) : M St A := fun st => Done (f st, st).
Definition modify {St} (f : St -> St) : M St unit := fun st => Done (tt, f st).
Definition panic {St A} : M St A := fun _ => Panicked.

Notation "'let*' x ':=' c 'in' k" := (bind c (fun x => k))
  (at level 10, x name, c at level 100, k at level 200).

(** [if err := c; err != nil { return err }; k] *)
Definition orReturn {St} (c : M St (option error)) (k : M St (option error))
  : M St (option error) :=
  let* err := c in
  match err with
  | Some e => ret (Some e)
  | None => k
  end.

Notation "'check!' c 'in' k" := (orReturn c k)
  (at level 10, c at level 100, k at level 200).

(** What holds of the result of a call, when it returns. *)
Definition returns {St A} (c : M St A) (st : St) (Q : A -> St -> Prop) : Prop :=
  match c st with
  | Done (a, st') => Q a st'
  | Panicked => True
  end.

(** ** Strings and paths *)

Definition HasPrefix (s pre : string) : bool := String.prefix pre s.

Fixpoint lastIs (c : ascii) (s : string) : bool :=
  match s with
  | EmptyString => false
  | String a EmptyString => Ascii.eqb a c
  | String _ s' => lastIs c s'
  end.

(** [strings.HasSuffix(s, "/")] *)
Definition HasSuffixSlash (s : string) : bool := lastIs "/"%char s.

(** [strings.Split(s, "/")] *)
Fixpoint splitSlash (s : string) : list string :=
  match s with
  | EmptyString => [EmptyString]
  | String c s' =>
      if Ascii.eqb c "/"%char then EmptyString :: splitSlash s'
      else match splitSlash s' with
           | [] => [String c EmptyString]
           | w :: ws => String c w :: ws
           end
  end.

(** A file name in the model: the components of a cleaned, rooted path. *)
Abbreviation path := (list string).

Definition pathString (p : path) : string := "/" +:+ String.concat "/" p.

(** [filepath.Rel(root, fn)] for an entry [rel] components below [root]. *)
Definition relString (rel : path) : string :=
  match rel with
  | [] => "."
  | _ => String.concat "/" rel
  end.

(** One step of the lexical processing of [filepath.Clean] on a rooted
    path: empty and dot components vanish, dot-dot removes the component
    before it and is dropped at the root. *)
Definition cleanStep (acc : path) (c : string) : path :=
  if String.eqb c "" || String.eqb c "." then acc
  else if String.eqb c ".." then removelast acc
  else acc ++ [c].

(** [filepath.Join(dir, s)] for a cleaned rooted [dir]. *)
Definition Join (dir : path) (s : string) : path :=
  fold_left cleanStep (splitSlash s) dir.

(** The same processing for [filepath.Clean] on any path: a relative path
    keeps its leading dot-dot components. *)
Definition cleanStepRel (rooted : bool) (acc : path) (c : string) : path :=
  if String.eqb c "" || String.eqb c "." then acc
  else if String.eqb c ".." then
    match List.last acc ".." with
    | ".." => if rooted && match acc with [] => true | _ => false end
              then acc else acc ++ [".."]
    | _ => removelast acc
    end
  else acc ++ [c].

Definition Clean (s : string) : string :=
  let rooted := HasPrefix s "/" in
  let comps := fold_left (cleanStepRel rooted) (splitSlash s) [] in
  let out := (if rooted then "/" else "") +:+ String.concat "/" comps in
  if String.eqb out "" then "." else out.

(** [filepath.Dir(s)]: everything up to the last separator, cleaned. *)
Definition Dir_ (s : string) : string :=
  match removelast (splitSlash s) with
  | [] => "."
  | comps => Clean (String.concat "/" comps +:+ "/")
  end.

(** ** The file system *)

Local Set Warnings "-register-all".

Inductive node : Type :=
| File (data : string)
| Dir (ents : list (string * node)).

Definition isDirNode (n : node) : bool :=
  match n with Dir _ => true | File _ => false end.

Fixpoint assoc (c : string) (ents : list (string * node)) : option node :=
  match ents with
  | [] => None
  | (c', n) :: rest => if String.eqb c c' then Some n else assoc c rest
  end.

Fixpoint replaceEntry (c : string) (n : node) (ents : list (string * node))
  : list (string * node) :=
  match ents with
  | [] => []
  | (c', n') :: rest =>
      if String.eqb c c' then (c, n) :: rest
      else (c', n') :: replaceEntry c n rest
  end.

Fixpoint insertEntry (c : string) (n : node) (ents : list (string * node))
  : list (string * node) :=
  match ents with
  | [] => [(c, n)]
  | (c', n') :: rest =>
      if String.ltb c c' then (c, n) :: (c', n') :: rest
      else (c', n') :: insertEntry c n rest
  end.

(** Replace the entry named [c], or add it in lexical position. *)
Definition setEntry (c : string) (n : node) (ents : list (string * node))
  : list (string * node) :=
  match assoc c ents with
  | Some _ => replaceEntry c n ents
  | None => insertEntry c n ents
  end.

(** Drop the name [c]. *)
Fixpoint delEntry (c : string) (ents : list (string * node))
  : list (string * node) :=
  match ents with
  | [] => []
  | (c', n') :: rest =>
      if String.eqb c c' then delEntry c rest else (c', n') :: delEntry c rest
  end.

Fixpoint lookup (p : path) (n : node) : option node :=
  match p with
  | [] => Some n
  | c :: p' =>
      match n with
      | File _ => None
      | Dir ents =>
          match assoc c ents with
          | Some n' => lookup p' n'
          | None => None
          end
      end
  end.

(** What [os.Lstat] tells about a path: absent, a file with its bytes, or
    a directory. *)
Inductive stat : Type :=
| Absent
| IsFile (data : string)
| IsDir.

Definition Lstat (p : path) (fs : node) : stat :=
  match lookup p fs with
  | None => Absent
  | Some (File d) => IsFile d
  | Some (Dir _) => IsDir
  end.

(** [os.MkdirAll]: creates the directory and its missing parents; an
    error ([None]) when a component of the path is a file. *)
Fixpoint MkdirAll (p : path) (n : node) : option node :=
  match n with
  | File _ => None
  | Dir ents =>
      match p with
      | [] => Some n
      | c :: p' =>
          match MkdirAll p' (default (Dir []) (assoc c ents)) with
          | Some n' => Some (Dir (setEntry c n' ents))
          | None => None
          end
      end
  end.

(** [ioutil.WriteFile]: creates or truncates the file; an error when the
    parent is missing or not a directory, or when the name is a
    directory. *)
Fixpoint WriteFile (p : path) (data : string) (n : node) : option node :=
  match p with
  | [] => match n with File _ => Some (File data) | Dir _ => None end
  | c :: p' =>
      match n with
      | File _ => None
      | Dir ents =>
          match assoc c ents, p' with
          | Some n', _ =>
              match WriteFile p' data n' with
              | Some n'' => Some (Dir (setEntry c n'' ents))
              | None => None
              end
          | None, [] => Some (Dir (setEntry c (File data) ents))
          | None, _ :: _ => None
          end
      end
  end.

(** Rewrite the entries of the directory at [p], when there is one. *)
Fixpoint alterDir (f : list (string * node) -> list (string * node))
  (p : path) (n : node) : node :=
  match n with
  | File _ => n
  | Dir ents =>
      match p with
      | [] => Dir (f ents)
      | c :: p' =>
          match assoc c ents with
          | Some n' => Dir (setEntry c (alterDir f p' n') ents)
          | None => n
          end
      end
  end.

(** Unlink the entry at [p] with all below it. *)
Definition unlink (p : path) (fs : node) : node :=
  match p with
  | [] => alterDir (fun _ => []) [] fs
  | _ => alterDir (delEntry (List.last p "")) (removelast p) fs
  end.

(** [os.RemoveAll]: removes the path and all below it; no error when the
    path does not exist.  The root of the tree cannot be unlinked, it is
    emptied. *)
Definition RemoveAll (p : path) (fs : node) : node := unlink p fs.

(** [os.Remove]: removes a file or an empty directory; an error
    otherwise. *)
Definition Remove (p : path) (fs : node) : option node :=
  match p, lookup p fs with
  | _ :: _, Some (File _) => Some (unlink p fs)
  | _ :: _, Some (Dir []) => Some (unlink p fs)
  | _, _ => None
  end.

(** [ioutil.ReadFile] *)
Definition ReadFile (p : path) (fs : node) : option string :=
  match lookup p fs with
  | Some (File d) => Some d
  | _ => None
  end.

(** ** path/filepath.Walk

    [Walk] follows the tree as it was listed.  The walkers of this
    program never add entries and only [prep]'s removes any, so the one
    way the live tree matters to the walk is [gone]: whether an entry has
    been removed since it was listed.  A directory that is gone after its
    own visit cannot be read, and the walker is called again with that
    error; an entry that is gone before its visit is handed to the walker
    with a nil [FileInfo] and the error. *)

(** [os.FileInfo], as far as the walkers look at it: nil, or [IsDir()]. *)
Definition FileInfo : Type := option bool.

Definition IsDirOf {St} (fi : FileInfo) : M St bool :=
  match fi with
  | Some b => ret b
  | None => panic
  end.

Definition ENOENT : string := "no such file or directory".
Definition ErrNotExist : error := Err ENOENT.

Section Walk.
Context {St : Type}.
Variable gone : path -> St -> bool.
Variable walkFn : path -> FileInfo -> option error -> M St (option error).

(** The loop of [walk] over the names of a directory. *)
Definition walkNames (walkChild : path -> node -> M St (option error)) (rel : path)
  : list (string * node) -> M St (option error) :=
  fix each (ents : list (string * node)) : M St (option error) :=
    match ents with
    | [] => ret None
    | (c, n') :: rest =>
        let* missing := gets (gone (rel ++ [c])) in
        let* err :=
          (if missing : bool then
             let* e := walkFn (rel ++ [c]) None (Some ErrNotExist) in
             match e with
             | Some SkipDir => ret None
             | _ => ret e
             end
           else
             let* e := walkChild (rel ++ [c]) n' in
             match e with
             | Some SkipDir => if isDirNode n' then ret None else ret e
             | _ => ret e
             end) in
        match err with
        | Some e => ret (Some e)
        | None => each rest
        end
    end.

Fixpoint walk (rel : path) (n : node) {struct n} : M St (option error) :=
  let* err := walkFn rel (Some (isDirNode n)) None in
  match err with
  | Some e => if isDirNode n && isSkipDir e then ret None else ret (Some e)
  | None =>
      match n with
      | File _ => ret None
      | Dir ents =>
          let* unreadable := gets (gone rel) in
          if unreadable : bool
          then walkFn rel (Some true) (Some ErrNotExist)
          else walkNames walk rel ents
      end
  end.

(** [filepath.Walk(root, walkFn)]; [start] is what [os.Lstat(root)]
    finds. *)
Definition Walk (start : option node) : M St (option error) :=
  match start with
  | None => walkFn [] None (Some ErrNotExist)
  | Some n => walk [] n
  end.
End Walk.

(** ** The content model *)

(** [time.Time]: an instant counted from the zero time. *)
Definition Time : Type := Z.
Bind Scope Z_scope with Time.
Definition IsZero (t : Time) : bool := (t =? 0)%Z.

(** The dynamic type of a front-matter value, as far as the code looks:
    the type assertion [date.(time.Time)] holds or fails. *)
Inductive field : Type :=
| FTime (t : Time)
| FOther.

(** A content item through its accessors (page.go and post.go are not
    among the sources; [GetAuthor] is [GetString("author")] and [GetDate]
    is [Get("date")], nil when absent). *)
Record Page : Type := mkPage {
  GetUrl : string;
  GetLayout : string;
  GetContent : string;
  GetExt : string;
  GetTitle : string;
  GetDescription : string;
  GetAuthor : string;
  GetDate : option field;
  GetCategories : list string;
  GetTags : list string
}.

(** The values a [Config] holds ([interface{}]); [VNil] is the nil
    interface, which a key written without a value holds. *)
Inductive value : Type :=
| VString (s : string)
| VStrings (l : list string)
| VTime (t : Time)
| VPages (l : list Page)
| VIndex (m : gmap string (list Page))
| VOther
| VNil.

(** [feeds.Item] and [feeds.Feed] *)
Record Item : Type := mkItem {
  itemTitle : string;
  itemLink : string;
  itemDescription : string;
  itemAuthor : string;
  itemCreated : Time
}.

Record Feed : Type := mkFeed {
  feedTitle : string;
  feedLink : string;
  feedDescription : string;
  feedAuthor : string * string;
  feedCreated : Time;
  feedCopyright : string;
  feedItems : list Item
}.

Definition feedAdd (f : Feed) (i : Item) : Feed :=
  mkFeed (feedTitle f) (feedLink f) (feedDescription f) (feedAuthor f)
         (feedCreated f) (feedCopyright f) (feedItems f ++ [i]).

(** What a collaborator returns next to a Go [error]: the value, or the
    message of the error.  The errors of the collaborators are their own;
    none is the [SkipDir] of path/filepath. *)
Inductive result (A : Type) : Type :=
| Ok (a : A)
| Fail (msg : string).
Arguments Ok {A} a.
Arguments Fail {A} msg.

(** The data handed to a template: [site], [page] and, once the body is
    known, [content]. *)
Record RenderData : Type := mkData {
  dataSite : gmap string value;
  dataPage : Page;
  dataContent : option string
}.

(** What the history of a bucket shows of a [Deploy]. *)
Inductive event : Type :=
| EvPut (key : string) (ok : bool)
| EvSleep (ms : Z).

(** ** The collaborators *)

Class Externals : Type := {
  (** util.go: the classification of source files *)
  isHiddenOrTemp : string -> bool;
  isTemplate : string -> bool;
  isPost : string -> bool;
  isPage : string -> bool;
  isStatic : string -> bool;
  isMarkdown : string -> bool;
  appendExt : string -> string -> string;
  (** post.go, page.go: the front-matter parsers, given the name of the
      file and its bytes *)
  ParsePost : string -> string -> string -> result Page;
  ParsePage : string -> string -> result Page;
  (** config.go, missing: [Config.GetStrings], nil when there is no list *)
  GetStrings : gmap string value -> string -> option (list string);
  (** text/template: a parsed template; [template.New("layouts")
      .Funcs(funcMap).ParseFiles] on the named files with their bytes;
      [t.New(name).Parse(text)], which gives the set with the new template
      in it; the execution of one template of a set, which gives what
      reached the buffer and the error *)
  Tmpl : Type;
  ParseFiles : list (string * string) -> result (gmap string Tmpl);
  NewParse : gmap string Tmpl -> string -> string -> result (gmap string Tmpl);
  Execute : gmap string Tmpl -> Tmpl -> RenderData -> string * option string;
  (** gorilla/feeds *)
  ToAtom : Feed -> result string;
  (** mime.TypeByExtension(filepath.Ext(rel)) *)
  mimeType : string -> string;
  (** goamz/s3: a bucket and [Bucket.Put] with the public-read ACL *)
  Bucket : Type;
  Put : string -> string -> string -> Bucket -> Bucket * option string
}.

(** ** The site *)

Section Engine.
Context `{Ext : Externals}.

(** [Src] and [Dest] are absolute paths ([main] passes them through
    [filepath.Abs]); [templ] is a pointer and [ignore] a slice, both may
    be nil. *)
Record Site : Type := mkSite {
  Src : path;
  Dest : path;
  Conf : gmap string value;
  posts : list Page;
  pages : list Page;
  files : list string;
  templ : option (gmap string Tmpl);
  ignore : option (list string)
}.

Definition setConf (c : gmap string value) (s : Site) : Site :=
  mkSite (Src s) (Dest s) c (posts s) (pages s) (files s) (templ s) (ignore s).
Definition setPosts (l : list Page) (s : Site) : Site :=
  mkSite (Src s) (Dest s) (Conf s) l (pages s) (files s) (templ s) (ignore s).
Definition setPages (l : list Page) (s : Site) : Site :=
  mkSite (Src s) (Dest s) (Conf s) (posts s) l (files s) (templ s) (ignore s).
Definition setFiles (l : list string) (s : Site) : Site :=
  mkSite (Src s) (Dest s) (Conf s) (posts s) (pages s) l (templ s) (ignore s).
Definition setTempl (t : option (gmap string Tmpl)) (s : Site) : Site :=
  mkSite (Src s) (Dest s) (Conf s) (posts s) (pages s) (files s) t (ignore s).

(** The process: the site it holds and the file system it works on. *)
Record World : Type := mkWorld {
  site : Site;
  fs : node
}.

Definition onSite (f : Site -> Site) (w : World) : World :=
  mkWorld (f (site w)) (fs w).
Definition setFs (t : node) (w : World) : World := mkWorld (site w) t.

(** A call of package os that fails with an error or changes the tree. *)
Definition sysCall (op : node -> option node) (msg : string)
  : M World (option error) :=
  fun w => match op (fs w) with
           | Some t => Done (None, setFs t w)
           | None => Done (Some (Err msg), w)
           end.

(** *** config.go *)

Definition ConfSet (key : string) (v : value) : M World unit :=
  modify (onSite (fun s => setConf (<[key := v]> (Conf s)) s)).

Definition ConfGet (c : gmap string value) (key : string) : option value :=
  c !! key.

(** [v.(string)] panics on a value of another type. *)
Definition GetString {St} (c : gmap string value) (key : string) : M St string :=
  match c !! key with
  | None => ret ""
  | Some (VString s) => ret s
  | Some _ => panic
  end.

(** *** Site.read *)

(** The walker of [read] appends to the local [layouts]; the state of the
    walk is the world with that list. *)
Definition liftW {A} (c : M World A) : M (World * list path) A :=
  fun st => match c (fst st) with
            | Done (a, w) => Done (a, (w, snd st))
            | Panicked => Panicked
            end.

Definition readWalker (rel : path) (fi : FileInfo) (err : option error)
  : M (World * list path) (option error) :=
  let* s := gets (fun st => site (fst st)) in
  let fn := Src s ++ rel in
  let rels := relString rel in
  match err with
  | Some _ => ret None
  | None =>
      let* isdir := IsDirOf fi in
      if isdir && isHiddenOrTemp (pathString fn) then ret (Some SkipDir)
      else if isdir then ret None
      else if isHiddenOrTemp rels then ret None
      else if isTemplate rels then
        let* _ := modify (fun st => (fst st, snd st ++ [fn])) in
        ret None
      else if isPost rels then
        let* permalink := GetString (Conf s) "permalink" in
        let permalink := if String.eqb permalink "" then "date" else permalink in
        let* data := gets (fun st => ReadFile fn (fs (fst st))) in
        match from_option (fun d => ParsePost rels d permalink) (Fail ENOENT) data with
        | Fail msg => ret (Some (Err msg))
        | Ok post =>
            let* _ := liftW (modify (onSite (fun s => setPosts (post :: posts s) s))) in
            ret None
        end
      else if isPage rels then
        let* data := gets (fun st => ReadFile fn (fs (fst st))) in
        match from_option (fun d => ParsePage rels d) (Fail ENOENT) data with
        | Fail msg => ret (Some (Err msg))
        | Ok page =>
            let* _ := liftW (modify (onSite (fun s => setPages (pages s ++ [page]) s))) in
            ret None
        end
      else if isStatic rels then
        let* _ := liftW (modify (onSite (fun s => setFiles (files s ++ [rels]) s))) in
        ret None
      else ret None
  end.

(** Group the posts by label: an existing list is appended to. *)
Definition addLabel (post : Page) (m : gmap string (list Page)) (label : string)
  : gmap string (list Page) :=
  match m !! label with
  | Some l => <[label := l ++ [post]]> m
  | None => <[label := [post]]> m
  end.

Definition groupBy (labels : Page -> list string) (l : list Page)
  : gmap string (list Page) :=
  fold_left (fun m post => fold_left (addLabel post) (labels post) m) l ∅.

Definition calculateCategories : M World unit :=
  let* s := gets site in
  ConfSet "categories" (VIndex (groupBy GetCategories (posts s))).

Definition calculateTags : M World unit :=
  let* s := gets site in
  ConfSet "tags" (VIndex (groupBy GetTags (posts s))).

(** The bytes of the layout files, for [ParseFiles]. *)
Definition readAll (t : node) (names : list path) : option (list (string * string)) :=
  mapM (fun fn => d ← ReadFile fn t; Some (pathString fn, d)) names.

(** [Compile all templates found, if any]: on an error [ParseFiles]
    returns a nil template, which is assigned as well. *)
Definition compileTemplates (layouts : list path) : M World (option error) :=
  match layouts with
  | [] => ret None
  | _ :: _ =>
      let* t := gets fs in
      match from_option ParseFiles (Fail ENOENT) (readAll t layouts) with
      | Ok ts =>
          let* _ := modify (onSite (setTempl (Some ts))) in
          ret None
      | Fail msg =>
          let* _ := modify (onSite (setTempl None)) in
          ret (Some (Err msg))
      end
  end.

(** [Add the posts, timestamp, etc to the Site Params] *)
Definition setParams (now : Time) : M World unit :=
  let* s := gets site in
  let* _ := ConfSet "posts" (VPages (posts s)) in
  let* _ := ConfSet "time" (VTime now) in
  let* _ := calculateTags in
  calculateCategories.

(** The walk of [read], with the local [layouts] it fills. *)
Definition scan : M World (option error * list path) :=
  fun w =>
    match Walk (fun _ _ => false) readWalker (lookup (Src (site w)) (fs w)) (w, []) with
    | Panicked => Panicked
    | Done (err, (w', layouts)) => Done ((err, layouts), w')
    end.

(** [now] is what [time.Now()] reads during the call. *)
Definition read (now : Time) : M World (option error) :=
  let* r := scan in
  match r with
  | (Some e, _) => ret (Some e)
  | (None, layouts) =>
      check! compileTemplates layouts in
      let* _ := setParams now in
      ret None
  end.

(** *** Site.Reload *)

Definition Reload (now : Time) : M World (option error) :=
  let* _ := modify (onSite (setPosts [])) in
  let* _ := modify (onSite (setPages [])) in
  let* _ := modify (onSite (setFiles [])) in
  let* _ := modify (onSite (setTempl None)) in
  read now.

(** *** NewSite, from the parsed configuration

    A relative [dest] of the configuration is relative to the source
    directory, which [main] has made the working directory. *)

(** [conf.Get(key) != nil]: the key is there and holds a value that is
    not the nil interface. *)
Definition notNil (v : option value) : bool :=
  match v with
  | None | Some VNil => false
  | Some _ => true
  end.

Definition NewSite (src dest : path) (conf : gmap string value) (now : Time)
  (t : node) : outcome (Site + error) :=
  match (if notNil (ConfGet conf "dest")
         then
           let* d := GetString conf "dest" in
           ret (Join (if HasPrefix d "/" then [] else src) d)
         else ret dest) tt with
  | Panicked => Panicked
  | Done (dest, _) =>
      let s := mkSite src dest conf [] [] [] None (GetStrings conf "destignore") in
      match read now (mkWorld s t) with
      | Panicked => Panicked
      | Done (Some e, _) => Done (inr e)
      | Done (None, w) => Done (inl (site w))
      end
  end.

(** *** Site.matchIgnore *)

Fixpoint anyPrefix (rel : string) (prefixes : list string) : bool :=
  match prefixes with
  | [] => false
  | ig :: rest => if HasPrefix rel ig then true else anyPrefix rel rest
  end.

(** Ranging over a nil slice runs no iteration. *)
Definition matchIgnore (s : Site) (rel : string) : bool :=
  anyPrefix rel (default [] (ignore s)).

(** *** Site.prep *)

(** The walker assigns the error of [filepath.Rel] to [err]; what [Walk]
    passed in is lost, and [Rel] does not fail on the names [Walk] makes.
    The first case of the switch is thereby dead. *)
Definition prepWalker (s : Site) (rel : path) (fi : FileInfo) (err : option error)
  : M World (option error) :=
  let fn := Dest s ++ rel in
  let rels := relString rel in
  match rel with
  | [] => ret None
  | _ :: _ =>
      if matchIgnore s rels then
        let* isdir := IsDirOf fi in
        if isdir then ret (Some SkipDir) else ret None
      else
        let* isdir := IsDirOf fi in
        if isdir then
          let* _ := modify (fun w => setFs (RemoveAll fn (fs w)) w) in
          ret None
        else sysCall (Remove fn) "remove"
  end.

Definition prepGone (s : Site) (rel : path) (w : World) : bool :=
  match Lstat (Dest s ++ rel) (fs w) with
  | Absent => true
  | _ => false
  end.

Definition prep : M World (option error) :=
  let* s := gets site in
  check! sysCall (MkdirAll (Dest s)) "mkdir" in
  match ignore s with
  | None =>
      let* _ := modify (fun w => setFs (RemoveAll (Dest s) (fs w)) w) in
      ret None
  | Some _ =>
      check! (fun w => Walk (prepGone s) (prepWalker s) (lookup (Dest s) (fs w)) w) in
      ret None
  end.

(** *** Site.writePages *)

(** [Template.ExecuteTemplate]: the named template of the set is looked
    up and executed; an unknown name is an error and writes nothing. *)
Definition ExecuteTemplate (ts : gmap string Tmpl) (name : string) (data : RenderData)
  : string * option string :=
  match ts !! name with
  | None => ("", Some ("template: no template " +:+ name))
  | Some t => Execute ts t data
  end.

Definition bindR {A B} (c : M World (result A)) (k : A -> M World (result B))
  : M World (result B) :=
  let* r := c in
  match r with
  | Ok a => k a
  | Fail msg => ret (Fail msg)
  end.

Notation "'let?' x ':=' c 'in' k" := (bindR c (fun x => k))
  (at level 10, x name, c at level 100, k at level 200).

Definition sysCallR (op : node -> option node) (msg : string) : M World (result unit) :=
  let* err := sysCall op msg in
  match err with
  | Some _ => ret (Fail msg)
  | None => ret (Ok tt)
  end.

(** The URL an item is written under. *)
Definition outUrl (page : Page) : string :=
  if HasSuffixSlash (GetUrl page) then GetUrl page +:+ "index.html" else GetUrl page.

(** The body of an item: a page that is not markdown is added to the
    templates under its URL and executed. *)
Definition expandBody (page : Page) (url : string) : M World (result string) :=
  let* s := gets site in
  let data := mkData (Conf s) page None in
  if isMarkdown (GetExt page) then ret (Ok (GetContent page))
  else
    match templ s with
    | None => ret (Fail ("No templates defined for page: " +:+ url))
    | Some ts =>
        match NewParse ts url (GetContent page) with
        | Fail msg => ret (Fail msg)
        | Ok ts' =>
            let* _ := modify (onSite (setTempl (Some ts'))) in
            match ExecuteTemplate ts' url data with
            | (_, Some msg) => ret (Fail msg)
            | (out, None) => ret (Ok out)
            end
        end
    end.

(** The bytes written for an item: the body, or the layout executed on
    it.  The error of [ExecuteTemplate] is not looked at; a nil [templ]
    is dereferenced. *)
Definition applyLayout (page : Page) (content : string) : M World string :=
  let* s := gets site in
  let data := mkData (Conf s) page (Some content) in
  let layout := GetLayout page in
  if String.eqb layout "" || String.eqb layout "nil" then ret content
  else
    match templ s with
    | None => panic
    | Some ts => ret (fst (ExecuteTemplate ts (appendExt layout ".html") data))
    end.

Definition feedItem (page : Page) (postTime : Time) : Item :=
  mkItem (GetTitle page) (GetUrl page) (GetDescription page) (GetAuthor page) postTime.

(** [date.(time.Time)] panics on a date of another type. *)
Definition postTimeOf {St} (page : Page) : M St Time :=
  match GetDate page with
  | None => ret 0%Z
  | Some (FTime t) => ret t
  | Some FOther => panic
  end.

(** One turn of the loop of [writePages]. *)
Definition writePage (page : Page) (feed : Feed) : M World (result Feed) :=
  let* s := gets site in
  let url := outUrl page in
  let d := Join (Dest s) (Dir_ url) in
  let f := Join (Dest s) url in
  let? _ := sysCallR (MkdirAll d) "mkdir" in
  let? content := expandBody page url in
  let* out := applyLayout page content in
  let? _ := sysCallR (WriteFile f out) "open" in
  let* postTime := postTimeOf page in
  if IsZero postTime then ret (Ok feed)
  else ret (Ok (feedAdd feed (feedItem page postTime))).

Fixpoint writeEach (l : list Page) (feed : Feed) : M World (result Feed) :=
  match l with
  | [] => ret (Ok feed)
  | page :: rest =>
      let? feed' := writePage page feed in
      writeEach rest feed'
  end.

Definition newFeed (now : Time) : M World Feed :=
  let* s := gets site in
  let* title := GetString (Conf s) "title" in
  let* baseurl := GetString (Conf s) "baseurl" in
  let* description := GetString (Conf s) "description" in
  let* author := GetString (Conf s) "author" in
  let* email := GetString (Conf s) "email" in
  let* copyright := GetString (Conf s) "copyright" in
  ret (mkFeed title baseurl description (author, email) now copyright []).

Definition feedPath : string := "atom.xml".

(** The loop of [writePages], with the feed it accumulates. *)
Definition renderAll (now : Time) : M World (result Feed) :=
  let* feed := newFeed now in
  let* s := gets site in
  writeEach (pages s ++ posts s) feed.

Definition writePages (now : Time) : M World (option error) :=
  let* r := renderAll now in
  let* s := gets site in
  match r with
  | Fail msg => ret (Some (Err msg))
  | Ok feed =>
      match ToAtom feed with
      | Fail msg => ret (Some (Err msg))
      | Ok atom =>
          check! sysCall (WriteFile (Join (Dest s) feedPath) atom) "open" in
          ret None
      end
  end.

(** *** Site.writeStatic *)

(** Modelled from the spec: [copyTo] of util.go, which is not among the
    sources.  The comment of [writeStatic] says that the copy takes care
    of creating any parent directories; the bytes of [from] are written
    to [to]. *)
Definition copyTo (from to : path) : M World (option error) :=
  let* data := gets (fun w => ReadFile from (fs w)) in
  match data with
  | None => ret (Some ErrNotExist)
  | Some d =>
      check! sysCall (MkdirAll (removelast to)) "mkdir" in
      sysCall (WriteFile to d) "open"
  end.

Fixpoint copyEach (s : Site) (l : list string) : M World (option error) :=
  match l with
  | [] => ret None
  | file :: rest =>
      check! copyTo (Join (Src s) file) (Join (Dest s) file) in
      copyEach s rest
  end.

Definition writeStatic : M World (option error) :=
  let* s := gets site in
  copyEach s (files s).

(** *** Site.Generate *)

Definition Generate (now : Time) : M World (option error) :=
  check! prep in
  check! writePages now in
  check! writeStatic in
  ret None.

(** *** recompile

    The value is the error that [recompile] prints, if any. *)
Definition recompile (nowReload nowGenerate : Time) : M World (option error) :=
  check! Reload nowReload in
  check! Generate nowGenerate in
  ret None.

(** *** Site.Deploy *)

Record Cloud : Type := mkCloud {
  bucket : Bucket;
  history : list event
}.

Definition putFile (key content typ : string) : M Cloud (option error) :=
  fun c =>
    let (b, err) := Put key content typ (bucket c) in
    Done (Err <$> err, mkCloud b (history c ++ [EvPut key (isNil (Err <$> err))])).

Definition Sleep (ms : Z) : M Cloud unit :=
  modify (fun c => mkCloud (bucket c) (history c ++ [EvSleep ms])).

Definition deployWalker (s : Site) (t : node) (rel : path) (fi : FileInfo)
  (err : option error) : M Cloud (option error) :=
  let* isdir := IsDirOf fi in
  if isdir : bool then ret None
  else
    let rels := relString rel in
    let typ := mimeType rels in
    match ReadFile (Dest s ++ rel) t with
    | None => ret (Some ErrNotExist)
    | Some content =>
        let* err := putFile rels content typ in
        match err with
        | Some _ =>
            let* _ := Sleep 100 in
            putFile rels content typ
        | None => ret None
        end
    end.

Definition Deploy (s : Site) (t : node) : M Cloud (option error) :=
  Walk (fun _ _ => false) (deployWalker s t) (lookup (Dest s) t).

End Engine.

Notation "'let?' x ':=' c 'in' k" := (bindR c (fun x => k))
  (at level 10, x name, c at level 100, k at level 200).

(** ** The server

    [main] serves the destination directory of the command line with a
    handler that maps the path of a request to a file name. *)

(** [strings.Split(s, ":")] *)
Fixpoint splitColon (s : string) : list string :=
  match s with
  | EmptyString => [EmptyString]
  | String c s' =>
      if Ascii.eqb c ":"%char then EmptyString :: splitColon s'
      else match splitColon s' with
           | [] => [String c EmptyString]
           | w :: ws => String c w :: ws
           end
  end.

(** [filepath.SplitList]: the list separator is the colon; the empty
    string gives the empty list. *)
Definition SplitList (s : string) : list string :=
  if String.eqb s "" then [] else splitColon s.

Section Server.
Context `{Ext : Externals}.

(** The handler, up to its call of [http.ServeFile]: the value is the
    name it serves.  [pathList[len(pathList):]] is the empty slice. *)
Definition handler (dest : path) (urlPath : string) : M World path :=
  let* s := gets site in
  let* base := GetString (Conf s) "baseurl" in
  let pathList := SplitList urlPath in
  let p :=
    match pathList with
    | first :: _ =>
        if String.eqb first base
        then String.concat "/" (skipn (length pathList) pathList)
        else urlPath
    | [] => urlPath
    end in
  ret (Join dest (Clean p)).

End Server.

(** ** A concrete set of collaborators

    The examples below run the engine on small sites.  They need the
    collaborators to be something: the conventions of the specification
    for the classification of files, and the least that the documentation
    of the libraries promises for the rest. *)

Module Demo.

Definition baseName (s : string) : string := List.last (splitSlash s) "".

Fixpoint hasSuffix (suf s : string) : bool :=
  String.eqb suf s ||
  match s with
  | EmptyString => false
  | String _ s' => hasSuffix suf s'
  end.

(** Modelled from the spec: names starting with a dot or ending with a
    tilde are hidden or temporary. *)
Definition isHiddenOrTemp (s : string) : bool :=
  HasPrefix (baseName s) "." || hasSuffix "~" (baseName s).

(** Modelled from the spec: templates live in the layouts and includes
    areas. *)
Definition isTemplate (rel : string) : bool :=
  HasPrefix rel "_layouts/" || HasPrefix rel "_includes/".

Definition isDigit (c : ascii) : bool :=
  (48 <=? nat_of_ascii c)%nat && (nat_of_ascii c <=? 57)%nat.

Definition digit (c : ascii) : Z := Z.of_nat (nat_of_ascii c) - 48.

(** The date prefix [YYYY-MM-DD-] of a file name, as a day count. *)
Definition datePrefix (s : string) : option Time :=
  match s with
  | String y1 (String y2 (String y3 (String y4 (String "-"
      (String m1 (String m2 (String "-"
        (String d1 (String d2 (String "-" _)))))))))) =>
      if forallb isDigit [y1; y2; y3; y4; m1; m2; d1; d2] then
        let y := (((digit y1 * 10 + digit y2) * 10 + digit y3) * 10 + digit y4)%Z in
        let m := (digit m1 * 10 + digit m2)%Z in
        let d := (digit d1 * 10 + digit d2)%Z in
        Some ((y * 12 + m) * 31 + d)%Z
      else None
  | _ => None
  end.

(** Modelled from the spec: a post is a file with a date-prefixed name. *)
Definition isPost (rel : string) : bool :=
  match datePrefix (baseName rel) with Some _ => true | None => false end.

Definition isMarkdown (ext : string) : bool :=
  String.eqb ext ".md" || String.eqb ext ".markdown".

Definition extOf (s : string) : string :=
  if hasSuffix ".md" s then ".md"
  else if hasSuffix ".markdown" s then ".markdown"
  else if hasSuffix ".html" s then ".html"
  else "".

(** Modelled from the spec: a page is a file with a recognised markup
    extension; everything else is static. *)
Definition isPage (rel : string) : bool := negb (String.eqb (extOf rel) "").
Definition isStatic (rel : string) : bool := true.

Definition appendExt (name ext : string) : string :=
  if hasSuffix ext name then name else name +:+ ext.

Definition stripExt (s : string) : string :=
  substring 0 (String.length s - String.length (extOf s)) s.

(** A file without the opening line of a front matter is malformed.  A
    page is written under its own name, as HTML. *)
Definition ParsePage (rel data : string) : result Page :=
  if HasPrefix data "---" then
    Ok (mkPage ("/" +:+ stripExt rel +:+ ".html") "" data (extOf rel)
          (stripExt (baseName rel)) "" "" None [] [])
  else Fail ("malformed front matter: " +:+ rel).

(** A post takes its date and its title from its name, and is written
    under [/YYYY/MM/DD/title.html]. *)
Definition ParsePost (rel data permalink : string) : result Page :=
  match ParsePage rel data with
  | Fail msg => Fail msg
  | Ok p =>
      let base := baseName rel in
      let title := stripExt (substring 11 (String.length base - 11) base) in
      Ok (mkPage ("/" +:+ substring 0 4 base +:+ "/" +:+ substring 5 2 base +:+ "/"
                  +:+ substring 8 2 base +:+ "/" +:+ title +:+ ".html")
            (GetLayout p) (GetContent p) (GetExt p) title
            (GetDescription p) (GetAuthor p)
            (FTime <$> datePrefix base) [] [])
  end.

Definition GetStrings (c : gmap string value) (key : string) : option (list string) :=
  match c !! key with
  | Some (VStrings l) => Some l
  | _ => None
  end.

(** A template is its text; executing it writes the text and then the
    content it wraps.  [ParseFiles] names a template by the base name of
    its file. *)
Definition ParseFiles (l : list (string * string)) : result (gmap string string) :=
  Ok (fold_left (fun m '(fn, d) => <[baseName fn := d]> m) l ∅).

Definition NewParse (ts : gmap string string) (name text : string)
  : result (gmap string string) :=
  Ok (<[name := text]> ts).

Definition Execute (ts : gmap string string) (t : string) (data : RenderData)
  : string * option string :=
  (t +:+ default "" (dataContent data), None).

(** The Atom document carries the creation time of the feed in its
    [updated] element, and one entry per item. *)
Definition ToAtom (f : Feed) : result string :=
  Ok ("<feed><title>" +:+ feedTitle f +:+ "</title><updated>"
      +:+ pretty (feedCreated f) +:+ "</updated>"
      +:+ String.concat ""
            (map (fun i => "<entry>" +:+ itemLink i +:+ "</entry>") (feedItems f))
      +:+ "</feed>").

(** A bucket holds its objects and, for the examples, the fate of the
    next requests: [false] is a request that fails. *)
Record Bucket : Type := mkBucket {
  objects : list (string * string);
  fate : list bool
}.

Definition Put (key content typ : string) (b : Bucket) : Bucket * option string :=
  match fate b with
  | false :: rest => (mkBucket (objects b) rest, Some ("put failed: " +:+ key))
  | true :: rest => (mkBucket (objects b ++ [(key, content)]) rest, None)
  | [] => (mkBucket (objects b ++ [(key, content)]) [], None)
  end.

End Demo.

#[global] Instance demoExt : Externals := {|
  isHiddenOrTemp := Demo.isHiddenOrTemp;
  isTemplate := Demo.isTemplate;
  isPost := Demo.isPost;
  isPage := Demo.isPage;
  isStatic := Demo.isStatic;
  isMarkdown := Demo.isMarkdown;
  appendExt := Demo.appendExt;
  ParsePost := Demo.ParsePost;
  ParsePage := Demo.ParsePage;
  GetStrings := Demo.GetStrings;
  Tmpl := string;
  ParseFiles := Demo.ParseFiles;
  NewParse := Demo.NewParse;
  Execute := Demo.Execute;
  ToAtom := Demo.ToAtom;
  mimeType := fun _ => "text/html";
  Bucket := Demo.Bucket;
  Put := Demo.Put
|}.

(** ** Example sites *)

Definition emptyFeed (now : Time) : Feed := mkFeed "" "" "" ("", "") now "" [].

(** A markdown page that names the layout [default]. *)
Definition aboutPage : Page :=
  mkPage "/about.html" "default" "About us" ".md" "About" "" "" None [] [].

(** A site whose scan found no template file. *)
Definition siteNoTemplates : Site :=
  mkSite ["src"] ["site"] ∅ [] [aboutPage] [] None None.

Definition worldNoTemplates : World := mkWorld siteNoTemplates (Dir []).

(** A site with the one layout [post.html]; its page names the layout
    [default], which is not in the set. *)
Definition siteMissingLayout : Site :=
  mkSite ["src"] ["site"] ∅ [] [aboutPage] [] (Some {["post.html" := "<html>"]}) None.

Definition worldMissingLayout : World := mkWorld siteMissingLayout (Dir []).

(** A page, not a post, whose front matter carries a date. *)
Definition newsPage : Page :=
  mkPage "/news.html" "" "News" ".md" "News" "" "" (Some (FTime 751910)) [] [].

Definition siteDatedPage : Site :=
  mkSite ["src"] ["site"] ∅ [] [newsPage] [] None None.

Definition worldDatedPage : World := mkWorld siteDatedPage (Dir []).

(** A destination tree with two files, and a bucket whose first request
    fails, whose second succeeds, and whose next two fail. *)
Definition siteBuilt : Site := mkSite ["src"] ["site"] ∅ [] [] [] None None.

Definition treeBuilt : node :=
  Dir [("site", Dir [("about.html", File "About us");
                     ("css", Dir [("site.css", File "body{}")]);
                     ("index.html", File "Home")])].

Definition flakyCloud : Cloud := mkCloud (Demo.mkBucket [] [false; true; false; false]) [].

(** A site that has been loaded, with one post and one layout; in its
    source tree the file of the post has since lost its front matter. *)
Definition helloPost : Page :=
  mkPage "/2021/03/05/hello-world.html" "" "--- hello" ".md" "hello-world" "" ""
         (Some (FTime 751910)) [] [].

Definition siteLoaded : Site :=
  mkSite ["src"] ["site"] ∅ [helloPost] [] ["css/site.css"]
         (Some {["post.html" := "<html>"]}) None.

Definition treeBroken : node :=
  Dir [("src", Dir [("_layouts", Dir [("post.html", File "<html>")]);
                    ("_posts", Dir [("2021-03-05-hello-world.md", File "oops")]);
                    ("css", Dir [("site.css", File "body{}")])])].

Definition worldBroken : World := mkWorld siteLoaded treeBroken.

(** A source tree with its posts in two directories: the walk meets the
    post of 2021 before the post of 2020. *)
Definition newPost : Page :=
  mkPage "/2021/03/05/new.html" "" "--- new" ".md" "new" "" ""
         (Some (FTime 751910)) [] [].

Definition oldPost : Page :=
  mkPage "/2020/01/01/old.html" "" "--- old" ".md" "old" "" ""
         (Some (FTime 751472)) [] [].

Definition treeTwoDirs : node :=
  Dir [("src", Dir [("_posts",
                      Dir [("a", Dir [("2021-03-05-new.md", File "--- new")]);
                           ("b", Dir [("2020-01-01-old.md", File "--- old")])])])].

Definition siteFresh : Site := mkSite ["src"] ["site"] ∅ [] [] [] None None.

Definition worldTwoDirs : World := mkWorld siteFresh treeTwoDirs.

(** A destination with stale output, for a site without an ignore list
    and without content. *)
Definition siteNoIgnore : Site := mkSite ["src"] ["site"] ∅ [] [] [] None None.

Definition treeStale : node :=
  Dir [("site", Dir [("stale.html", File "old")]); ("src", Dir [])].

Definition worldStale : World := mkWorld siteNoIgnore treeStale.

(** The ignore list [.git]: the destination holds a repository, a file
    whose name begins the same way, and stale output. *)
Definition siteGit : Site := mkSite ["src"] ["site"] ∅ [] [] [] None (Some [".git"]).

Definition treeGit : node :=
  Dir [("site", Dir [(".git", Dir [("config", File "[core]")]);
                     (".gitfoo", File "foo");
                     ("stale.html", File "old")]);
       ("src", Dir [])].

Definition worldGit : World := mkWorld siteGit treeGit.

(** An ignore prefix that reaches below an entry of the destination
    root. *)
Definition siteDeep : Site := mkSite ["src"] ["site"] ∅ [] [] [] None (Some ["a/b"]).

Definition treeDeep : node :=
  Dir [("site", Dir [("a", Dir [("b", File "kept?"); ("bc", File "kept?")])]);
       ("src", Dir [])].

Definition worldDeep : World := mkWorld siteDeep treeDeep.

(** The ignore list [assets/keep]: the destination holds that directory
    and a stale page; the site has no content. *)
Definition siteAssets : Site :=
  mkSite ["src"] ["site"] ∅ [] [] [] None (Some ["assets/keep"]).

Definition treeAssets : node :=
  Dir [("site", Dir [("assets", Dir [("keep", Dir [("logo.png", File "PNG")])]);
                     ("stale.html", File "old")]);
       ("src", Dir [])].

Definition worldAssets : World := mkWorld siteAssets treeAssets.

(** A blog with one post and one static file, not yet generated. *)
Definition siteBlog : Site :=
  mkSite ["src"] ["site"] ∅ [helloPost] [] ["css/site.css"] None None.

Definition treeBlog : node :=
  Dir [("src", Dir [("_posts", Dir [("2021-03-05-hello-world.md", File "--- hello")]);
                    ("css", Dir [("site.css", File "body{}")])])].

Definition worldBlog : World := mkWorld siteBlog treeBlog.

(** The tree after [Generate], with the clock at [now]. *)
Definition treeBlogAt (now : string) : node :=
  Dir [("site",
        Dir [("2021", Dir [("03", Dir [("05", Dir [("hello-world.html", File "--- hello")])])]);
             ("atom.xml",
              File ("<feed><title></title><updated>" +:+ now
                    +:+ "</updated><entry>/2021/03/05/hello-world.html</entry></feed>"));
             ("css", Dir [("site.css", File "body{}")])]);
       ("src", Dir [("_posts", Dir [("2021-03-05-hello-world.md", File "--- hello")]);
                    ("css", Dir [("site.css", File "body{}")])])].

(** A source tree with a layout, a post, a page, a static file and a
    hidden directory. *)
Definition treeFull : node :=
  Dir [("src", Dir [(".git", Dir [("config", File "[core]")]);
                    ("_layouts", Dir [("post.html", File "<html>")]);
                    ("_posts", Dir [("2021-03-05-hello-world.md", File "--- hello")]);
                    ("about.md", File "--- about");
                    ("css", Dir [("site.css", File "body{}")])])].

Definition worldFull : World := mkWorld siteFresh treeFull.

Definition aboutMd : Page :=
  mkPage "/about.html" "" "--- about" ".md" "about" "" "" None [] [].

(** The site after the scan of [treeFull], with the clock at 9. *)
Definition siteFull : Site :=
  mkSite ["src"] ["site"]
    (<["categories" := VIndex ∅]>
       (<["tags" := VIndex ∅]>
          (<["time" := VTime 9]> (<["posts" := VPages [helloPost]]> ∅))))
    [helloPost] [aboutMd] ["css/site.css"]
    (Some {["post.html" := "<html>"]}) None.

(** A configuration whose permalink is a list. *)
Definition siteBadPermalink : Site :=
  mkSite ["src"] ["site"] {["permalink" := VStrings ["date"]]} [] [] [] None None.

(** A source directory with a hidden name. *)
Definition siteHidden : Site := mkSite [".blog"] ["site"] ∅ [] [] [] None None.

Definition treeHidden : node :=
  Dir [(".blog", Dir [("about.md", File "--- about")])].

(** A configuration whose title is a list. *)
Definition siteBadTitle : Site :=
  mkSite ["src"] ["site"] {["title" := VStrings ["a"; "b"]]} [] [] [] None None.

(** A tree in which a file has the name of the destination. *)
Definition treeBlocked : node :=
  Dir [("site", File "not a directory"); ("src", Dir [])].

(** The tree of [worldBlog] after [writePages], with the clock at 9. *)
Definition treeBlogPages : node :=
  Dir [("site",
        Dir [("2021", Dir [("03", Dir [("05", Dir [("hello-world.html", File "--- hello")])])]);
             ("atom.xml",
              File "<feed><title></title><updated>9</updated><entry>/2021/03/05/hello-world.html</entry></feed>")]);
       ("src", Dir [("_posts", Dir [("2021-03-05-hello-world.md", File "--- hello")]);
                    ("css", Dir [("site.css", File "body{}")])])].

(** An ignore list that is empty but not nil, and one that holds the
    empty prefix. *)
Definition siteEmptyIgnore : Site := mkSite ["src"] ["site"] ∅ [] [] [] None (Some []).
Definition siteIgnoreAll : Site := mkSite ["src"] ["site"] ∅ [] [] [] None (Some [""]).

Definition steadyCloud : Cloud := mkCloud (Demo.mkBucket [] []) [].

Definition siteBase : Site :=
  mkSite ["src"] ["site"] {["baseurl" := VString "/blog"]} [] [] [] None None.

(** A page that is not markdown, before the markdown page that names a
    layout, in a site whose scan found no template file. *)
Definition rawPage : Page :=
  mkPage "/raw.html" "" "<p>raw</p>" ".html" "Raw" "" "" None [] [].

Definition siteRawFirst : Site :=
  mkSite ["src"] ["site"] ∅ [] [rawPage; aboutPage] [] None None.

Definition worldRawFirst : World := mkWorld siteRawFirst (Dir []).

(** ** Notions the properties are stated with *)

(** The date that puts an item into the feed. *)
Definition feedDate (p : Page) : option Time :=
  match GetDate p with
  | Some (FTime t) => if IsZero t then None else Some t
  | _ => None
  end.

(** One feed entry per item with such a date, in the order of the list. *)
Definition datedItems (l : list Page) : list Item :=
  omap (fun p => feedItem p <$> feedDate p) l.

(** [a] comes before [b] in [l]. *)
Definition precedes {A} (a b : A) (l : list A) : Prop :=
  ∃ l1 l2 l3, l = l1 ++ a :: l2 ++ b :: l3.

(** The files of a tree in the order [Walk] visits them, by their names
    below the root of the walk. *)
Fixpoint walkFiles (rel : path) (n : node) : list path :=
  match n with
  | File _ => [rel]
  | Dir ents =>
      (fix each (ents : list (string * node)) : list path :=
         match ents with
         | [] => []
         | (c, n') :: rest => walkFiles (rel ++ [c]) n' ++ each rest
         end) ents
  end.

(** The failure policy of the publisher, in the words of the
    specification, over the files to upload:  each upload is attempted;
    when it fails there is one fixed backoff and exactly one more
    attempt; when that fails too the whole deploy stops there with the
    error of that file; when it succeeds the deploy goes on with the
    next file, as it does after a first attempt that succeeds.  The
    history of the bucket records every attempt. *)
Fixpoint publish `{Ext : Externals} (s : Site) (t : node) (rels : list path)
  (c : Cloud) : outcome (option error * Cloud) :=
  match rels with
  | [] => Done (None, c)
  | rel :: rest =>
      let key := relString rel in
      match ReadFile (Dest s ++ rel) t with
      | None => Done (Some ErrNotExist, c)
      | Some content =>
          match Put key content (mimeType key) (bucket c) with
          | (b1, None) =>
              publish s t rest (mkCloud b1 (history c ++ [EvPut key true]))
          | (b1, Some _) =>
              match Put key content (mimeType key) b1 with
              | (b2, None) =>
                  publish s t rest
                    (mkCloud b2 (history c ++ [EvPut key false; EvSleep 100; EvPut key true]))
              | (b2, Some msg) =>
                  Done (Some (Err msg),
                        mkCloud b2 (history c ++ [EvPut key false; EvSleep 100; EvPut key false]))
              end
          end
      end
  end.

(** The files a walk visits when its walker prunes the directories
    [prune] tells, in the order of the walk. *)
Fixpoint visited (prune : path -> bool) (rel : path) (n : node) : list path :=
  match n with
  | File _ => [rel]
  | Dir ents =>
      if prune rel then []
      else
        (fix each (ents : list (string * node)) : list path :=
           match ents with
           | [] => []
           | (c, n') :: rest => visited prune (rel ++ [c]) n' ++ each rest
           end) ents
  end.

(** The walker called on each file of a list, up to the first error. *)
Fixpoint forEach {St} (walkFn : path -> FileInfo -> option error -> M St (option error))
  (l : list path) : M St (option error) :=
  match l with
  | [] => ret None
  | rel :: rest =>
      check! walkFn rel (Some false) None in
      forEach walkFn rest
  end.

(** *** The scan, as a list of files *)

Section ScanNotions.
Context `{Ext : Externals}.

(** The directories [read] does not enter. *)
Definition readPrune (s : Site) (rel : path) : bool :=
  isHiddenOrTemp (pathString (Src s ++ rel)).

(** The files [read] is called on, in the order of the walk. *)
Definition scannedFiles (s : Site) (t : node) : list path :=
  match lookup (Src s) t with
  | Some n => visited (readPrune s) [] n
  | None => []
  end.

(** The permalink pattern handed to [ParsePost]. *)
Definition permalinkOf (c : gmap string value) : string :=
  match c !! "permalink" with
  | Some (VString p) => if String.eqb p "" then "date" else p
  | _ => "date"
  end.

(** The files that reach the post case of the switch. *)
Definition isPostFile (rels : string) : bool :=
  negb (isHiddenOrTemp rels) && negb (isTemplate rels) && isPost rels.

(** The post a file parses to, when it is a post file that parses. *)
Definition postAt (s : Site) (t : node) (rel : path) : option Page :=
  if isPostFile (relString rel) then
    match ReadFile (Src s ++ rel) t with
    | Some d =>
        match ParsePost (relString rel) d (permalinkOf (Conf s)) with
        | Ok p => Some p
        | Fail _ => None
        end
    | None => None
    end
  else None.

(** The posts of the source tree in the order the walk meets them. *)
Definition walkedPosts (s : Site) (t : node) : list Page :=
  omap (postAt s t) (scannedFiles s t).

(** What a scan leaves alone: everything of the site but its lists. *)
Definition sameSettings (s s' : Site) : Prop :=
  Src s' = Src s ∧ Dest s' = Dest s ∧ Conf s' = Conf s
  ∧ ignore s' = ignore s ∧ templ s' = templ s.

End ScanNotions.

(** The publish date of a post. *)
Definition postDate (p : Page) : Time :=
  match GetDate p with
  | Some (FTime t) => t
  | _ => 0
  end.

(** The entries of the destination root that [prep] leaves: those whose
    name begins with an ignore prefix. *)
Definition kept `{Ext : Externals} (s : Site) (ents : list (string * node))
  : list (string * node) :=
  List.filter (fun e => matchIgnore s (fst e)) ents.

(** A prefix without a path separator. *)
Fixpoint noSlash (p : string) : bool :=
  match p with
  | EmptyString => true
  | String a p' => negb (Ascii.eqb a "/"%char) && noSlash p'
  end.

(** *** What a rendering pass writes *)

Section Outputs.
Context `{Ext : Externals}.

(** The paths [writePages] passes to [MkdirAll] and [WriteFile] for an
    item, and [writeStatic] for a static file. *)
Definition pageOutputs (s : Site) (page : Page) : list path :=
  [Join (Dest s) (Dir_ (outUrl page)); Join (Dest s) (outUrl page)].

Definition staticOutputs (s : Site) (file : string) : list path :=
  [removelast (Join (Dest s) file); Join (Dest s) file].

Definition outputs (s : Site) : list path :=
  flat_map (pageOutputs s) (pages s ++ posts s)
  ++ [Join (Dest s) feedPath]
  ++ flat_map (staticOutputs s) (files s).

(** A path is rewritten by the rendering pass when the pass writes it or
    writes below it. *)
Definition rewritten (s : Site) (q : path) : Prop :=
  ∃ o, In o (outputs s) ∧ q `prefix_of` o.

(** What a rendering pass leaves alone: everything of the site but its
    template set. *)
Definition sameContent (s s' : Site) : Prop :=
  Src s' = Src s ∧ Dest s' = Dest s ∧ Conf s' = Conf s
  ∧ posts s' = posts s ∧ pages s' = pages s ∧ files s' = files s
  ∧ ignore s' = ignore s.

(** What the pass keeps: the content of the site, and the tree at [q]. *)
Definition keeps (w0 : World) (q : path) (w : World) : Prop :=
  sameContent (site w0) (site w) ∧ lookup q (fs w) = lookup q (fs w0).

End Outputs.

(** *** A rendering pass as a list of calls on the tree *)

(** The calls of the rendering pass on the file system: a directory
    made, a file written, a file read with the bytes it had. *)
Inductive op : Type :=
| Mk (d : path)
| Wr (f : path) (data : string)
| Rd (from : path) (data : string).

Definition applyOp (o : op) (t : node) : option node :=
  match o with
  | Mk d => MkdirAll d t
  | Wr f data => WriteFile f data t
  | Rd from data =>
      match ReadFile from t with
      | Some d => if String.eqb d data then Some t else None
      | None => None
      end
  end.

Fixpoint applyOps (ops : list op) (t : node) : option node :=
  match ops with
  | [] => Some t
  | o :: ops' =>
      match applyOp o t with
      | Some t' => applyOps ops' t'
      | None => None
      end
  end.

(** The files the calls write, and the files they read. *)
Definition written (ops : list op) : list path :=
  omap (fun o => match o with Wr f _ => Some f | _ => None end) ops.

Definition readFrom (ops : list op) : list path :=
  omap (fun o => match o with Rd from _ => Some from | _ => None end) ops.

(** A call never removes an entry, never makes a file of a directory
    nor a directory of a file. *)
Definition grows (s1 s2 : stat) : Prop :=
  match s1 with
  | Absent => True
  | IsFile _ => ∃ b, s2 = IsFile b
  | IsDir => s2 = IsDir
  end.

(** A well-formed tree: the names of a directory are distinct. *)
Fixpoint wf (n : node) : Prop :=
  match n with
  | File _ => True
  | Dir ents =>
      NoDup (map fst ents)
      ∧ (fix each (l : list (string * node)) : Prop :=
           match l with
           | [] => True
           | (_, n') :: rest => wf n' ∧ each rest
           end) ents
  end.

(** The entries of a well-formed directory. *)
Definition wfEntries (ents : list (string * node)) : Prop := wf (Dir ents).

(** *** A rendering pass, run again *)

Section ReplayNotions.
Context `{Ext : Externals}.

(** The files a rendering pass writes, and the static files it reads. *)
Definition outputFiles (s : Site) : list path :=
  map (fun page => Join (Dest s) (outUrl page)) (pages s ++ posts s)
  ++ [Join (Dest s) feedPath]
  ++ map (Join (Dest s)) (files s).

Definition sourceFiles (s : Site) : list path := map (Join (Src s)) (files s).

Definition allowedOp (s : Site) (o : op) : Prop :=
  match o with
  | Mk _ => True
  | Wr f _ => In f (outputFiles s)
  | Rd from _ => In from (sourceFiles s)
  end.

(** The run of [c] from [w] to [w'] with the result [r] made the calls
    [ops] on the tree, and [c] does so from every world with the same
    site on which these calls go through. *)
Definition replay {A} (c : M World A) (w : World) (r : A) (w' : World)
  (ops : list op) : Prop :=
  applyOps ops (fs w) = Some (fs w')
  ∧ forall w2 t, site w2 = site w -> applyOps ops (fs w2) = Some t ->
                 c w2 = Done (r, mkWorld (site w') t).

(** Every run of [c] with a good result can be run again. *)
Definition replays {A} (s0 : Site) (good : A -> bool) (c : M World A) (w : World)
  : Prop :=
  sameContent s0 (site w) ->
  returns c w (fun r w' =>
    good r = true ->
    sameContent s0 (site w')
    ∧ ∃ ops, Forall (allowedOp s0) ops ∧ replay c w r w' ops).

(** A computation that looks at the site only. *)
Definition siteOnly {A} (c : M World A) : Prop :=
  forall w, returns c w (fun r w' =>
    fs w' = fs w ∧ sameContent (site w) (site w')
    ∧ forall w2, site w2 = site w -> c w2 = Done (r, mkWorld (site w') (fs w2))).

Definition isOk {A} (r : result A) : bool :=
  match r with Ok _ => true | Fail _ => false end.

(** The rendering pass of [Generate], after [prep]. *)
Definition render (now : Time) : M World (option error) :=
  check! writePages now in
  check! writeStatic in
  ret None.

End ReplayNotions.

(** *** What [prep] removes *)

(** [q] below [p], when [q] is at [p] or below it. *)
Fixpoint stripPrefix (p q : path) : option path :=
  match p with
  | [] => Some q
  | c :: p' =>
      match q with
      | [] => None
      | c' :: q' => if String.eqb c c' then stripPrefix p' q' else None
      end
  end.

(** The paths [prep] leaves nothing at.  Without an ignore list: the
    destination root and all below it (all below it, for a destination
    that is the root of the tree).  With an ignore list: all at or
    below an entry of the destination root whose name matches no ignore
    prefix. *)
Definition erased `{Ext : Externals} (s : Site) (q : path) : bool :=
  match stripPrefix (Dest s) q, ignore s with
  | None, _ => false
  | Some [], None => match Dest s with [] => false | _ => true end
  | Some (_ :: _), None => true
  | Some [], Some _ => false
  | Some (c :: _), Some _ => negb (matchIgnore s c)
  end.

(** *** The scan: pages, static files and templates *)

Section ScanLists.
Context `{Ext : Externals}.

(** The files that reach the template, page and static cases of the
    switch of the walker of [read]: an earlier case takes the file. *)
Definition isTemplateFile (rels : string) : bool :=
  negb (isHiddenOrTemp rels) && isTemplate rels.

Definition isPageFile (rels : string) : bool :=
  negb (isHiddenOrTemp rels) && negb (isTemplate rels) && negb (isPost rels)
  && isPage rels.

Definition isStaticFile (rels : string) : bool :=
  negb (isHiddenOrTemp rels) && negb (isTemplate rels) && negb (isPost rels)
  && negb (isPage rels) && isStatic rels.

(** The page a file parses to, when it is a page file that parses. *)
Definition pageAt (s : Site) (t : node) (rel : path) : option Page :=
  if isPageFile (relString rel) then
    match ReadFile (Src s ++ rel) t with
    | Some d =>
        match ParsePage (relString rel) d with
        | Ok p => Some p
        | Fail _ => None
        end
    | None => None
    end
  else None.

(** The pages, the static files and the template files of the source
    tree, in the order the walk meets them. *)
Definition walkedPages (s : Site) (t : node) : list Page :=
  omap (pageAt s t) (scannedFiles s t).

Definition walkedStatic (s : Site) (t : node) : list string :=
  map relString (List.filter (fun rel => isStaticFile (relString rel)) (scannedFiles s t)).

Definition walkedLayouts (s : Site) (t : node) : list path :=
  map (fun rel => Src s ++ rel)
      (List.filter (fun rel => isTemplateFile (relString rel)) (scannedFiles s t)).

(** The parameters [read] adds to the configuration. *)
Definition withParams (now : Time) (ps : list Page) (c : gmap string value)
  : gmap string value :=
  <["categories" := VIndex (groupBy GetCategories ps)]>
    (<["tags" := VIndex (groupBy GetTags ps)]>
       (<["time" := VTime now]> (<["posts" := VPages ps]> c))).

End ScanLists.

(** The posts that carry the label [c], once for each time they list
    it, in the order of the list. *)
Definition labelled (labels : Page -> list string) (c : string) (l : list Page)
  : list Page :=
  flat_map (fun post => map (fun _ => post) (List.filter (String.eqb c) (labels post))) l.

(** The entry of an index after more posts have been added to it. *)
Definition joined (o : option (list Page)) (l : list Page) : option (list Page) :=
  match o, l with
  | None, [] => None
  | _, _ => Some (default [] o ++ l)
  end.

(** The file an item is written to. *)
Definition outFile `{Ext : Externals} (s : Site) (page : Page) : path :=
  Join (Dest s) (outUrl page).

(** The keys of the configuration that [writePages] reads as strings. *)
Definition feedKeys : list string :=
  ["title"; "baseurl"; "description"; "author"; "email"; "copyright"].

(** The keys of the uploads that went through, in the order of the
    requests. *)
Definition succeeded (evs : list event) : list string :=
  omap (fun e => match e with EvPut key true => Some key | _ => None end) evs.

(** A string without a colon. *)
Fixpoint noColon (p : string) : bool :=
  match p with
  | EmptyString => true
  | String a p' => negb (Ascii.eqb a ":"%char) && noColon p'
  end.

(** A component that [filepath.Clean] keeps as it is. *)
Definition plain (c : string) : Prop :=
  c <> "" ∧ c <> "." ∧ c <> ".." ∧ noSlash c = true.

(** The state of the walk of [read] under another configuration. *)
Definition onConf `{Ext : Externals} (c : gmap string value) (st : World * list path)
  : World * list path :=
  (onSite (setConf c) (fst st), snd st).

(** The outcome of a call, with its state changed. *)
Definition mapState {St St' A} (f : St -> St') (o : outcome (A * St)) : outcome (A * St') :=
  match o with
  | Done (a, st) => Done (a, f st)
  | Panicked => Panicked
  end.

(** * Properties *)

(** ** The monad *)

Lemma bind_Panicked {St A B} (c : M St A) (k : A -> M St B) st :
  c st = Panicked -> bind c k st = Panicked.
Proof. intros H. unfold bind. now rewrite H. Qed.

Lemma returns_intro {St A} (c : M St A) st (Q : A -> St -> Prop) :
  (forall a st', c st = Done (a, st') -> Q a st') -> returns c st Q.
Proof. unfold returns. destruct (c st) as [[a st']|]; auto. Qed.

Lemma returns_elim {St A} (c : M St A) st (Q : A -> St -> Prop) a st' :
  returns c st Q -> c st = Done (a, st') -> Q a st'.
Proof. unfold returns. intros H E. now rewrite E in H. Qed.

Lemma returns_mono {St A} (c : M St A) st (Q Q' : A -> St -> Prop) :
  returns c st Q -> (forall a st', Q a st' -> Q' a st') -> returns c st Q'.
Proof. unfold returns. destruct (c st) as [[a st']|]; auto. Qed.

Lemma returns_ret {St A} (a : A) (st : St) (Q : A -> St -> Prop) :
  Q a st -> returns (ret a) st Q.
Proof. auto. Qed.

Lemma returns_bind {St A B} (c : M St A) (k : A -> M St B) st (Q : B -> St -> Prop) :
  returns c st (fun a st' => returns (k a) st' Q) -> returns (bind c k) st Q.
Proof. unfold returns, bind. destruct (c st) as [[a st']|]; auto. Qed.

Lemma returns_gets {St A} (f : St -> A) st (Q : A -> St -> Prop) :
  Q (f st) st -> returns (gets f) st Q.
Proof. auto. Qed.

Lemma returns_modify {St} (f : St -> St) st (Q : unit -> St -> Prop) :
  Q tt (f st) -> returns (modify f) st Q.
Proof. auto. Qed.

Lemma returns_panic {St A} st (Q : A -> St -> Prop) : returns panic st Q.
Proof. exact I. Qed.

Lemma returns_orReturn {St} (c k : M St (option error)) st (Q : option error -> St -> Prop) :
  returns c st (fun err st' =>
    match err with Some e => Q (Some e) st' | None => returns k st' Q end) ->
  returns (orReturn c k) st Q.
Proof.
  intros H. apply returns_bind. eapply returns_mono; [exact H|].
  intros [e|] st' HQ; auto.
Qed.

Lemma returns_GetString {St} c key (st : St) (Q : string -> St -> Prop) :
  (forall v, Q v st) -> returns (GetString c key) st Q.
Proof.
  intros H. unfold GetString.
  destruct (c !! key) as [[]|]; try apply returns_panic; apply returns_ret; auto.
Qed.

Section WritePages.
Context `{Ext : Externals}.

Lemma returns_bindR {A B} (c : M World (result A)) (k : A -> M World (result B)) w
  (Q : result B -> World -> Prop) :
  returns c w (fun r w' =>
    match r with Ok a => returns (k a) w' Q | Fail msg => Q (Fail msg) w' end) ->
  returns (bindR c k) w Q.
Proof.
  intros H. apply returns_bind. eapply returns_mono; [exact H|].
  intros [a|msg] w' HQ; auto.
Qed.

Lemma returns_sysCall op msg w (Q : option error -> World -> Prop) :
  (forall t, op (fs w) = Some t -> Q None (setFs t w)) ->
  (op (fs w) = None -> Q (Some (Err msg)) w) ->
  returns (sysCall op msg) w Q.
Proof.
  intros H1 H2. unfold returns, sysCall. destruct (op (fs w)); auto.
Qed.

Lemma returns_sysCallR op msg w (Q : result unit -> World -> Prop) :
  (forall t, op (fs w) = Some t -> Q (Ok tt) (setFs t w)) ->
  (op (fs w) = None -> Q (Fail msg) w) ->
  returns (sysCallR op msg) w Q.
Proof.
  intros H1 H2. unfold returns, sysCallR, sysCall, bind, ret.
  destruct (op (fs w)); auto.
Qed.

Lemma sysCallR_Ok_eq op msg w t :
  op (fs w) = Some t -> sysCallR op msg w = Done (Ok tt, setFs t w).
Proof. intros H. unfold sysCallR, sysCall, bind, ret. now rewrite H. Qed.

Lemma bindR_Panicked {A B} (c : M World (result A)) (k : A -> M World (result B)) w :
  c w = Panicked -> bindR c k w = Panicked.
Proof. intros H. unfold bindR, bind. now rewrite H. Qed.

Lemma bindR_Ok {A B} (c : M World (result A)) (k : A -> M World (result B)) w a w' :
  c w = Done (Ok a, w') -> bindR c k w = k a w'.
Proof. intros H. unfold bindR, bind. now rewrite H. Qed.

Lemma bindR_Fail {A B} (c : M World (result A)) (k : A -> M World (result B)) w msg w' :
  c w = Done (Fail msg, w') -> bindR c k w = Done (Fail msg, w').
Proof. intros H. unfold bindR, bind. now rewrite H. Qed.

Lemma writeEach_app l1 l2 feed w :
  writeEach (l1 ++ l2) feed w
  = bindR (writeEach l1 feed) (fun feed' => writeEach l2 feed') w.
Proof.
  revert feed w. induction l1 as [|p l1 IH]; intros feed w.
  - reflexivity.
  - cbn [app writeEach]. unfold bindR, bind.
    destruct (writePage p feed w) as [[[feed'|msg] w']|]; cbn; auto.
Qed.

Lemma expandBody_nil page url w :
  templ (site w) = None ->
  expandBody page url w
  = Done (if isMarkdown (GetExt page) then Ok (GetContent page)
          else Fail ("No templates defined for page: " +:+ url), w).
Proof.
  intros H. unfold expandBody, bind, gets, ret. cbn.
  destruct (isMarkdown _); [reflexivity|]. now rewrite H.
Qed.

Lemma applyLayout_nil page content w :
  templ (site w) = None ->
  applyLayout page content w
  = if String.eqb (GetLayout page) "" || String.eqb (GetLayout page) "nil"
    then Done (content, w) else Panicked.
Proof.
  intros H. unfold applyLayout, bind, gets, ret. cbn.
  destruct (_ || _); [reflexivity|]. now rewrite H.
Qed.

Lemma returns_postTimeOf {St} page (st : St) (Q : Time -> St -> Prop) :
  (forall t, Q t st) -> returns (postTimeOf page) st Q.
Proof.
  intros H. unfold postTimeOf.
  destruct (GetDate page) as [[t|]|]; try apply returns_panic; apply returns_ret; auto.
Qed.

(** Without templates a turn of the loop leaves the site as it is. *)
Lemma writePage_site_nil page feed w :
  templ (site w) = None ->
  returns (writePage page feed) w (fun _ w' => site w' = site w).
Proof.
  intros H. unfold writePage.
  apply returns_bind, returns_gets.
  apply returns_bindR, returns_sysCallR; [intros t Ht|reflexivity].
  apply returns_bindR. unfold returns at 1. rewrite expandBody_nil by exact H.
  destruct (isMarkdown _); [|reflexivity].
  apply returns_bind. unfold returns at 1. rewrite applyLayout_nil by exact H.
  destruct (_ || _); [|exact I].
  apply returns_bindR, returns_sysCallR; [intros t' Ht'|reflexivity].
  apply returns_bind, returns_postTimeOf. intros pt.
  destruct (IsZero pt); reflexivity.
Qed.

Lemma writeEach_site_nil l feed w :
  templ (site w) = None ->
  returns (writeEach l feed) w (fun _ w' => site w' = site w).
Proof.
  revert feed w. induction l as [|p l IH]; intros feed w H; cbn [writeEach].
  - reflexivity.
  - apply returns_bindR.
    eapply returns_mono; [apply writePage_site_nil, H|].
    intros [feed'|msg] w' E; [|exact E].
    eapply returns_mono; [apply IH; congruence|].
    intros r w'' E'. congruence.
Qed.

(** C10, as the code has it.  When the scan found no template file the
    template set is nil.
    Let the loop of [writePages] reach an item: the items before it were
    written and the parent directory of its output can be made.  If the
    item is markdown and names a layout other than the empty one and
    ["nil"], [writePages] dereferences the nil set and panics; it does not
    return an error.  If the item is not markdown, the guard on the
    expansion of its body returns the error [No templates defined]. *)
Theorem writePages_nil_templ now w feed0 pre page rest feed1 w1 :
  templ (site w) = None ->
  pages (site w) ++ posts (site w) = pre ++ page :: rest ->
  newFeed now w = Done (feed0, w) ->
  writeEach pre feed0 w = Done (Ok feed1, w1) ->
  is_Some (MkdirAll (Join (Dest (site w)) (Dir_ (outUrl page))) (fs w1)) ->
  if isMarkdown (GetExt page)
  then GetLayout page <> "" -> GetLayout page <> "nil" ->
       writePages now w = Panicked
  else ∃ w', writePages now w
             = Done (Some (Err ("No templates defined for page: " +:+ outUrl page)), w').
Proof.
  intros Hnil Hl Hfeed Hpre [t Ht].
  assert (Hs : site w1 = site w).
  { exact (returns_elim _ _ _ _ _ (writeEach_site_nil pre feed0 w Hnil) Hpre). }
  assert (Hrun : writePages now w
                 = (let* r := bindR (writePage page feed1) (fun f => writeEach rest f) in
                    let* s := gets site in
                    match r with
                    | Fail msg => ret (Some (Err msg))
                    | Ok feed =>
                        match ToAtom feed with
                        | Fail msg => ret (Some (Err msg))
                        | Ok atom =>
                            check! sysCall (WriteFile (Join (Dest s) feedPath) atom) "open" in
                            ret None
                        end
                    end) w1).
  { unfold writePages, renderAll. unfold bind at 1 2. rewrite Hfeed.
    unfold bind at 1 2, gets at 1. rewrite Hl, writeEach_app.
    rewrite (bindR_Ok _ _ _ _ _ Hpre). cbn [writeEach]. reflexivity. }
  assert (Hpage : writePage page feed1 w1
                  = (let? content := expandBody page (outUrl page) in
                     let* out := applyLayout page content in
                     let? _ := sysCallR (WriteFile (Join (Dest (site w)) (outUrl page)) out) "open" in
                     let* postTime := postTimeOf page in
                     if IsZero postTime then ret (Ok feed1)
                     else ret (Ok (feedAdd feed1 (feedItem page postTime)))) (setFs t w1)).
  { unfold writePage. unfold bind at 1, gets at 1. rewrite Hs.
    now rewrite (bindR_Ok _ _ _ _ _ (sysCallR_Ok_eq _ _ _ _ Ht)). }
  assert (Hnil' : templ (site (setFs t w1)) = None) by (cbn; congruence).
  destruct (isMarkdown (GetExt page)) eqn:Hmd.
  - intros Hl1 Hl2. rewrite Hrun.
    apply bind_Panicked, bindR_Panicked. rewrite Hpage.
    unfold bindR at 1, bind at 1. rewrite (expandBody_nil _ _ _ Hnil'), Hmd.
    unfold bind at 1. rewrite (applyLayout_nil _ _ _ Hnil').
    apply String.eqb_neq in Hl1, Hl2. now rewrite Hl1, Hl2.
  - exists (setFs t w1). rewrite Hrun.
    unfold bind at 1.
    rewrite (bindR_Fail _ _ _ ("No templates defined for page: " +:+ outUrl page) (setFs t w1)).
    + reflexivity.
    + rewrite Hpage. unfold bindR at 1, bind at 1.
      now rewrite (expandBody_nil _ _ _ Hnil'), Hmd.
Qed.

End WritePages.

Lemma writePages_nil_templ_witness : writePages 9 worldNoTemplates = Panicked.
Proof.
  assert (D : is_Some (MkdirAll (Join (Dest (site worldNoTemplates))
                                   (Dir_ (outUrl aboutPage))) (fs worldNoTemplates))).
  { vm_compute. eexists. reflexivity. }
  pose proof (writePages_nil_templ 9 worldNoTemplates (emptyFeed 9) [] aboutPage []
                (emptyFeed 9) worldNoTemplates
                eq_refl eq_refl eq_refl eq_refl D) as W.
  apply W; discriminate.
Defined.

(** C10, as the claim has it, fails: the template set is nil and the
    markdown page [about] names the layout [default], but the page
    before it is not markdown; the guard on the expansion of its body
    ends the loop, and [writePages] returns the error of the guard and
    does not panic. *)
Lemma nil_templ_guard_comes_first :
  templ (site worldRawFirst) = None
  ∧ In aboutPage (pages (site worldRawFirst) ++ posts (site worldRawFirst))
  ∧ isMarkdown (GetExt aboutPage) = true
  ∧ GetLayout aboutPage <> "" ∧ GetLayout aboutPage <> "nil"
  ∧ writePages 9 worldRawFirst
    = Done (Some (Err "No templates defined for page: /raw.html"),
            mkWorld siteRawFirst (Dir [("site", Dir [])]))
  ∧ writePages 9 worldRawFirst <> Panicked.
Proof.
  split; [reflexivity|]. split; [right; now left|]. split; [reflexivity|].
  split; [discriminate|]. split; [discriminate|]. split; [reflexivity|discriminate].
Qed.

Section Feed.
Context `{Ext : Externals}.

Lemma returns_any {St A} (c : M St A) st (Q : A -> St -> Prop) :
  (forall a st', Q a st') -> returns c st Q.
Proof. intros H. apply returns_intro. auto. Qed.

(** A layout that is not in the set leaves the buffer empty; the error
    of [ExecuteTemplate] is dropped. *)
Lemma applyLayout_missing page content w ts :
  templ (site w) = Some ts ->
  String.eqb (GetLayout page) "" || String.eqb (GetLayout page) "nil" = false ->
  ts !! appendExt (GetLayout page) ".html" = None ->
  applyLayout page content w = Done ("", w).
Proof.
  intros Hts Hl Hmiss. unfold applyLayout, bind, gets, ret. cbn.
  rewrite Hl, Hts. unfold ExecuteTemplate. now rewrite Hmiss.
Qed.

(** A turn of the loop adds to the feed the entry of a dated item, and
    nothing else. *)
Lemma writePage_feed page feed w :
  returns (writePage page feed) w (fun r _ =>
    forall feed', r = Ok feed' ->
      feed' = match feedDate page with
              | Some t => feedAdd feed (feedItem page t)
              | None => feed
              end).
Proof.
  unfold writePage.
  apply returns_bind, returns_gets.
  apply returns_bindR, returns_sysCallR; [intros t Ht|discriminate].
  apply returns_bindR, returns_any. intros [content|msg] w1; [|discriminate].
  apply returns_bind, returns_any. intros out w2.
  apply returns_bindR, returns_sysCallR; [intros t' Ht'|discriminate].
  apply returns_bind. unfold postTimeOf, feedDate.
  destruct (GetDate page) as [[pt|]|]; try exact I; cbn.
  - destruct (IsZero pt); cbn; congruence.
  - congruence.
Qed.

Lemma datedItems_cons p l :
  datedItems (p :: l)
  = match feedDate p with
    | Some t => feedItem p t :: datedItems l
    | None => datedItems l
    end.
Proof. unfold datedItems. cbn. now destruct (feedDate p). Qed.

Lemma writeEach_feed l feed w :
  returns (writeEach l feed) w (fun r _ =>
    forall feed', r = Ok feed' ->
      feedItems feed' = feedItems feed ++ datedItems l).
Proof.
  revert feed w. induction l as [|p l IH]; intros feed w; cbn [writeEach].
  - cbn. intros feed' [= <-]. now rewrite app_nil_r.
  - apply returns_bindR.
    eapply returns_mono; [apply writePage_feed|].
    intros [feed1|msg] w1 E; [|discriminate].
    eapply returns_mono; [apply IH|].
    intros r w2 E' feed' ->. rewrite (E' _ eq_refl), (E _ eq_refl).
    rewrite datedItems_cons.
    destruct (feedDate p); cbn; [now rewrite <- app_assoc|reflexivity].
Qed.

Lemma returns_newFeed now w (Q : Feed -> World -> Prop) :
  (forall feed, feedItems feed = [] -> feedCreated feed = now -> Q feed w) ->
  returns (newFeed now) w Q.
Proof.
  intros H. unfold newFeed.
  apply returns_bind, returns_gets.
  do 6 (apply returns_bind, returns_GetString; intros ?).
  apply returns_ret, H; reflexivity.
Qed.

Lemma datedItems_app l1 l2 : datedItems (l1 ++ l2) = datedItems l1 ++ datedItems l2.
Proof. unfold datedItems. apply omap_app. Qed.

Lemma datedItems_none l : Forall (fun p => feedDate p = None) l -> datedItems l = [].
Proof.
  induction 1 as [|p l Hp _ IH]; [reflexivity|].
  unfold datedItems in *. cbn. now rewrite Hp, IH.
Qed.

(** C6, as the code has it.  The feed that [writePages] accumulates has
    one entry per content item with a non-zero date, page or post, in
    the order of the rendering: the pages, then the posts.  When no page
    carries such a date these are the entries of the dated posts, in the
    order of the post list. *)
Theorem renderAll_feed_items now w feed w' :
  renderAll now w = Done (Ok feed, w') ->
  feedItems feed = datedItems (pages (site w) ++ posts (site w))
  ∧ (Forall (fun p => feedDate p = None) (pages (site w)) ->
     feedItems feed = datedItems (posts (site w))).
Proof.
  intros H.
  assert (R : returns (renderAll now) w (fun r _ =>
                forall f, r = Ok f ->
                  feedItems f = datedItems (pages (site w) ++ posts (site w)))).
  { unfold renderAll. apply returns_bind, returns_newFeed. intros feed0 Hi _.
    apply returns_bind, returns_gets.
    eapply returns_mono; [apply writeEach_feed|].
    intros r w1 E f ->. now rewrite (E _ eq_refl), Hi. }
  pose proof (returns_elim _ _ _ _ _ R H _ eq_refl) as E.
  split; [exact E|].
  intros Hp. now rewrite E, datedItems_app, (datedItems_none _ Hp).
Qed.

End Feed.

Lemma renderAll_feed_items_witness :
  feedItems (feedAdd (emptyFeed 9) (feedItem newsPage 751910))
  = datedItems (pages siteDatedPage ++ posts siteDatedPage).
Proof.
  apply (renderAll_feed_items 9 worldDatedPage _
           (mkWorld siteDatedPage (Dir [("site", Dir [("news.html", File "News")])]))).
  reflexivity.
Defined.

(** C6, as the claim has it, fails: a page that is not a post has an
    entry in the feed when its front matter carries a date.  The post
    list of this site is empty and its feed has one entry. *)
Lemma feed_entry_for_a_page :
  ∃ feed,
    renderAll 9 worldDatedPage
    = Done (Ok feed,
            mkWorld siteDatedPage (Dir [("site", Dir [("news.html", File "News")])]))
    ∧ posts (site worldDatedPage) = []
    ∧ feedItems feed = [feedItem newsPage 751910]
    ∧ feedItems feed <> datedItems (posts (site worldDatedPage)).
Proof.
  exists (feedAdd (emptyFeed 9) (feedItem newsPage 751910)).
  split; [reflexivity|].
  split; [reflexivity|]. split; [reflexivity|]. discriminate.
Qed.

(** C2, on the code: the layout [default] of the page is not in the
    template set, and [writePages] returns no error; it has written the
    page, with no bytes in it, and the feed. *)
Theorem writePages_missing_layout :
  GetLayout aboutPage = "default"
  ∧ templ siteMissingLayout = Some {["post.html" := "<html>"]}
  ∧ writePages 9 worldMissingLayout
    = Done (None,
            mkWorld siteMissingLayout
              (Dir [("site",
                     Dir [("about.html", File "");
                          ("atom.xml",
                           File "<feed><title></title><updated>9</updated></feed>")])])).
Proof. split; [reflexivity|]. split; reflexivity. Qed.

(** ** The walk *)

Section WalkEquations.
Context {St : Type}.
Variable gone : path -> St -> bool.
Variable walkFn : path -> FileInfo -> option error -> M St (option error).
Variable walkChild : path -> node -> M St (option error).

Lemma walkNames_nil rel : walkNames gone walkFn walkChild rel [] = ret None.
Proof. reflexivity. Qed.

Lemma walkNames_cons rel c n' rest :
  walkNames gone walkFn walkChild rel ((c, n') :: rest)
  = (let* missing := gets (gone (rel ++ [c])) in
     let* err :=
       (if missing : bool then
          let* e := walkFn (rel ++ [c]) None (Some ErrNotExist) in
          match e with
          | Some SkipDir => ret None
          | _ => ret e
          end
        else
          let* e := walkChild (rel ++ [c]) n' in
          match e with
          | Some SkipDir => if isDirNode n' then ret None else ret e
          | _ => ret e
          end) in
     match err with
     | Some e => ret (Some e)
     | None => walkNames gone walkFn walkChild rel rest
     end).
Proof. reflexivity. Qed.

End WalkEquations.

(** ** The publisher *)

Lemma node_induction (P : node -> Prop) :
  (forall d, P (File d)) ->
  (forall ents, Forall (fun e => P (snd e)) ents -> P (Dir ents)) ->
  forall n, P n.
Proof.
  intros Hf Hd. fix IH 1. intros [d|ents]; [apply Hf|apply Hd].
  induction ents as [|[c n] ents IHe]; constructor; [apply IH|exact IHe].
Qed.

Section Publisher.
Context `{Ext : Externals}.

Lemma publish_app s t l1 l2 c :
  publish s t (l1 ++ l2) c
  = match publish s t l1 c with
    | Done (None, c') => publish s t l2 c'
    | other => other
    end.
Proof.
  revert c. induction l1 as [|rel l1 IH]; intros c; cbn [app publish].
  - reflexivity.
  - destruct (ReadFile _ t) as [content|]; [|reflexivity].
    destruct (Put _ _ _ (bucket c)) as [b1 [msg1|]].
    + destruct (Put _ _ _ b1) as [b2 [msg2|]]; [reflexivity|apply IH].
    + apply IH.
Qed.

(** The publisher never fails with the sentinel of the walk. *)
Lemma publish_error s t l c e c' :
  publish s t l c = Done (Some e, c') -> isSkipDir e = false.
Proof.
  revert c. induction l as [|rel l IH]; intros c; cbn [publish].
  - discriminate.
  - destruct (ReadFile _ t) as [content|]; [|now intros [= <- _]].
    destruct (Put _ _ _ (bucket c)) as [b1 [msg1|]].
    + destruct (Put _ _ _ b1) as [b2 [msg2|]]; [now intros [= <- _]|apply IH].
    + apply IH.
Qed.

Lemma deployWalker_file s t rel c :
  deployWalker s t rel (Some false) None c = publish s t [rel] c.
Proof.
  unfold deployWalker, bind, IsDirOf, ret, putFile, Sleep, modify. cbn.
  destruct (ReadFile _ t) as [content|]; [|reflexivity].
  destruct (Put _ _ _ (bucket c)) as [b1 [msg1|]]; cbn; [|reflexivity].
  destruct (Put _ _ _ b1) as [b2 [msg2|]]; cbn; now rewrite <- !app_assoc.
Qed.

Lemma walk_deploy s t n : forall rel c,
  walk (fun _ _ => false) (deployWalker s t) rel n c = publish s t (walkFiles rel n) c.
Proof.
  induction n as [d|ents IH] using node_induction; intros rel c.
  - cbn [walk walkFiles isDirNode]. unfold bind at 1. rewrite deployWalker_file.
    destruct (publish s t [rel] c) as [[[e|] c']|]; reflexivity.
  - cbn [walk walkFiles isDirNode].
    unfold bind at 1. unfold deployWalker at 1, IsDirOf, bind at 1, ret at 1 2.
    unfold bind at 1, gets at 1.
    revert c. induction IH as [|[name n'] ents Hn _ IHents]; intros c.
    + reflexivity.
    + cbn [snd] in Hn. rewrite publish_app, walkNames_cons.
      unfold bind at 1, gets at 1. unfold bind at 1 2. rewrite Hn.
      destruct (publish s t (walkFiles (rel ++ [name]) n') c) as [[[e|] c']|] eqn:E.
      * apply publish_error in E. destruct e; [discriminate|reflexivity].
      * unfold ret at 1 2. apply IHents.
      * reflexivity.
Qed.

(** C8. [Deploy] follows the failure policy [publish] on the files of
    the destination tree, in the order of the walk: an upload that
    fails is tried exactly once more after the backoff of 100 ms; a
    second failure ends the deploy with that error and no further
    request; a retry that succeeds is followed by the next file, as a
    first attempt that succeeds is. *)
Theorem Deploy_retry_policy s t dest c :
  lookup (Dest s) t = Some dest ->
  Deploy s t c = publish s t (walkFiles [] dest) c.
Proof.
  intros H. unfold Deploy, Walk. rewrite H. apply walk_deploy.
Qed.

End Publisher.

Lemma Deploy_retry_policy_witness :
  Deploy siteBuilt treeBuilt flakyCloud
  = Done (Some (Err "put failed: css/site.css"),
          mkCloud (Demo.mkBucket [("about.html", "About us")] [])
            [EvPut "about.html" false; EvSleep 100; EvPut "about.html" true;
             EvPut "css/site.css" false; EvSleep 100; EvPut "css/site.css" false]).
Proof.
  rewrite (Deploy_retry_policy siteBuilt treeBuilt
             (Dir [("about.html", File "About us");
                   ("css", Dir [("site.css", File "body{}")]);
                   ("index.html", File "Home")]) flakyCloud eq_refl).
  reflexivity.
Defined.

(** ** Walks that read the tree

    A walker that leaves the tree alone, that prunes or passes over
    directories without a change of state, and that never answers
    [SkipDir] on a file, is called on the files of the tree in order,
    up to the first error. *)

Section WalkReadOnly.
Context {St : Type}.
Variable walkFn : path -> FileInfo -> option error -> M St (option error).
Variable prune : path -> bool.
Variable Inv : St -> Prop.

Hypothesis on_dir : forall rel st, Inv st ->
  walkFn rel (Some true) None st
  = Done (if prune rel then Some SkipDir else None, st).
Hypothesis on_file : forall rel st, Inv st ->
  returns (walkFn rel (Some false) None) st (fun err st' =>
    Inv st' /\ err <> Some SkipDir).

Lemma forEach_app l1 l2 st :
  forEach walkFn (l1 ++ l2) st
  = match forEach walkFn l1 st with
    | Done (None, st') => forEach walkFn l2 st'
    | other => other
    end.
Proof.
  revert st. induction l1 as [|rel l1 IH]; intros st; cbn [app forEach].
  - reflexivity.
  - unfold orReturn, bind.
    destruct (walkFn rel (Some false) None st) as [[[e|] st']|]; auto.
Qed.

Lemma forEach_inv l : forall st, Inv st ->
  returns (forEach walkFn l) st (fun err st' => Inv st' /\ err <> Some SkipDir).
Proof.
  induction l as [|rel l IH]; intros st HI; cbn [forEach].
  - split; [exact HI|discriminate].
  - apply returns_orReturn.
    eapply returns_mono; [apply on_file, HI|].
    intros [e|] st' [HI' He]; [now split|]. now apply IH.
Qed.

Lemma walk_forEach n : forall rel st, Inv st ->
  walk (fun _ _ => false) walkFn rel n st = forEach walkFn (visited prune rel n) st.
Proof.
  induction n as [d|ents IH] using node_induction; intros rel st HI.
  - cbn [walk visited forEach isDirNode]. unfold orReturn, bind.
    destruct (walkFn rel (Some false) None st) as [[[e|] st']|]; reflexivity.
  - cbn [walk visited isDirNode]. unfold bind at 1. rewrite on_dir by exact HI.
    destruct (prune rel); [reflexivity|].
    unfold bind at 1, gets at 1.
    revert st HI. induction IH as [|[name n'] ents Hn _ IHents]; intros st HI.
    + reflexivity.
    + cbn [snd] in Hn. rewrite forEach_app, walkNames_cons.
      unfold bind at 1, gets at 1. unfold bind at 1 2. rewrite Hn by exact HI.
      pose proof (forEach_inv (visited prune (rel ++ [name]) n') st HI) as R.
      unfold returns in R.
      destruct (forEach walkFn (visited prune (rel ++ [name]) n') st) as [[[e|] st']|].
      * destruct R as [_ He]. destruct e; [congruence|reflexivity].
      * unfold ret at 1 2. apply IHents, R.
      * reflexivity.
Qed.

End WalkReadOnly.

(** ** The scan *)

Section Scan.
Context `{Ext : Externals}.

Lemma sameSettings_refl s : sameSettings s s.
Proof. repeat split. Qed.

(** The walker of [read] on a file: the settings of the site and the
    tree stay, the answer is never [SkipDir], and when the answer is nil
    the post list has grown at its head by the post the file parses to,
    if any. *)
Lemma readWalker_file s0 t0 rel st :
  sameSettings s0 (site (fst st)) -> fs (fst st) = t0 ->
  returns (readWalker rel (Some false) None) st (fun err st' =>
    (sameSettings s0 (site (fst st')) ∧ fs (fst st') = t0)
    ∧ err <> Some SkipDir
    ∧ (err = None ->
       posts (site (fst st'))
       = match postAt s0 t0 rel with
         | Some p => p :: posts (site (fst st))
         | None => posts (site (fst st))
         end)).
Proof.
  intros Hs Ht. destruct Hs as (HSrc & HDest & HConf & Hig & Htp).
  assert (Hs : sameSettings s0 (site (fst st))) by (repeat split; assumption).
  unfold readWalker, postAt, isPostFile.
  apply returns_bind, returns_gets. cbn beta iota zeta.
  apply returns_bind, returns_ret. cbn [andb].
  destruct (isHiddenOrTemp (relString rel)); cbn [negb andb].
  { apply returns_ret. repeat split; try assumption; discriminate. }
  destruct (isTemplate (relString rel)); cbn [negb andb].
  { apply returns_bind, returns_modify, returns_ret. cbn.
    repeat split; try assumption; discriminate. }
  destruct (isPost (relString rel)).
  - apply returns_bind. unfold GetString, permalinkOf. rewrite HConf.
    destruct (Conf s0 !! "permalink") as [[p| | | | | |]|]; try exact I;
      apply returns_ret; apply returns_bind, returns_gets;
      rewrite HSrc, Ht; cbn [String.eqb].
    + destruct (ReadFile (Src s0 ++ rel) t0) as [d|]; cbn [from_option].
      * destruct (ParsePost _ d _) as [post|msg].
        -- apply returns_bind. unfold liftW, modify, onSite, returns. cbn.
           repeat split; try assumption; discriminate.
        -- apply returns_ret. repeat split; try assumption; discriminate.
      * apply returns_ret. repeat split; try assumption; discriminate.
    + destruct (ReadFile (Src s0 ++ rel) t0) as [d|]; cbn [from_option].
      * destruct (ParsePost _ d _) as [post|msg].
        -- apply returns_bind. unfold liftW, modify, onSite, returns. cbn.
           repeat split; try assumption; discriminate.
        -- apply returns_ret. repeat split; try assumption; discriminate.
      * apply returns_ret. repeat split; try assumption; discriminate.
  - destruct (isPage (relString rel)).
    + apply returns_bind, returns_gets.
      destruct (ReadFile _ _) as [d|]; cbn [from_option].
      * destruct (ParsePage _ d) as [page|msg].
        -- apply returns_bind. unfold liftW, modify, onSite, returns. cbn.
           repeat split; try assumption; discriminate.
        -- apply returns_ret. repeat split; try assumption; discriminate.
      * apply returns_ret. repeat split; try assumption; discriminate.
    + destruct (isStatic (relString rel)).
      * apply returns_bind. unfold liftW, modify, onSite, returns. cbn.
        repeat split; try assumption; discriminate.
      * apply returns_ret. repeat split; try assumption; discriminate.
Qed.

Lemma readWalker_dir s0 rel st :
  Src (site (fst st)) = Src s0 ->
  readWalker rel (Some true) None st
  = Done (if readPrune s0 rel then Some SkipDir else None, st).
Proof.
  intros H. unfold readWalker, readPrune, bind, gets, IsDirOf, ret. cbn.
  rewrite H. now destruct (isHiddenOrTemp _).
Qed.

(** The scan of a list of files. *)
Lemma forEach_read s0 t0 l : forall st,
  sameSettings s0 (site (fst st)) -> fs (fst st) = t0 ->
  returns (forEach readWalker l) st (fun err st' =>
    (sameSettings s0 (site (fst st')) ∧ fs (fst st') = t0)
    ∧ (err = None ->
       posts (site (fst st')) = rev (omap (postAt s0 t0) l) ++ posts (site (fst st)))).
Proof.
  induction l as [|rel l IH]; intros st Hs Ht; cbn [forEach].
  - apply returns_ret. split; [now split|intros _; reflexivity].
  - apply returns_orReturn.
    eapply returns_mono; [apply (readWalker_file s0 t0), Ht; exact Hs|].
    intros [e|] st' ([Hs' Ht'] & _ & Hp).
    + split; [now split|discriminate].
    + eapply returns_mono; [apply IH; assumption|].
      intros err st'' (HI & Hp'). split; [exact HI|].
      intros ->. rewrite (Hp' eq_refl), (Hp eq_refl).
      change (omap (postAt s0 t0) (rel :: l))
        with (match postAt s0 t0 rel with
              | Some p => p :: omap (postAt s0 t0) l
              | None => omap (postAt s0 t0) l
              end).
      destruct (postAt s0 t0 rel); cbn [rev]; [now rewrite <- app_assoc|reflexivity].
Qed.

(** The walk of [read], from the first call of the walker to the last. *)
Lemma Walk_read w :
  returns (Walk (fun _ _ => false) readWalker (lookup (Src (site w)) (fs w))) (w, [])
    (fun err st' =>
       (sameSettings (site w) (site (fst st')) ∧ fs (fst st') = fs w)
       ∧ (err = None ->
          posts (site (fst st'))
          = rev (walkedPosts (site w) (fs w)) ++ posts (site w))).
Proof.
  unfold Walk, walkedPosts, scannedFiles.
  destruct (lookup (Src (site w)) (fs w)) as [n|].
  - unfold returns.
    rewrite (walk_forEach readWalker (readPrune (site w))
               (fun st => sameSettings (site w) (site (fst st)) ∧ fs (fst st) = fs w)).
    + apply (forEach_read (site w) (fs w)); [apply sameSettings_refl|reflexivity].
    + intros rel st [Hs _]. apply readWalker_dir, Hs.
    + intros rel st [Hs Ht].
      eapply returns_mono; [apply (readWalker_file (site w) (fs w)); assumption|].
      intros err st' (HI & He & _). now split.
    + split; [apply sameSettings_refl|reflexivity].
  - unfold returns, readWalker, bind, gets, ret. cbn.
    split; [split; [apply sameSettings_refl|reflexivity]|reflexivity].
Qed.

Lemma returns_scan w (Q : option error * list path -> World -> Prop) :
  (forall err layouts w',
     sameSettings (site w) (site w') -> fs w' = fs w ->
     (err = None ->
      posts (site w') = rev (walkedPosts (site w) (fs w)) ++ posts (site w)) ->
     Q (err, layouts) w') ->
  returns scan w Q.
Proof.
  intros H. pose proof (Walk_read w) as R. unfold returns in *. unfold scan.
  destruct (Walk _ _ _ _) as [[err [w' layouts]]|]; [|exact I].
  destruct R as ([Hs Ht] & Hp). now apply H.
Qed.

Lemma returns_compileTemplates layouts w (Q : option error -> World -> Prop) :
  (forall ts, Q None (onSite (setTempl ts) w)) ->
  (forall e, Q (Some e) (onSite (setTempl None) w)) ->
  Q None w ->
  returns (compileTemplates layouts) w Q.
Proof.
  intros H1 H2 H3. unfold compileTemplates.
  destruct layouts; [now apply returns_ret|].
  apply returns_bind, returns_gets.
  destruct (from_option _ _ _); apply returns_bind, returns_modify, returns_ret; auto.
Qed.

Lemma returns_setParams now w (Q : unit -> World -> Prop) :
  (forall c, Q tt (onSite (setConf c) w)) ->
  returns (setParams now) w Q.
Proof.
  intros H. unfold setParams, calculateTags, calculateCategories, ConfSet.
  unfold returns, bind, gets, modify. cbn.
  destruct w as [s t]. cbn. apply (H _).
Qed.

(** When [read] returns an error, the settings of the site and the file
    system are as before; the template set is as before or nil. *)
Lemma read_error now w e w' :
  read now w = Done (Some e, w') ->
  Src (site w') = Src (site w) ∧ Dest (site w') = Dest (site w)
  ∧ Conf (site w') = Conf (site w) ∧ ignore (site w') = ignore (site w)
  ∧ (templ (site w') = templ (site w) ∨ templ (site w') = None)
  ∧ fs w' = fs w.
Proof.
  intros H.
  assert (R : returns (read now) w (fun err w' =>
                err <> None ->
                Src (site w') = Src (site w) ∧ Dest (site w') = Dest (site w)
                ∧ Conf (site w') = Conf (site w) ∧ ignore (site w') = ignore (site w)
                ∧ (templ (site w') = templ (site w) ∨ templ (site w') = None)
                ∧ fs w' = fs w)).
  { unfold read. apply returns_bind, returns_scan.
    intros [e'|] layouts w1 (HS & HD & HC & HI & HT) Hfs _.
    - apply returns_ret. intros _. auto 10.
    - apply returns_orReturn, returns_compileTemplates.
      + intros ts. apply returns_bind, returns_setParams. intros c.
        apply returns_ret. congruence.
      + intros e' _. destruct w1 as [s1 t1]. cbn in *. auto 10.
      + apply returns_bind, returns_setParams. intros c.
        apply returns_ret. congruence. }
  apply (returns_elim _ _ _ _ _ R H). discriminate.
Qed.

(** When [read] returns without an error, the post list is the posts of
    the source tree in the reverse of the order of the walk, before the
    posts that were there. *)
Lemma read_posts now w w' :
  read now w = Done (None, w') ->
  posts (site w') = rev (walkedPosts (site w) (fs w)) ++ posts (site w).
Proof.
  intros H.
  assert (R : returns (read now) w (fun err w' =>
                err = None ->
                posts (site w') = rev (walkedPosts (site w) (fs w)) ++ posts (site w))).
  { unfold read. apply returns_bind, returns_scan.
    intros [e'|] layouts w1 _ _ Hp.
    - apply returns_ret. discriminate.
    - specialize (Hp eq_refl).
      apply returns_orReturn, returns_compileTemplates.
      + intros ts. apply returns_bind, returns_setParams. intros c.
        apply returns_ret. intros _. exact Hp.
      + discriminate.
      + apply returns_bind, returns_setParams. intros c.
        apply returns_ret. intros _. exact Hp. }
  exact (returns_elim _ _ _ _ _ R H eq_refl).
Qed.

(** [Reload] is [read] on the site with its lists emptied and its
    templates dropped. *)
Lemma Reload_read now w :
  Reload now w
  = read now (mkWorld (mkSite (Src (site w)) (Dest (site w)) (Conf (site w))
                         [] [] [] None (ignore (site w))) (fs w)).
Proof. destruct w as [[] t]. reflexivity. Qed.

(** C1, as the code has it.  When [Reload] returns an error the source
    and destination paths, the configuration, the ignore list and the
    file system are as before the call.  The content store is not: the
    template set is nil, and the lists of posts, pages and static files
    are what the aborted scan has left, whatever the site held before
    the call. *)
Theorem Reload_error_state now w e w' :
  Reload now w = Done (Some e, w') ->
  (Src (site w') = Src (site w) ∧ Dest (site w') = Dest (site w)
   ∧ Conf (site w') = Conf (site w) ∧ ignore (site w') = ignore (site w)
   ∧ fs w' = fs w)
  ∧ templ (site w') = None
  ∧ (forall ps pgs fls ts,
       Reload now (onSite (fun s => setTempl ts (setFiles fls (setPages pgs (setPosts ps s)))) w)
       = Done (Some e, w')).
Proof.
  intros H. split; [|split].
  - rewrite Reload_read in H.
    destruct (read_error _ _ _ _ H) as (HS & HD & HC & HI & _ & Hfs). auto.
  - rewrite Reload_read in H.
    destruct (read_error _ _ _ _ H) as (_ & _ & _ & _ & [HT|HT] & _); exact HT.
  - intros ps pgs fls ts. rewrite <- H, !Reload_read. now destruct w as [[] t].
Qed.

Lemma precedes_rev {A} (a b : A) l : precedes a b l -> precedes b a (rev l).
Proof.
  intros (l1 & l2 & l3 & ->). exists (rev l3), (rev l2), (rev l1).
  rewrite rev_app_distr. cbn [rev]. rewrite rev_app_distr. cbn [rev].
  now rewrite <- !app_assoc.
Qed.

Lemma precedes_cons {A} (x a b : A) l : precedes a b l -> precedes a b (x :: l).
Proof. intros (l1 & l2 & l3 & ->). now exists (x :: l1), l2, l3. Qed.

(** In a list of posts in the order of their dates, a post of an
    earlier date comes before a post of a later date. *)
Lemma sorted_precedes (l : list Page) :
  StronglySorted (fun a b => (postDate a <= postDate b)%Z) l ->
  forall a b, In a l -> In b l -> (postDate a < postDate b)%Z -> precedes a b l.
Proof.
  induction 1 as [|x l Hs IH Hx]; intros a b Ha Hb Hlt; [destruct Ha|].
  destruct Ha as [<-|Ha], Hb as [<-|Hb].
  - lia.
  - apply in_split in Hb as (l2 & l3 & ->). now exists [], l2, l3.
  - rewrite Forall_forall in Hx.
    pose proof (Hx a (proj2 (list_elem_of_In _ _) Ha)). lia.
  - apply precedes_cons. now apply IH.
Qed.

(** The order of the post list.  After a scan that starts from an
    empty post list, the post list is the posts of the source tree in the reverse
    of the order in which the walk met them: a post met later comes
    first.  The list is in reverse chronological order when the walk
    meets the posts in the order of their dates. *)
Theorem read_posts_order now w w' :
  read now w = Done (None, w') ->
  posts (site w) = [] ->
  posts (site w') = rev (walkedPosts (site w) (fs w))
  ∧ (forall P1 P2,
       precedes P2 P1 (walkedPosts (site w) (fs w)) ->
       precedes P1 P2 (posts (site w')))
  ∧ (StronglySorted (fun a b => (postDate a <= postDate b)%Z)
       (walkedPosts (site w) (fs w)) ->
     forall P1 P2,
       In P1 (posts (site w')) -> In P2 (posts (site w')) ->
       (postDate P2 < postDate P1)%Z ->
       precedes P1 P2 (posts (site w'))).
Proof.
  intros H H0.
  assert (E : posts (site w') = rev (walkedPosts (site w) (fs w))).
  { rewrite (read_posts _ _ _ H), H0. apply app_nil_r. }
  split; [exact E|]. rewrite E. split.
  - intros P1 P2. apply precedes_rev.
  - intros Hs P1 P2 H1 H2 Hlt. apply precedes_rev.
    apply sorted_precedes; auto; now apply in_rev.
Qed.

(** C7, on the code.  The walker puts each post before the posts met so
    far and nothing sorts the list: after a scan that starts from an
    empty post list, when the walk has met a post [P1] before a post
    [P2] of an earlier date, [P2] comes before [P1] in the post list,
    the earlier post before the later one. *)
Theorem read_posts_not_by_date now w w' P1 P2 :
  read now w = Done (None, w') ->
  posts (site w) = [] ->
  precedes P1 P2 (walkedPosts (site w) (fs w)) ->
  (postDate P2 < postDate P1)%Z ->
  precedes P2 P1 (posts (site w')).
Proof.
  intros H H0 Hw _.
  rewrite (read_posts _ _ _ H), H0, app_nil_r. now apply precedes_rev.
Qed.

End Scan.

Lemma Reload_error_state_witness :
  templ (site (mkWorld (mkSite ["src"] ["site"] ∅ [] [] [] None None) treeBroken)) = None.
Proof.
  apply (Reload_error_state 9 worldBroken
           (Err "malformed front matter: _posts/2021-03-05-hello-world.md")).
  reflexivity.
Defined.

(** C1, as the claim has it, fails: a post of the source tree has lost its
    front matter; [Reload] returns the error of the parser, and the site
    that held a post, a static file and a template set holds none. *)
Lemma Reload_error_loses_the_site :
  Reload 9 worldBroken
  = Done (Some (Err "malformed front matter: _posts/2021-03-05-hello-world.md"),
          mkWorld (mkSite ["src"] ["site"] ∅ [] [] [] None None) treeBroken)
  ∧ posts (site worldBroken) = [helloPost]
  ∧ files (site worldBroken) = ["css/site.css"]
  ∧ templ (site worldBroken) = Some {["post.html" := "<html>"]}
  ∧ mkSite ["src"] ["site"] ∅ [] [] [] None None <> site worldBroken.
Proof.
  split; [reflexivity|]. split; [reflexivity|]. split; [reflexivity|].
  split; [reflexivity|]. discriminate.
Qed.

Lemma read_posts_order_witness :
  posts (site (mkWorld (setConf (<["categories" := VIndex ∅]>
                                  (<["tags" := VIndex ∅]>
                                    (<["time" := VTime 9]>
                                      (<["posts" := VPages [oldPost; newPost]]> ∅))))
                         (setPosts [oldPost; newPost] siteFresh)) treeTwoDirs))
  = rev (walkedPosts (site worldTwoDirs) (fs worldTwoDirs)).
Proof.
  apply (read_posts_order 9 worldTwoDirs); reflexivity.
Defined.

Lemma read_posts_not_by_date_witness :
  precedes oldPost newPost
    (posts (site (mkWorld (setConf (<["categories" := VIndex ∅]>
                                     (<["tags" := VIndex ∅]>
                                       (<["time" := VTime 9]>
                                         (<["posts" := VPages [oldPost; newPost]]> ∅))))
                            (setPosts [oldPost; newPost] siteFresh)) treeTwoDirs))).
Proof.
  apply (read_posts_not_by_date 9 worldTwoDirs _ newPost oldPost).
  - reflexivity.
  - reflexivity.
  - exists [], [], []. reflexivity.
  - reflexivity.
Defined.

(** The failing input of C7: the post of 2021 is later than the post of
    2020 and does not come before it in the post list, for the walk met
    it first. *)
Lemma later_post_not_first :
  ∃ w',
    Reload 9 worldTwoDirs = Done (None, w')
    ∧ posts (site w') = [oldPost; newPost]
    ∧ (postDate oldPost < postDate newPost)%Z
    ∧ ~ precedes newPost oldPost (posts (site w')).
Proof.
  eexists. split; [reflexivity|]. split; [reflexivity|]. split; [reflexivity|].
  intros (l1 & l2 & l3 & E). cbn in E.
  destruct l1 as [|x [|y l1]]; [discriminate E| |].
  - injection E as _ E. destruct l2; discriminate E.
  - injection E as _ _ E. destruct l1; discriminate E.
Qed.

(** ** The file system *)

Lemma assoc_replaceEntry c c' n ents :
  assoc c' (replaceEntry c n ents)
  = if String.eqb c' c then (fun _ => n) <$> assoc c ents else assoc c' ents.
Proof.
  induction ents as [|[c1 n1] ents IH]; cbn.
  - now destruct (String.eqb c' c).
  - destruct (String.eqb c c1) eqn:E; cbn.
    + apply String.eqb_eq in E as <-. now destruct (String.eqb c' c).
    + rewrite IH. destruct (String.eqb c' c) eqn:E'; [|reflexivity].
      apply String.eqb_eq in E' as ->. now rewrite E.
Qed.

Lemma assoc_insertEntry c c' n ents :
  assoc c ents = None ->
  assoc c' (insertEntry c n ents) = if String.eqb c' c then Some n else assoc c' ents.
Proof.
  induction ents as [|[c1 n1] ents IH]; cbn; [reflexivity|].
  destruct (String.eqb c c1) eqn:E; [discriminate|]. intros H.
  destruct (String.ltb c c1); cbn.
  - destruct (String.eqb c' c); reflexivity.
  - rewrite (IH H). destruct (String.eqb c' c) eqn:E'; [|reflexivity].
    apply String.eqb_eq in E' as ->. now rewrite E.
Qed.

Lemma assoc_setEntry c c' n ents :
  assoc c' (setEntry c n ents) = if String.eqb c' c then Some n else assoc c' ents.
Proof.
  unfold setEntry. destruct (assoc c ents) eqn:E.
  - rewrite assoc_replaceEntry, E. reflexivity.
  - now apply assoc_insertEntry.
Qed.

Lemma assoc_setEntry_eq c n ents : assoc c (setEntry c n ents) = Some n.
Proof. now rewrite assoc_setEntry, String.eqb_refl. Qed.

Lemma assoc_setEntry_ne c c' n ents :
  c' <> c -> assoc c' (setEntry c n ents) = assoc c' ents.
Proof. intros H. apply String.eqb_neq in H. now rewrite assoc_setEntry, H. Qed.

Lemma replaceEntry_replaceEntry c n1 n2 ents :
  replaceEntry c n1 (replaceEntry c n2 ents) = replaceEntry c n1 ents.
Proof.
  induction ents as [|[c' n'] ents IH]; cbn; [reflexivity|].
  destruct (String.eqb c c') eqn:E; cbn.
  - now rewrite String.eqb_refl.
  - now rewrite E, IH.
Qed.

Lemma replaceEntry_insertEntry c n1 n2 ents :
  assoc c ents = None ->
  replaceEntry c n1 (insertEntry c n2 ents) = insertEntry c n1 ents.
Proof.
  induction ents as [|[c' n'] ents IH]; cbn.
  - now rewrite String.eqb_refl.
  - destruct (String.eqb c c') eqn:E; [discriminate|]. intros H.
    destruct (String.ltb c c'); cbn.
    + now rewrite String.eqb_refl.
    + now rewrite E, IH.
Qed.

Lemma setEntry_setEntry c n1 n2 ents :
  setEntry c n1 (setEntry c n2 ents) = setEntry c n1 ents.
Proof.
  unfold setEntry at 1. rewrite assoc_setEntry_eq. unfold setEntry.
  destruct (assoc c ents) eqn:E.
  - apply replaceEntry_replaceEntry.
  - now apply replaceEntry_insertEntry.
Qed.

Lemma setEntry_same c n ents : assoc c ents = Some n -> setEntry c n ents = ents.
Proof.
  intros H. unfold setEntry. rewrite H.
  induction ents as [|[c' n'] ents IH]; cbn in *; [discriminate|].
  destruct (String.eqb c c') eqn:E.
  - apply String.eqb_eq in E as <-. now injection H as ->.
  - now rewrite IH.
Qed.

Lemma assoc_delEntry_eq c ents : assoc c (delEntry c ents) = None.
Proof.
  induction ents as [|[c' n'] ents IH]; cbn; [reflexivity|].
  destruct (String.eqb c c') eqn:E; cbn; [exact IH|now rewrite E].
Qed.

Lemma assoc_delEntry_ne c c' ents :
  c' <> c -> assoc c' (delEntry c ents) = assoc c' ents.
Proof.
  intros Hne. apply String.eqb_neq in Hne.
  induction ents as [|[c1 n1] ents IH]; cbn; [reflexivity|].
  destruct (String.eqb c c1) eqn:E; cbn.
  - apply String.eqb_eq in E as <-. now rewrite Hne.
  - destruct (String.eqb c' c1); [reflexivity|exact IH].
Qed.

Lemma lookup_app p q fs : lookup (p ++ q) fs = lookup p fs ≫= lookup q.
Proof.
  revert fs. induction p as [|c p IH]; intros fs; cbn; [reflexivity|].
  destruct fs as [d|ents]; [reflexivity|].
  destruct (assoc c ents); [apply IH|reflexivity].
Qed.

(** *** alterDir *)

Lemma lookup_alterDir f p : forall fs ents,
  lookup p fs = Some (Dir ents) ->
  lookup p (alterDir f p fs) = Some (Dir (f ents)).
Proof.
  induction p as [|c p IH]; intros fs ents; cbn.
  - intros [= ->]. reflexivity.
  - destruct fs as [d|ents']; [discriminate|].
    destruct (assoc c ents') as [n'|] eqn:E; [|discriminate].
    intros H. cbn. rewrite assoc_setEntry_eq. now apply IH.
Qed.

Lemma alterDir_absent f p : forall fs,
  (forall ents, lookup p fs <> Some (Dir ents)) -> alterDir f p fs = fs.
Proof.
  induction p as [|c p IH]; intros fs H.
  - destruct fs as [d|ents]; [reflexivity|]. now destruct (H ents).
  - destruct fs as [d|ents]; [reflexivity|]. cbn in *.
    destruct (assoc c ents) as [n'|] eqn:E; [|reflexivity].
    rewrite (IH n' H). now rewrite setEntry_same.
Qed.

Lemma alterDir_alterDir f g p : forall fs,
  alterDir f p (alterDir g p fs) = alterDir (fun e => f (g e)) p fs.
Proof.
  induction p as [|c p IH]; intros [d|ents]; cbn; try reflexivity.
  destruct (assoc c ents) as [n'|] eqn:E; cbn.
  - now rewrite assoc_setEntry_eq, IH, setEntry_setEntry.
  - now rewrite E.
Qed.

(** A path that does not pass through [p] sees no change. *)
Lemma lookup_alterDir_frame f p : forall q fs,
  ~ p `prefix_of` q -> ~ q `prefix_of` p ->
  lookup q (alterDir f p fs) = lookup q fs.
Proof.
  induction p as [|c p IH]; intros q fs Hpq Hqp.
  - destruct Hpq. apply prefix_nil.
  - destruct q as [|c' q]; [destruct Hqp; apply prefix_nil|].
    destruct fs as [d|ents]; [reflexivity|]. cbn.
    destruct (assoc c ents) as [n'|] eqn:E; [|reflexivity]. cbn.
    destruct (String.eqb c' c) eqn:Ec.
    + apply String.eqb_eq in Ec as ->. rewrite assoc_setEntry_eq, E.
      apply IH; intros Hp; [apply Hpq|apply Hqp]; now apply prefix_cons.
    + apply String.eqb_neq in Ec. now rewrite assoc_setEntry_ne.
Qed.

(** Above [p] a directory stays a directory. *)
Lemma Lstat_alterDir_above f p : forall q fs,
  q `prefix_of` p -> Lstat q (alterDir f p fs) = Lstat q fs.
Proof.
  unfold Lstat.
  induction p as [|c p IH]; intros q fs Hq.
  - apply prefix_nil_inv in Hq as ->. now destruct fs.
  - destruct q as [|c' q].
    + destruct fs as [d|ents]; [reflexivity|]. cbn. now destruct (assoc c ents).
    + apply prefix_cons_inv_1 in Hq as Hc. apply prefix_cons_inv_2 in Hq.
      subst c'. destruct fs as [d|ents]; [reflexivity|]. cbn.
      destruct (assoc c ents) as [n'|] eqn:E; cbn; [|now rewrite E].
      rewrite assoc_setEntry_eq. now apply IH.
Qed.

(** *** MkdirAll *)

Lemma MkdirAll_lookup p : forall fs fs',
  MkdirAll p fs = Some fs' -> ∃ ents, lookup p fs' = Some (Dir ents).
Proof.
  induction p as [|c p IH]; intros [d|ents] fs'; cbn; try discriminate.
  - intros [= <-]. eauto.
  - destruct (MkdirAll p _) as [n'|] eqn:E; [|discriminate].
    intros [= <-]. cbn. rewrite assoc_setEntry_eq. eapply IH, E.
Qed.

Lemma MkdirAll_exists p : forall fs ents,
  lookup p fs = Some (Dir ents) -> MkdirAll p fs = Some fs.
Proof.
  induction p as [|c p IH]; intros [d|ents'] ents; cbn; try discriminate.
  - reflexivity.
  - destruct (assoc c ents') as [n'|] eqn:E; [|discriminate].
    intros H. cbn. rewrite (IH _ _ H). now rewrite setEntry_same.
Qed.

Lemma lookup_nil_Dir q : lookup q (Dir []) = match q with [] => Some (Dir []) | _ => None end.
Proof. now destruct q. Qed.

Lemma lookup_MkdirAll_frame p : forall q fs fs',
  MkdirAll p fs = Some fs' -> ~ q `prefix_of` p -> lookup q fs' = lookup q fs.
Proof.
  induction p as [|c p IH]; intros q [d|ents] fs'; cbn; try discriminate.
  - now intros [= <-].
  - destruct (MkdirAll p _) as [n'|] eqn:E; [|discriminate].
    intros [= <-] Hq.
    destruct q as [|c' q]; [destruct Hq; apply prefix_nil|]. cbn.
    rewrite assoc_setEntry. destruct (String.eqb c' c) eqn:Ec; [|reflexivity].
    apply String.eqb_eq in Ec as ->.
    assert (Hq' : ~ q `prefix_of` p) by (intros Hp; apply Hq; now apply prefix_cons).
    rewrite (IH _ _ _ E Hq').
    destruct (assoc c ents); [reflexivity|]. cbn. rewrite lookup_nil_Dir.
    destruct q; [destruct Hq'; apply prefix_nil|reflexivity].
Qed.

Lemma Lstat_MkdirAll_above p : forall q fs fs',
  MkdirAll p fs = Some fs' -> q `prefix_of` p -> Lstat q fs' = IsDir.
Proof.
  unfold Lstat.
  induction p as [|c p IH]; intros q [d|ents] fs'; cbn; try discriminate.
  - intros [= <-] Hq. apply prefix_nil_inv in Hq as ->. reflexivity.
  - destruct (MkdirAll p _) as [n'|] eqn:E; [|discriminate].
    intros [= <-] Hq. destruct q as [|c' q]; [reflexivity|].
    apply prefix_cons_inv_1 in Hq as Hc. apply prefix_cons_inv_2 in Hq. subst c'.
    cbn. rewrite assoc_setEntry_eq. eapply IH; eauto.
Qed.

(** *** WriteFile *)

Lemma WriteFile_lookup p data : forall fs fs',
  WriteFile p data fs = Some fs' -> lookup p fs' = Some (File data).
Proof.
  induction p as [|c p IH]; intros [d|ents] fs'; cbn; try discriminate.
  - now intros [= <-].
  - destruct (assoc c ents) as [n'|] eqn:E.
    + destruct (WriteFile p data n') as [n''|] eqn:W; [|discriminate].
      intros [= <-]. cbn. rewrite assoc_setEntry_eq. eapply IH, W.
    + destruct p; [|discriminate]. intros [= <-]. cbn.
      now rewrite assoc_setEntry_eq.
Qed.

Lemma lookup_WriteFile_frame p data : forall q fs fs',
  WriteFile p data fs = Some fs' -> ~ q `prefix_of` p -> lookup q fs' = lookup q fs.
Proof.
  induction p as [|c p IH]; intros q [d|ents] fs'; cbn; try discriminate.
  - intros [= <-] Hq. destruct q; [destruct Hq; apply prefix_nil|reflexivity].
  - destruct q as [|c' q]; [intros _ Hq; destruct Hq; apply prefix_nil|].
    destruct (assoc c ents) as [n'|] eqn:E.
    + destruct (WriteFile p data n') as [n''|] eqn:W; [|discriminate].
      intros [= <-] Hq. cbn. rewrite assoc_setEntry.
      destruct (String.eqb c' c) eqn:Ec; [|reflexivity].
      apply String.eqb_eq in Ec as ->. rewrite E. eapply IH; [exact W|].
      intros Hp. apply Hq. now apply prefix_cons.
    + destruct p; [|discriminate]. intros [= <-] Hq. cbn. rewrite assoc_setEntry.
      destruct (String.eqb c' c) eqn:Ec; [|reflexivity].
      apply String.eqb_eq in Ec as ->. rewrite E.
      destruct q; [destruct Hq; reflexivity|reflexivity].
Qed.

Lemma Lstat_WriteFile_above p data : forall q fs fs',
  WriteFile p data fs = Some fs' -> q `prefix_of` p -> q <> p ->
  Lstat q fs = IsDir ∧ Lstat q fs' = IsDir.
Proof.
  unfold Lstat.
  induction p as [|c p IH]; intros q [d|ents] fs'; cbn; try discriminate.
  - intros _ Hq Hne. apply prefix_nil_inv in Hq. congruence.
  - intros H Hq Hne. destruct q as [|c' q].
    + cbn. destruct (assoc c ents) as [n'|].
      * destruct (WriteFile p data n'); [|discriminate]. now injection H as <-.
      * destruct p; [|discriminate]. now injection H as <-.
    + apply prefix_cons_inv_1 in Hq as Hc. apply prefix_cons_inv_2 in Hq. subst c'.
      assert (Hne' : q <> p) by congruence. cbn.
      destruct (assoc c ents) as [n'|] eqn:E.
      * destruct (WriteFile p data n') as [n''|] eqn:W; [|discriminate].
        injection H as <-. cbn. rewrite assoc_setEntry_eq. eapply IH; eauto.
      * destruct p; [|discriminate]. apply prefix_nil_inv in Hq. congruence.
Qed.

(** *** unlink *)

Lemma unlink_snoc p c fs : unlink (p ++ [c]) fs = alterDir (delEntry c) p fs.
Proof.
  unfold unlink. destruct (p ++ [c]) eqn:E; [now destruct p|].
  rewrite <- E, last_last, removelast_last. reflexivity.
Qed.

Lemma lookup_unlink p c q : forall fs,
  lookup (p ++ c :: q) (unlink (p ++ [c]) fs) = None.
Proof.
  intros fs. rewrite unlink_snoc, lookup_app.
  destruct (lookup p fs) as [[d|ents]|] eqn:E.
  - rewrite alterDir_absent by congruence. now rewrite E.
  - rewrite (lookup_alterDir _ _ _ _ E). cbn. now rewrite assoc_delEntry_eq.
  - rewrite alterDir_absent by congruence. now rewrite E.
Qed.

Lemma alterDir_id p : forall fs ents,
  lookup p fs = Some (Dir ents) -> alterDir (fun _ => ents) p fs = fs.
Proof.
  induction p as [|c p IH]; intros [d|ents'] ents; cbn; try discriminate.
  - now intros [= ->].
  - destruct (assoc c ents') as [n'|] eqn:E; [|discriminate].
    intros H. rewrite (IH _ _ H). now rewrite setEntry_same.
Qed.

Lemma assoc_app c l1 l2 :
  assoc c (l1 ++ l2) = match assoc c l1 with Some n => Some n | None => assoc c l2 end.
Proof.
  induction l1 as [|[c' n'] l1 IH]; cbn; [reflexivity|].
  destruct (String.eqb c c'); [reflexivity|exact IH].
Qed.

Lemma assoc_None c l : assoc c l = None <-> ~ In c (map fst l).
Proof.
  induction l as [|[c' n'] l IH]; cbn; [tauto|].
  destruct (String.eqb c c') eqn:E.
  - apply String.eqb_eq in E as ->. split; [discriminate|]. intros H. destruct H. now left.
  - apply String.eqb_neq in E. rewrite IH. split; [intros H [?|?]; [congruence|tauto]|tauto].
Qed.

Lemma delEntry_absent c l : assoc c l = None -> delEntry c l = l.
Proof.
  induction l as [|[c' n'] l IH]; cbn; [reflexivity|].
  destruct (String.eqb c c'); [discriminate|]. intros H. now rewrite IH.
Qed.

Lemma delEntry_app c l1 l2 : delEntry c (l1 ++ l2) = delEntry c l1 ++ delEntry c l2.
Proof.
  induction l1 as [|[c' n'] l1 IH]; cbn; [reflexivity|].
  destruct (String.eqb c c'); [exact IH|]. cbn. now rewrite IH.
Qed.

Lemma setFs_fs `{Ext : Externals} (w : World) : setFs (fs w) w = w.
Proof. now destruct w. Qed.

Lemma setFs_setFs `{Ext : Externals} t t' (w : World) : setFs t (setFs t' w) = setFs t w.
Proof. reflexivity. Qed.

(** ** The destination sync *)

Section Prep.
Context `{Ext : Externals}.

Lemma assoc_kept s c ents :
  assoc c (kept s ents) = if matchIgnore s c then assoc c ents else None.
Proof.
  unfold kept. induction ents as [|[c' n'] ents IH]; cbn.
  - now destruct (matchIgnore s c).
  - destruct (matchIgnore s c') eqn:M; cbn.
    + destruct (String.eqb c c') eqn:E; [|exact IH].
      apply String.eqb_eq in E as ->. now rewrite M.
    + rewrite IH. destruct (String.eqb c c') eqn:E; [|reflexivity].
      apply String.eqb_eq in E as ->. now rewrite M.
Qed.

Section Walk.
Variable s : Site.
Variable fs0 : node.
Variable ents0 : list (string * node).
Hypothesis Hdest : lookup (Dest s) fs0 = Some (Dir ents0).

Lemma lookup_child L c :
  lookup (Dest s ++ [c]) (alterDir (fun _ => L) (Dest s) fs0) = assoc c L.
Proof.
  rewrite lookup_app, (lookup_alterDir _ _ _ _ Hdest). cbn.
  now destruct (assoc c L).
Qed.

Lemma RemoveAll_child L c :
  RemoveAll (Dest s ++ [c]) (alterDir (fun _ => L) (Dest s) fs0)
  = alterDir (fun _ => delEntry c L) (Dest s) fs0.
Proof. unfold RemoveAll. now rewrite unlink_snoc, alterDir_alterDir. Qed.

(** The visit of one entry of the destination root: it stays when its
    name matches, and goes with all below it when it does not. *)
Lemma walk_prep_child L c n' w :
  fs w = alterDir (fun _ => L) (Dest s) fs0 ->
  assoc c L = Some n' ->
  walk (prepGone s) (prepWalker s) [c] n' w
  = Done (None, setFs (alterDir (fun _ => if matchIgnore s c then L else delEntry c L)
                         (Dest s) fs0) w).
Proof.
  intros Hfs Hc.
  assert (Hrel : relString [c] = c) by reflexivity.
  destruct (matchIgnore s c) eqn:M.
  - rewrite <- Hfs, setFs_fs.
    destruct n' as [d|ents']; cbn [walk isDirNode];
      unfold bind at 1, prepWalker; rewrite Hrel, M; reflexivity.
  - destruct n' as [d|ents']; cbn [walk isDirNode]; unfold bind at 1, prepWalker;
      rewrite Hrel, M; unfold IsDirOf, bind at 1, ret at 1.
    + unfold sysCall, Remove. cbn [app].
      destruct (Dest s ++ [c]) eqn:E; [now destruct (Dest s)|]. rewrite <- E.
      rewrite Hfs, lookup_child, Hc.
      change (unlink (Dest s ++ [c])) with (RemoveAll (Dest s ++ [c])).
      now rewrite RemoveAll_child.
    + unfold bind at 1, modify at 1. unfold ret at 1.
      unfold bind at 1, gets at 1. unfold prepGone at 1, Lstat, setFs. cbn [fs site].
      rewrite Hfs, RemoveAll_child, lookup_child, assoc_delEntry_eq.
      unfold IsDirOf, bind, ret, modify, setFs.
      cbn [fs site]. rewrite RemoveAll_child.
      now rewrite (delEntry_absent c (delEntry c L)) by apply assoc_delEntry_eq.
Qed.

Lemma walkNames_prep rest : forall pre w,
  fs w = alterDir (fun _ => pre ++ rest) (Dest s) fs0 ->
  (forall c, In c (map fst rest) -> assoc c pre = None) ->
  NoDup (map fst rest) ->
  walkNames (prepGone s) (prepWalker s) (walk (prepGone s) (prepWalker s)) [] rest w
  = Done (None, setFs (alterDir (fun _ => pre ++ kept s rest) (Dest s) fs0) w).
Proof.
  induction rest as [|[c n'] rest IH]; intros pre w Hfs Hpre Hnd.
  - rewrite walkNames_nil. unfold ret, kept. cbn [List.filter].
    now rewrite <- Hfs, setFs_fs.
  - rewrite walkNames_cons. cbn [map fst] in *.
    assert (Hc : assoc c (pre ++ (c, n') :: rest) = Some n').
    { rewrite assoc_app, (Hpre c) by now left. cbn. now rewrite String.eqb_refl. }
    apply NoDup_cons in Hnd as [Hnotin Hnd].
    unfold bind at 1, gets at 1, prepGone at 1, Lstat.
    cbn [app]. rewrite Hfs, lookup_child, Hc.
    replace (match match n' with File d => IsFile d | Dir _ => IsDir end with
             | Absent => true | _ => false end) with false by now destruct n'.
    unfold bind at 1 2. rewrite (walk_prep_child _ _ _ _ Hfs Hc).
    unfold ret at 1.
    unfold kept. cbn [List.filter fst]. fold (kept s rest).
    destruct (matchIgnore s c) eqn:M.
    + rewrite (IH (pre ++ [(c, n')])).
      * rewrite setFs_setFs, <- app_assoc. reflexivity.
      * cbn [fs setFs]. now rewrite <- app_assoc.
      * intros c' Hc'. rewrite assoc_app, (Hpre c') by now right. cbn.
        destruct (String.eqb c' c) eqn:E; [|reflexivity].
        apply String.eqb_eq in E as ->.
        destruct Hnotin. now apply list_elem_of_In.
      * exact Hnd.
    + rewrite (IH pre).
      * now rewrite setFs_setFs.
      * cbn [fs setFs]. rewrite delEntry_app, (delEntry_absent c pre) by (apply Hpre; now left).
        cbn [delEntry]. rewrite String.eqb_refl.
        rewrite delEntry_absent; [reflexivity|].
        apply assoc_None. intros Hin. apply Hnotin. now apply list_elem_of_In.
      * intros c' Hc'. apply Hpre. now right.
      * exact Hnd.
Qed.

End Walk.

(** [prep] with an ignore list: no error when the destination root can
    be made, and of the entries of the root those are left whose name
    begins with an ignore prefix, with all below them. *)
Lemma prep_ignore_made w ig t0 ents :
  ignore (site w) = Some ig ->
  MkdirAll (Dest (site w)) (fs w) = Some t0 ->
  lookup (Dest (site w)) t0 = Some (Dir ents) ->
  NoDup (map fst ents) ->
  prep w = Done (None, setFs (alterDir (fun _ => kept (site w) ents)
                                (Dest (site w)) t0) w).
Proof.
  intros Hig Hmk Hdest Hnd. unfold prep.
  unfold bind at 1, gets at 1. unfold orReturn at 1, bind at 1, sysCall.
  rewrite Hmk, Hig.
  unfold orReturn, bind at 1. cbn [fs setFs]. rewrite Hdest. unfold Walk.
  cbn [walk isDirNode]. unfold bind at 1. unfold prepWalker at 1. unfold ret at 1.
  unfold bind at 1, gets at 1, prepGone at 1, Lstat. cbn [fs setFs site].
  rewrite app_nil_r, Hdest.
  rewrite (walkNames_prep (site w) t0 ents Hdest ents [] (setFs t0 w)).
  - reflexivity.
  - cbn [app fs setFs]. symmetry. now apply alterDir_id.
  - reflexivity.
  - exact Hnd.
Qed.

Lemma prep_ignore w ig ents :
  ignore (site w) = Some ig ->
  lookup (Dest (site w)) (fs w) = Some (Dir ents) ->
  NoDup (map fst ents) ->
  prep w = Done (None, setFs (alterDir (fun _ => kept (site w) ents)
                                (Dest (site w)) (fs w)) w).
Proof.
  intros Hig Hdest Hnd.
  apply (prep_ignore_made w ig (fs w) ents Hig); [|exact Hdest|exact Hnd].
  eapply MkdirAll_exists, Hdest.
Qed.

Lemma prefix_app p : forall c x,
  String.prefix p c = true -> String.prefix p (c +:+ x) = true.
Proof.
  induction p as [|a p IH]; intros c x; [now destruct (c +:+ x)|].
  destruct c as [|b c]; simpl; [discriminate|].
  destruct (ascii_dec a b); [apply IH|discriminate].
Qed.

Lemma prefix_noSlash p : forall c r,
  noSlash p = true -> String.prefix p (c +:+ String "/" r) = true ->
  String.prefix p c = true.
Proof.
  induction p as [|a p IH]; intros c r Hp; [now destruct c|].
  cbn in Hp. apply andb_true_iff in Hp as [Ha Hp].
  destruct c as [|b c]; simpl.
  - destruct (ascii_dec a "/") as [->|]; [discriminate Ha|discriminate].
  - destruct (ascii_dec a b); [now apply IH|discriminate].
Qed.

Lemma relString_cons c rest :
  relString (c :: rest)
  = match rest with [] => c | _ :: _ => c +:+ String "/" (relString rest) end.
Proof. now destruct rest. Qed.

Lemma anyPrefix_In x p ig : In p ig -> HasPrefix x p = true -> anyPrefix x ig = true.
Proof.
  induction ig as [|p' ig IH]; cbn; [tauto|].
  intros [->|Hin] Hp; [now rewrite Hp|].
  destruct (HasPrefix x p'); [reflexivity|now apply IH].
Qed.

Lemma anyPrefix_app x y ig : anyPrefix x ig = true -> anyPrefix (x +:+ y) ig = true.
Proof.
  induction ig as [|p ig IH]; cbn; [discriminate|].
  unfold HasPrefix. destruct (String.prefix p x) eqn:E.
  - now rewrite (prefix_app _ _ y E).
  - intros H. rewrite (IH H). now destruct (String.prefix p (x +:+ y)).
Qed.

(** A path that matches has an entry of the root above it that matches,
    when the prefix it matches has no separator; a path below an entry
    of the root that matches, matches. *)
Lemma matchIgnore_top s c rest :
  matchIgnore s c = true -> matchIgnore s (relString (c :: rest)) = true.
Proof.
  rewrite relString_cons. destruct rest; [trivial|]. apply anyPrefix_app.
Qed.

(** What [prep] leaves of the tree, with an ignore list. *)
Lemma prep_ignore_lookup w ig ents :
  ignore (site w) = Some ig ->
  lookup (Dest (site w)) (fs w) = Some (Dir ents) ->
  NoDup (map fst ents) ->
  ∃ w', prep w = Done (None, w')
        ∧ site w' = site w
        ∧ (forall c rest,
             lookup (Dest (site w) ++ c :: rest) (fs w')
             = if matchIgnore (site w) c
               then lookup (Dest (site w) ++ c :: rest) (fs w) else None)
        ∧ (forall q, ~ Dest (site w) `prefix_of` q ∨ q = Dest (site w) ->
             Lstat q (fs w') = Lstat q (fs w)).
Proof.
  intros Hig Hdest Hnd. eexists. split; [now apply (prep_ignore w ig ents)|].
  split; [reflexivity|]. cbn [fs setFs]. split.
  - intros c rest.
    rewrite !lookup_app, Hdest, (lookup_alterDir _ _ _ _ Hdest). cbn.
    rewrite assoc_kept. now destruct (matchIgnore (site w) c).
  - intros q Hq.
    destruct (decide (q `prefix_of` Dest (site w))) as [Hpre|Hpre].
    + now apply Lstat_alterDir_above.
    + destruct Hq as [Hq| ->]; [|now destruct Hpre].
      unfold Lstat. now rewrite lookup_alterDir_frame.
Qed.

(** What [prep] does protect.  Matching is by characters: an ignore
    entry [p] without a path separator protects every entry of the
    destination whose path below the root begins with [p], such as
    [.gitfoo] under [.git]; [prep] leaves it as it was. *)
Theorem prep_prefix_protected w ig ents :
  ignore (site w) = Some ig ->
  lookup (Dest (site w)) (fs w) = Some (Dir ents) ->
  NoDup (map fst ents) ->
  ∃ w', prep w = Done (None, w')
        ∧ forall p rel,
            In p ig -> noSlash p = true -> rel <> [] ->
            HasPrefix (relString rel) p = true ->
            matchIgnore (site w) (relString rel) = true
            ∧ lookup (Dest (site w) ++ rel) (fs w')
              = lookup (Dest (site w) ++ rel) (fs w).
Proof.
  intros Hig Hdest Hnd.
  destruct (prep_ignore_lookup w ig ents Hig Hdest Hnd) as (w' & Hprep & _ & Hin & _).
  exists w'. split; [exact Hprep|].
  intros p [|c rest] Hp Hns Hrel Hpre; [congruence|].
  assert (Hc : matchIgnore (site w) c = true).
  { unfold matchIgnore. rewrite Hig. cbn. apply (anyPrefix_In _ p); [exact Hp|].
    unfold HasPrefix in *. rewrite relString_cons in Hpre.
    destruct rest; [exact Hpre|]. now apply prefix_noSlash in Hpre. }
  split; [now apply matchIgnore_top|]. now rewrite Hin, Hc.
Qed.

(** C9, on the code.  [matchIgnore] matches the path of an entry below
    the destination root, by characters, and the entry of the root
    above it matches no ignore prefix: the walker removes that entry of
    the root with all below it before the walk comes to the path.
    [prep] returns no error and nothing is left at the path, which
    [matchIgnore] calls protected. *)
Theorem prep_removes_matched w ig ents c rest :
  ignore (site w) = Some ig ->
  lookup (Dest (site w)) (fs w) = Some (Dir ents) ->
  NoDup (map fst ents) ->
  matchIgnore (site w) (relString (c :: rest)) = true ->
  matchIgnore (site w) c = false ->
  ∃ w', prep w = Done (None, w')
        ∧ lookup (Dest (site w) ++ c :: rest) (fs w') = None.
Proof.
  intros Hig Hdest Hnd _ Hc.
  destruct (prep_ignore_lookup w ig ents Hig Hdest Hnd) as (w' & Hprep & _ & Hin & _).
  exists w'. split; [exact Hprep|]. now rewrite Hin, Hc.
Qed.

(** C4, on the code.  Without an ignore list [prep] makes the
    destination root and then removes it with all below it: when [prep]
    returns without an error, nothing is at the path of the destination
    root nor below it. *)
Theorem prep_nil_ignore w w' :
  ignore (site w) = None ->
  Dest (site w) <> [] ->
  prep w = Done (None, w') ->
  forall q, Lstat (Dest (site w) ++ q) (fs w') = Absent.
Proof.
  intros Hig Hne. unfold prep.
  unfold bind at 1, gets at 1. unfold orReturn at 1, bind at 1, sysCall.
  destruct (MkdirAll _ (fs w)) as [t|]; [|discriminate].
  rewrite Hig. unfold bind, modify, ret. intros [= <-] q. cbn [fs setFs].
  destruct (exists_last Hne) as (p & c & ->).
  unfold RemoveAll, Lstat. rewrite <- app_assoc. cbn [app].
  now rewrite lookup_unlink.
Qed.

End Prep.

Lemma prep_nil_ignore_witness :
  Lstat (Dest (site worldStale) ++ []) (Dir [("src", Dir [])]) = Absent.
Proof.
  apply (prep_nil_ignore worldStale (mkWorld siteNoIgnore (Dir [("src", Dir [])])));
    [reflexivity|discriminate|reflexivity].
Defined.

(** The site has no content: [Generate] fails on the feed, whose
    directory [prep] has removed. *)
Example Generate_empty_site_fails :
  Generate 9 worldStale
  = Done (Some (Err "open"), mkWorld siteNoIgnore (Dir [("src", Dir [])])).
Proof. reflexivity. Qed.

Lemma prep_prefix_protected_witness :
  ∃ w', prep worldGit = Done (None, w')
        ∧ matchIgnore (site worldGit) (relString [".gitfoo"]) = true
        ∧ lookup (Dest (site worldGit) ++ [".gitfoo"]) (fs w')
          = lookup (Dest (site worldGit) ++ [".gitfoo"]) (fs worldGit).
Proof.
  assert (Hnd : NoDup (map fst [(".git", Dir [("config", File "[core]")]);
                                (".gitfoo", File "foo");
                                ("stale.html", File "old")])).
  { repeat constructor; rewrite ?elem_of_cons, ?elem_of_nil; intuition discriminate. }
  destruct (prep_prefix_protected worldGit [".git"] _ eq_refl eq_refl Hnd)
    as (w' & Hprep & Hkeep).
  exists w'. split; [exact Hprep|].
  apply (Hkeep ".git" [".gitfoo"]); [now left|reflexivity|discriminate|reflexivity].
Defined.

(** The example of the claim: under the ignore entry [.git] the file
    [.gitfoo] stays, as the repository does; the stale page goes. *)
Example prep_keeps_gitfoo :
  prep worldGit
  = Done (None,
          mkWorld siteGit
            (Dir [("site", Dir [(".git", Dir [("config", File "[core]")]);
                                (".gitfoo", File "foo")]);
                  ("src", Dir [])])).
Proof. reflexivity. Qed.

Lemma prep_removes_matched_witness :
  ∃ w', prep worldDeep = Done (None, w')
        ∧ lookup (Dest (site worldDeep) ++ ["a"; "bc"]) (fs w') = None.
Proof.
  assert (Hnd : NoDup (map fst [("a", Dir [("b", File "kept?"); ("bc", File "kept?")])])).
  { repeat constructor; rewrite ?elem_of_cons, ?elem_of_nil; intuition discriminate. }
  apply (prep_removes_matched worldDeep ["a/b"] _ "a" ["bc"] eq_refl eq_refl Hnd);
    reflexivity.
Defined.

(** The failing input of C9, an ignore entry that reaches
    below an entry of the destination root: the path [a/bc] begins with
    the ignore entry [a/b], and [prep] removes it with the directory
    [a], whose own path matches nothing. *)
Lemma prefix_match_not_preserved :
  HasPrefix (relString ["a"; "bc"]) "a/b" = true
  ∧ matchIgnore siteDeep (relString ["a"; "bc"]) = true
  ∧ Lstat ["site"; "a"; "bc"] (fs worldDeep) = IsFile "kept?"
  ∧ prep worldDeep
    = Done (None, mkWorld siteDeep (Dir [("site", Dir []); ("src", Dir [])]))
  ∧ Lstat ["site"; "a"; "bc"] (Dir [("site", Dir []); ("src", Dir [])]) = Absent.
Proof. repeat split. Qed.

(** ** The rendering pass and the tree *)

Section Frame.
Context `{Ext : Externals}.

Lemma sameContent_refl s : sameContent s s.
Proof. repeat split. Qed.

Lemma keeps_refl w q : keeps w q w.
Proof. split; [apply sameContent_refl|reflexivity]. Qed.

Lemma keeps_MkdirAll w0 q w d (Q : result unit -> World -> Prop) :
  keeps w0 q w -> ~ q `prefix_of` d ->
  (forall r w', keeps w0 q w' -> Q r w') ->
  returns (sysCallR (MkdirAll d) "mkdir") w Q.
Proof.
  intros [Hs Hq] Hd HQ. apply returns_sysCallR.
  - intros t Ht. apply HQ. split; [exact Hs|]. cbn.
    now rewrite (lookup_MkdirAll_frame _ _ _ _ Ht Hd).
  - intros _. apply HQ. now split.
Qed.

Lemma keeps_WriteFile w0 q w f data (Q : result unit -> World -> Prop) :
  keeps w0 q w -> ~ q `prefix_of` f ->
  (forall r w', keeps w0 q w' -> Q r w') ->
  returns (sysCallR (WriteFile f data) "open") w Q.
Proof.
  intros [Hs Hq] Hd HQ. apply returns_sysCallR.
  - intros t Ht. apply HQ. split; [exact Hs|]. cbn.
    now rewrite (lookup_WriteFile_frame _ _ _ _ _ Ht Hd).
  - intros _. apply HQ. now split.
Qed.

Lemma keeps_expandBody w0 q w page url (Q : result string -> World -> Prop) :
  keeps w0 q w ->
  (forall r w', keeps w0 q w' -> Q r w') ->
  returns (expandBody page url) w Q.
Proof.
  intros Hk HQ. unfold expandBody. apply returns_bind, returns_gets.
  destruct (isMarkdown _); [now apply returns_ret, HQ|].
  destruct (templ (site w)) as [ts|]; [|now apply returns_ret, HQ].
  destruct (NewParse ts url _) as [ts'|msg]; [|now apply returns_ret, HQ].
  apply returns_bind, returns_modify.
  assert (Hk' : keeps w0 q (onSite (setTempl (Some ts')) w)) by exact Hk.
  destruct (ExecuteTemplate ts' url _) as [out [msg|]]; now apply returns_ret, HQ.
Qed.

Lemma keeps_applyLayout w0 q w page content (Q : string -> World -> Prop) :
  keeps w0 q w ->
  (forall r w', keeps w0 q w' -> Q r w') ->
  returns (applyLayout page content) w Q.
Proof.
  intros Hk HQ. unfold applyLayout. apply returns_bind, returns_gets.
  destruct (_ || _); [now apply returns_ret, HQ|].
  destruct (templ (site w)); [now apply returns_ret, HQ|apply returns_panic].
Qed.

Lemma keeps_writePage w0 q w page feed :
  keeps w0 q w ->
  (forall o, In o (pageOutputs (site w0) page) -> ~ q `prefix_of` o) ->
  returns (writePage page feed) w (fun _ w' => keeps w0 q w').
Proof.
  intros Hk Ho. unfold writePage.
  assert (HD : Dest (site w) = Dest (site w0)) by apply Hk.
  apply returns_bind, returns_gets. rewrite HD.
  apply returns_bindR, (keeps_MkdirAll w0 q); [exact Hk|apply Ho; now left|].
  intros [[]|msg] w1 Hk1; [|exact Hk1].
  apply returns_bindR, (keeps_expandBody w0 q); [exact Hk1|].
  intros [content|msg] w2 Hk2; [|exact Hk2].
  apply returns_bind, (keeps_applyLayout w0 q); [exact Hk2|].
  intros out w3 Hk3.
  apply returns_bindR, (keeps_WriteFile w0 q); [exact Hk3|apply Ho; right; now left|].
  intros [[]|msg] w4 Hk4; [|exact Hk4].
  apply returns_bind, returns_postTimeOf. intros pt.
  destruct (IsZero pt); exact Hk4.
Qed.

Lemma keeps_writeEach w0 q l : forall w feed,
  keeps w0 q w ->
  (forall o, In o (flat_map (pageOutputs (site w0)) l) -> ~ q `prefix_of` o) ->
  returns (writeEach l feed) w (fun _ w' => keeps w0 q w').
Proof.
  induction l as [|page l IH]; intros w feed Hk Ho; cbn [writeEach].
  - exact Hk.
  - cbn [flat_map] in Ho.
    apply returns_bindR.
    eapply returns_mono;
      [apply (keeps_writePage w0 q); [exact Hk|intros o Hin; apply Ho, in_or_app; now left]|].
    intros [feed'|msg] w1 Hk1; [|exact Hk1].
    apply IH; [exact Hk1|]. intros o Hin. apply Ho, in_or_app. now right.
Qed.

Lemma keeps_writePages w0 q w now :
  keeps w0 q w ->
  (forall o, In o (flat_map (pageOutputs (site w0)) (pages (site w0) ++ posts (site w0)))
             -> ~ q `prefix_of` o) ->
  ~ q `prefix_of` Join (Dest (site w0)) feedPath ->
  returns (writePages now) w (fun _ w' => keeps w0 q w').
Proof.
  intros Hk Ho Hf. unfold writePages, renderAll.
  destruct Hk as [Hs Hq]. pose proof (conj Hs Hq : keeps w0 q w) as Hk.
  destruct Hs as (_ & HD & _ & Hposts & Hpages & _).
  apply returns_bind, returns_bind, returns_newFeed. intros feed0 _ _.
  apply returns_bind, returns_gets. rewrite Hposts, Hpages.
  eapply returns_mono; [apply (keeps_writeEach w0 q); [exact Hk|exact Ho]|].
  intros r w1 Hk1. apply returns_bind, returns_gets.
  destruct r as [feed|msg]; [|exact Hk1].
  destruct (ToAtom feed) as [atom|msg]; [|exact Hk1].
  assert (HD1 : Dest (site w1) = Dest (site w0)) by apply Hk1. rewrite HD1.
  apply returns_orReturn, returns_sysCall.
  - intros t Ht. destruct Hk1 as [Hs1 Hq1]. split; [exact Hs1|]. cbn.
    now rewrite (lookup_WriteFile_frame _ _ _ _ _ Ht Hf).
  - intros _. exact Hk1.
Qed.

Lemma keeps_copyTo w0 q w from to :
  keeps w0 q w -> ~ q `prefix_of` removelast to -> ~ q `prefix_of` to ->
  returns (copyTo from to) w (fun _ w' => keeps w0 q w').
Proof.
  intros Hk H1 H2. unfold copyTo. apply returns_bind, returns_gets.
  destruct (ReadFile from (fs w)) as [data|]; [|exact Hk].
  apply returns_orReturn, returns_sysCall.
  - intros t Ht. apply returns_sysCall.
    + intros t' Ht'. destruct Hk as [Hs Hq]. split; [exact Hs|]. cbn in *.
      now rewrite (lookup_WriteFile_frame _ _ _ _ _ Ht' H2),
                  (lookup_MkdirAll_frame _ _ _ _ Ht H1).
    + intros _. destruct Hk as [Hs Hq]. split; [exact Hs|]. cbn.
      now rewrite (lookup_MkdirAll_frame _ _ _ _ Ht H1).
  - intros _. exact Hk.
Qed.

Lemma keeps_copyEach w0 q l : forall w,
  keeps w0 q w ->
  (forall o, In o (flat_map (staticOutputs (site w0)) l) -> ~ q `prefix_of` o) ->
  returns (copyEach (site w0) l) w (fun _ w' => keeps w0 q w').
Proof.
  induction l as [|file l IH]; intros w Hk Ho; cbn [copyEach].
  - exact Hk.
  - cbn [flat_map] in Ho. apply returns_orReturn.
    eapply returns_mono; [apply (keeps_copyTo w0 q); [exact Hk| |]|].
    + apply Ho, in_or_app. left. now left.
    + apply Ho, in_or_app. left. right. now left.
    + intros [e|] w1 Hk1; [exact Hk1|].
      apply IH; [exact Hk1|]. intros o Hin. apply Ho, in_or_app. now right.
Qed.

Lemma copyEach_ext s s' l :
  Src s' = Src s -> Dest s' = Dest s -> copyEach s' l = copyEach s l.
Proof.
  intros HS HD. induction l as [|file l IH]; cbn [copyEach]; [reflexivity|].
  now rewrite HS, HD, IH.
Qed.

Lemma keeps_writeStatic w0 q w :
  keeps w0 q w ->
  (forall o, In o (flat_map (staticOutputs (site w0)) (files (site w0)))
             -> ~ q `prefix_of` o) ->
  returns writeStatic w (fun _ w' => keeps w0 q w').
Proof.
  intros Hk Ho. unfold writeStatic. apply returns_bind, returns_gets.
  destruct Hk as [Hs Hq]. pose proof (conj Hs Hq : keeps w0 q w) as Hk.
  destruct Hs as (HS & HD & _ & _ & _ & Hfiles & _).
  rewrite (copyEach_ext (site w0) (site w) _ HS HD), Hfiles.
  now apply keeps_copyEach.
Qed.

(** The rendering pass after [prep]: a path that is not rewritten is as
    [prep] left it. *)
Lemma render_keeps now w1 w' q :
  (check! writePages now in check! writeStatic in ret None) w1 = Done (None, w') ->
  ~ rewritten (site w1) q ->
  lookup q (fs w') = lookup q (fs w1).
Proof.
  intros H Hq.
  assert (Ho : forall o, In o (outputs (site w1)) -> ~ q `prefix_of` o).
  { intros o Hin Hpre. apply Hq. now exists o. }
  unfold outputs in Ho.
  assert (R : returns (check! writePages now in check! writeStatic in ret None) w1
                (fun _ w' => keeps w1 q w')).
  { apply returns_orReturn.
    eapply returns_mono; [apply (keeps_writePages w1 q)|].
    - apply keeps_refl.
    - intros o Hin. apply Ho, in_or_app. now left.
    - apply Ho, in_or_app. right. now left.
    - intros [e|] w2 Hk2; [exact Hk2|].
      apply returns_orReturn.
      eapply returns_mono; [apply (keeps_writeStatic w1 q); [exact Hk2|]|].
      + intros o Hin. apply Ho, in_or_app. right. now right.
      + intros [e|] w3 Hk3; exact Hk3. }
  exact (proj2 (returns_elim _ _ _ _ _ R H)).
Qed.

(** What [Generate] leaves of the destination.  [Generate] with an
    ignore list, on a destination that is there.  Take a path below the destination root
    that the rendering pass does not rewrite.  It is after [Generate] as
    it was before when the entry of the root at or above it has a name
    that matches an ignore prefix, and it is absent otherwise.  So a
    path that matches no prefix is absent, and a path that matches a
    prefix without separator is as it was. *)
Theorem Generate_protects now w w' ig ents :
  ignore (site w) = Some ig ->
  lookup (Dest (site w)) (fs w) = Some (Dir ents) ->
  NoDup (map fst ents) ->
  Generate now w = Done (None, w') ->
  forall c rest,
    ~ rewritten (site w) (Dest (site w) ++ c :: rest) ->
    lookup (Dest (site w) ++ c :: rest) (fs w')
    = (if matchIgnore (site w) c
       then lookup (Dest (site w) ++ c :: rest) (fs w) else None)
    ∧ (matchIgnore (site w) (relString (c :: rest)) = false ->
       lookup (Dest (site w) ++ c :: rest) (fs w') = None)
    ∧ (forall p, In p ig -> noSlash p = true ->
                 HasPrefix (relString (c :: rest)) p = true ->
       lookup (Dest (site w) ++ c :: rest) (fs w')
       = lookup (Dest (site w) ++ c :: rest) (fs w)).
Proof.
  intros Hig Hdest Hnd HG c rest Hq.
  destruct (prep_ignore_lookup w ig ents Hig Hdest Hnd) as (w1 & Hprep & Hs1 & Hin & _).
  unfold Generate in HG. unfold orReturn at 1, bind at 1 in HG. rewrite Hprep in HG.
  assert (Hq1 : ~ rewritten (site w1) (Dest (site w) ++ c :: rest)) by now rewrite Hs1.
  pose proof (render_keeps _ _ _ _ HG Hq1) as E. rewrite Hin in E.
  split; [exact E|]. split.
  - intros Hm. rewrite E.
    destruct (matchIgnore (site w) c) eqn:M; [|reflexivity].
    apply (matchIgnore_top _ _ rest) in M. congruence.
  - intros p Hp Hns Hpre. rewrite E.
    assert (Hc : matchIgnore (site w) c = true).
    { unfold matchIgnore. rewrite Hig. cbn. apply (anyPrefix_In _ p); [exact Hp|].
      unfold HasPrefix in *. rewrite relString_cons in Hpre.
      destruct rest; [exact Hpre|]. now apply prefix_noSlash in Hpre. }
    now rewrite Hc.
Qed.

(** C5, on the code.  [Generate] with an ignore list, on a destination
    that is there.  A path below the destination root matches an ignore
    prefix, the entry of the root above it matches none, and the
    rendering pass writes nothing at the path or below it: the walker
    of [prep] has removed that entry of the root with all below it, and
    after [Generate] nothing is at the path. *)
Theorem Generate_removes_ignored now w w' ig ents c rest :
  ignore (site w) = Some ig ->
  lookup (Dest (site w)) (fs w) = Some (Dir ents) ->
  NoDup (map fst ents) ->
  Generate now w = Done (None, w') ->
  matchIgnore (site w) (relString (c :: rest)) = true ->
  matchIgnore (site w) c = false ->
  ~ rewritten (site w) (Dest (site w) ++ c :: rest) ->
  lookup (Dest (site w) ++ c :: rest) (fs w') = None.
Proof.
  intros Hig Hdest Hnd HG _ Hc Hq.
  destruct (prep_ignore_lookup w ig ents Hig Hdest Hnd) as (w1 & Hprep & Hs1 & Hin & _).
  unfold Generate in HG. unfold orReturn at 1, bind at 1 in HG. rewrite Hprep in HG.
  assert (Hq1 : ~ rewritten (site w1) (Dest (site w) ++ c :: rest)) by now rewrite Hs1.
  pose proof (render_keeps _ _ _ _ HG Hq1) as E. now rewrite Hin, Hc in E.
Qed.

End Frame.

Lemma Generate_protects_witness :
  lookup (Dest (site worldGit) ++ [".git"; "config"])
    (Dir [("site", Dir [(".git", Dir [("config", File "[core]")]);
                        (".gitfoo", File "foo");
                        ("atom.xml",
                         File "<feed><title></title><updated>9</updated></feed>")]);
          ("src", Dir [])])
  = lookup (Dest (site worldGit) ++ [".git"; "config"]) (fs worldGit).
Proof.
  assert (Hnd : NoDup (map fst [(".git", Dir [("config", File "[core]")]);
                                (".gitfoo", File "foo");
                                ("stale.html", File "old")])).
  { repeat constructor; rewrite ?elem_of_cons, ?elem_of_nil; intuition discriminate. }
  assert (Hq : ~ rewritten (site worldGit) (Dest (site worldGit) ++ [".git"; "config"])).
  { intros (o & Hin & k & Hk). destruct Hin as [<-|[]]. discriminate Hk. }
  exact (proj1 (Generate_protects 9 worldGit
                  (mkWorld siteGit
                     (Dir [("site", Dir [(".git", Dir [("config", File "[core]")]);
                                         (".gitfoo", File "foo");
                                         ("atom.xml",
                                          File "<feed><title></title><updated>9</updated></feed>")]);
                           ("src", Dir [])]))
                  [".git"] _ eq_refl eq_refl Hnd eq_refl ".git" ["config"] Hq)).
Defined.

(** Scenario B of the specification: with the ignore list [.git], after
    [Generate] the file [.git/config] is still there and [stale.html]
    is not. *)
Example Generate_scenario_B :
  ∃ w', Generate 9 worldGit = Done (None, w')
        ∧ Lstat ["site"; ".git"; "config"] (fs w') = IsFile "[core]"
        ∧ Lstat ["site"; "stale.html"] (fs w') = Absent.
Proof. eexists. repeat split. Qed.

Lemma Generate_removes_ignored_witness :
  lookup (Dest (site worldAssets) ++ ["assets"; "keep"; "logo.png"])
    (Dir [("site", Dir [("atom.xml",
                         File "<feed><title></title><updated>9</updated></feed>")]);
          ("src", Dir [])])
  = None.
Proof.
  assert (Hnd : NoDup (map fst [("assets", Dir [("keep", Dir [("logo.png", File "PNG")])]);
                                ("stale.html", File "old")])).
  { repeat constructor; rewrite ?elem_of_cons, ?elem_of_nil; intuition discriminate. }
  assert (Hq : ~ rewritten (site worldAssets)
                   (Dest (site worldAssets) ++ ["assets"; "keep"; "logo.png"])).
  { intros (o & Hin & k & Hk). destruct Hin as [<-|[]]. discriminate Hk. }
  exact (Generate_removes_ignored 9 worldAssets
           (mkWorld siteAssets
              (Dir [("site", Dir [("atom.xml",
                                   File "<feed><title></title><updated>9</updated></feed>")]);
                    ("src", Dir [])]))
           ["assets/keep"] _ "assets" ["keep"; "logo.png"]
           eq_refl eq_refl Hnd eq_refl eq_refl eq_refl Hq).
Defined.

(** The failing input of C5: the path [assets/keep/logo.png]
    matches the ignore prefix [assets/keep] and no output is written at
    it or below it, and it is gone after [Generate], removed with the
    directory [assets], whose own path matches nothing. *)
Lemma ignored_path_not_kept :
  matchIgnore siteAssets (relString ["assets"; "keep"; "logo.png"]) = true
  ∧ outputs siteAssets = [["site"; "atom.xml"]]
  ∧ Lstat ["site"; "assets"; "keep"; "logo.png"] (fs worldAssets) = IsFile "PNG"
  ∧ Generate 9 worldAssets
    = Done (None,
            mkWorld siteAssets
              (Dir [("site",
                     Dir [("atom.xml",
                           File "<feed><title></title><updated>9</updated></feed>")]);
                    ("src", Dir [])]))
  ∧ Lstat ["site"; "assets"; "keep"; "logo.png"]
      (Dir [("site",
             Dir [("atom.xml",
                   File "<feed><title></title><updated>9</updated></feed>")]);
            ("src", Dir [])]) = Absent.
Proof. repeat split. Qed.

(** ** Runs of calls on the tree *)

Lemma ReadFile_Lstat p t data : ReadFile p t = Some data <-> Lstat p t = IsFile data.
Proof.
  unfold ReadFile, Lstat. destruct (lookup p t) as [[d|ents]|]; split; congruence.
Qed.

Lemma MkdirAll_Lstat d X X' q :
  MkdirAll d X = Some X' ->
  Lstat q X' = if decide (q `prefix_of` d) then IsDir else Lstat q X.
Proof.
  intros H. destruct (decide (q `prefix_of` d)) as [Hq|Hq].
  - now apply (Lstat_MkdirAll_above d q X).
  - unfold Lstat. now rewrite (lookup_MkdirAll_frame _ _ _ _ H Hq).
Qed.

Lemma MkdirAll_ok d : forall X,
  (forall q b, q `prefix_of` d -> Lstat q X <> IsFile b) -> is_Some (MkdirAll d X).
Proof.
  induction d as [|c d IH]; intros [b|ents] H; cbn.
  - destruct (H [] b); [apply prefix_nil|reflexivity].
  - eauto.
  - destruct (H [] b); [apply prefix_nil|reflexivity].
  - destruct (IH (default (Dir []) (assoc c ents))) as [n' Hn'].
    + intros q b Hq. specialize (H (c :: q) b (prefix_cons _ _ _ Hq)).
      unfold Lstat in *. cbn in H.
      destruct (assoc c ents) as [n|]; cbn; [exact H|].
      rewrite lookup_nil_Dir. now destruct q.
    + rewrite Hn'. eauto.
Qed.

Lemma MkdirAll_inv d : forall X X' q b,
  MkdirAll d X = Some X' -> q `prefix_of` d -> Lstat q X <> IsFile b.
Proof.
  unfold Lstat.
  induction d as [|c d IH]; intros [b0|ents] X' q b; cbn; try discriminate.
  - intros _ Hq. apply prefix_nil_inv in Hq as ->. discriminate.
  - destruct (MkdirAll d _) as [n'|] eqn:E; [|discriminate]. intros _ Hq.
    destruct q as [|c' q]; [discriminate|].
    apply prefix_cons_inv_1 in Hq as Hc. apply prefix_cons_inv_2 in Hq. subst c'. cbn.
    destruct (assoc c ents) as [n|]; [|discriminate]. cbn in E. eapply IH; eauto.
Qed.

Lemma WriteFile_Lstat f data X X' q :
  WriteFile f data X = Some X' ->
  Lstat q X' = if decide (q = f) then IsFile data else Lstat q X.
Proof.
  intros H. destruct (decide (q = f)) as [->|Hne].
  - unfold Lstat. now rewrite (WriteFile_lookup _ _ _ _ H).
  - destruct (decide (q `prefix_of` f)) as [Hq|Hq].
    + destruct (Lstat_WriteFile_above f data q X X' H Hq Hne) as [-> ->]. reflexivity.
    + unfold Lstat. now rewrite (lookup_WriteFile_frame _ _ _ _ _ H Hq).
Qed.

Lemma WriteFile_ok f data : forall X,
  Lstat f X <> IsDir ->
  (forall q, q `prefix_of` f -> q <> f -> Lstat q X = IsDir) ->
  is_Some (WriteFile f data X).
Proof.
  unfold Lstat.
  induction f as [|c f IH]; intros [b|ents] Hf Hq; cbn in *; eauto.
  - congruence.
  - specialize (Hq [] (prefix_nil _)). cbn in Hq. discriminate Hq. discriminate.
  - destruct (assoc c ents) as [n|] eqn:E.
    + destruct (IH n) as [n' Hn'].
      * exact Hf.
      * intros q Hpre Hne. specialize (Hq (c :: q) (prefix_cons _ _ _ Hpre)).
        cbn in Hq. rewrite E in Hq. apply Hq. congruence.
      * rewrite Hn'. eauto.
    + destruct f as [|c' f]; [eauto|].
      specialize (Hq [c] (prefix_cons _ _ _ (prefix_nil _))). cbn in Hq.
      rewrite E in Hq. discriminate Hq. discriminate.
Qed.

Lemma WriteFile_inv f data : forall X X',
  WriteFile f data X = Some X' ->
  Lstat f X <> IsDir
  ∧ (forall q, q `prefix_of` f -> q <> f -> Lstat q X = IsDir).
Proof.
  intros X X' H. split.
  - unfold Lstat. revert X X' H.
    induction f as [|c f IH]; intros [b|ents] X'; cbn; try discriminate.
    destruct (assoc c ents) as [n|]; [|discriminate].
    destruct (WriteFile f data n) as [n'|] eqn:E; [|discriminate].
    intros _. eapply IH, E.
  - intros q Hq Hne. now destruct (Lstat_WriteFile_above f data q X X' H Hq Hne).
Qed.

Lemma grows_refl s : grows s s.
Proof. destruct s; cbn; eauto. Qed.

Lemma grows_trans s1 s2 s3 : grows s1 s2 -> grows s2 s3 -> grows s1 s3.
Proof.
  destruct s1; cbn; [trivial| |].
  - intros [b ->]. trivial.
  - intros ->. trivial.
Qed.

Lemma written_cons o ops :
  written (o :: ops)
  = match o with Wr f _ => f :: written ops | _ => written ops end.
Proof. now destruct o. Qed.

Lemma readFrom_cons o ops :
  readFrom (o :: ops)
  = match o with Rd from _ => from :: readFrom ops | _ => readFrom ops end.
Proof. now destruct o. Qed.

Lemma applyOp_Rd from data Y Y' :
  applyOp (Rd from data) Y = Some Y' -> Y' = Y ∧ Lstat from Y = IsFile data.
Proof.
  cbn. destruct (ReadFile from Y) as [d|] eqn:E; [|discriminate].
  destruct (String.eqb d data) eqn:Ed; [|discriminate].
  apply String.eqb_eq in Ed as ->. intros [= <-]. split; [reflexivity|].
  now apply ReadFile_Lstat.
Qed.

Lemma applyOp_grows o Y Y' q :
  applyOp o Y = Some Y' -> grows (Lstat q Y) (Lstat q Y').
Proof.
  destruct o as [d|f data|from data]; intros H.
  - cbn in H. rewrite (MkdirAll_Lstat _ _ _ q H).
    destruct (decide (q `prefix_of` d)) as [Hq|Hq]; [|apply grows_refl].
    destruct (Lstat q Y) as [|b|] eqn:E; cbn; auto.
    now destruct (MkdirAll_inv _ _ _ _ b H Hq).
  - cbn in H. rewrite (WriteFile_Lstat _ _ _ _ q H).
    destruct (decide (q = f)) as [->|Hne]; [|apply grows_refl].
    destruct (Lstat f Y) as [|b|] eqn:E; cbn; eauto.
    now destruct (proj1 (WriteFile_inv _ _ _ _ H)).
  - apply applyOp_Rd in H as [-> _]. apply grows_refl.
Qed.

Lemma applyOp_content o Y Y' q b :
  applyOp o Y = Some Y' -> Lstat q Y = IsFile b -> ~ In q (written [o]) ->
  Lstat q Y' = IsFile b.
Proof.
  destruct o as [d|f data|from data]; intros H Hb Hq.
  - cbn in H. rewrite (MkdirAll_Lstat _ _ _ q H).
    destruct (decide (q `prefix_of` d)) as [Hpre|Hpre]; [|exact Hb].
    now destruct (MkdirAll_inv _ _ _ _ b H Hpre).
  - cbn in H. rewrite (WriteFile_Lstat _ _ _ _ q H).
    destruct (decide (q = f)) as [->|Hne]; [|exact Hb]. destruct Hq. now left.
  - apply applyOp_Rd in H as [-> _]. exact Hb.
Qed.

Lemma applyOps_grows ops : forall Y F q,
  applyOps ops Y = Some F -> grows (Lstat q Y) (Lstat q F).
Proof.
  induction ops as [|o ops IH]; intros Y F q; cbn.
  - intros [= <-]. apply grows_refl.
  - destruct (applyOp o Y) as [Y'|] eqn:E; [|discriminate]. intros H.
    eapply grows_trans; [eapply applyOp_grows, E|eapply IH, H].
Qed.

Lemma applyOps_content ops : forall Y F q b,
  applyOps ops Y = Some F -> Lstat q Y = IsFile b -> ~ In q (written ops) ->
  Lstat q F = IsFile b.
Proof.
  induction ops as [|o ops IH]; intros Y F q b; cbn [applyOps].
  - now intros [= <-].
  - destruct (applyOp o Y) as [Y'|] eqn:E; [|discriminate]. intros H Hb Hq.
    rewrite written_cons in Hq.
    eapply IH; [exact H| |].
    + eapply applyOp_content; [exact E|exact Hb|].
      destruct o; cbn; try tauto. intros [->|[]]. apply Hq. now left.
    + destruct o; cbn in Hq; tauto.
Qed.

Lemma applyOps_app ops1 ops2 t :
  applyOps (ops1 ++ ops2) t = applyOps ops1 t ≫= applyOps ops2.
Proof.
  revert t. induction ops1 as [|o ops1 IH]; intros t; cbn; [reflexivity|].
  destruct (applyOp o t); [apply IH|reflexivity].
Qed.

(** The calls of a run that went through go through again on a tree of
    which every path is as it was before the run or as it is after it,
    and lead to the tree the run led to: so when no file the run reads
    is a file it writes. *)
Lemma applyOps_replay ops : forall Y F X,
  applyOps ops Y = Some F ->
  (forall q, Lstat q X = Lstat q Y ∨ Lstat q X = Lstat q F) ->
  (forall from, In from (readFrom ops) -> ~ In from (written ops)) ->
  ∃ F2, applyOps ops X = Some F2 ∧ forall q, Lstat q F2 = Lstat q F.
Proof.
  induction ops as [|o ops IH]; intros Y F X; cbn [applyOps].
  - intros [= <-] J _. exists X. split; [reflexivity|]. intros q. now destruct (J q).
  - destruct (applyOp o Y) as [Y'|] eqn:E; [|discriminate]. intros HF J Hrw.
    assert (G : forall q, grows (Lstat q Y') (Lstat q F)).
    { intros q. eapply applyOps_grows, HF. }
    assert (Hrw' : forall from, In from (readFrom ops) -> ~ In from (written ops)).
    { intros from Hin Hw. apply (Hrw from).
      - rewrite readFrom_cons. destruct o; cbn; auto.
      - rewrite written_cons. destruct o; cbn; auto. }
    assert (Hstep : ∃ X', applyOp o X = Some X'
                          ∧ forall q, Lstat q X' = Lstat q Y' ∨ Lstat q X' = Lstat q F).
    { destruct o as [d|f data|from data]; cbn [applyOp] in *.
      - destruct (MkdirAll_ok d X) as [X' HX'].
        + intros q b Hq Hb. destruct (J q) as [Hj|Hj]; rewrite Hj in Hb.
          * now destruct (MkdirAll_inv _ _ _ _ b E Hq).
          * specialize (G q). rewrite (MkdirAll_Lstat _ _ _ q E) in G.
            destruct (decide (q `prefix_of` d)); [|contradiction]. cbn in G. congruence.
        + exists X'. split; [exact HX'|]. intros q.
          rewrite (MkdirAll_Lstat _ _ _ q HX'), (MkdirAll_Lstat _ _ _ q E).
          destruct (decide (q `prefix_of` d)); [now left|apply J].
      - destruct (WriteFile_inv _ _ _ _ E) as [Hf Hup].
        destruct (WriteFile_ok f data X) as [X' HX'].
        + intros Hd. destruct (J f) as [Hj|Hj]; rewrite Hj in Hd; [contradiction|].
          specialize (G f). rewrite (WriteFile_Lstat _ _ _ _ f E) in G.
          destruct (decide (f = f)); [|contradiction]. cbn in G. destruct G. congruence.
        + intros q Hq Hne. destruct (J q) as [Hj|Hj]; rewrite Hj; [now apply Hup|].
          specialize (G q). rewrite (WriteFile_Lstat _ _ _ _ q E) in G.
          destruct (decide (q = f)); [contradiction|].
          rewrite (Hup q Hq Hne) in G. exact G.
        + exists X'. split; [exact HX'|]. intros q.
          rewrite (WriteFile_Lstat _ _ _ _ q HX'), (WriteFile_Lstat _ _ _ _ q E).
          destruct (decide (q = f)); [now left|apply J].
      - apply (applyOp_Rd from data Y Y') in E as [-> Hd].
        assert (HX : Lstat from X = IsFile data).
        { destruct (J from) as [Hj|Hj]; rewrite Hj; [exact Hd|].
          eapply applyOps_content; [exact HF|exact Hd|].
          intros Hw. apply (Hrw from); [now left|exact Hw]. }
        apply ReadFile_Lstat in HX. rewrite HX, String.eqb_refl.
        exists X. split; [reflexivity|exact J]. }
    destruct Hstep as (X' & HX' & J'). rewrite HX'.
    now apply (IH Y' F X').
Qed.

(** ** Well-formed trees *)

Lemma wfEntries_nil : wfEntries [].
Proof. split; [constructor|exact I]. Qed.

Lemma wfEntries_cons c n ents :
  wfEntries ((c, n) :: ents) <-> ~ In c (map fst ents) ∧ wf n ∧ wfEntries ents.
Proof.
  unfold wfEntries. cbn. rewrite NoDup_cons, list_elem_of_In. tauto.
Qed.

Lemma wf_assoc c ents n : wfEntries ents -> assoc c ents = Some n -> wf n.
Proof.
  induction ents as [|[c' n'] ents IH]; cbn [assoc]; [discriminate|].
  intros H. apply wfEntries_cons in H as (_ & Hn & He).
  destruct (String.eqb c c'); [now intros [= <-]|now apply IH].
Qed.

Lemma In_replaceEntry c n ents x :
  In x (map fst (replaceEntry c n ents)) <-> In x (map fst ents).
Proof.
  induction ents as [|[c' n'] ents IH]; cbn; [tauto|].
  destruct (String.eqb c c') eqn:E; cbn; [|now rewrite IH].
  apply String.eqb_eq in E as ->. tauto.
Qed.

Lemma In_insertEntry c n ents x :
  In x (map fst (insertEntry c n ents)) <-> x = c ∨ In x (map fst ents).
Proof.
  induction ents as [|[c' n'] ents IH]; cbn; [intuition congruence|].
  destruct (String.ltb c c'); cbn; [intuition congruence|].
  rewrite IH. intuition congruence.
Qed.

Lemma wf_replaceEntry c n ents :
  wfEntries ents -> wf n -> wfEntries (replaceEntry c n ents).
Proof.
  induction ents as [|[c' n'] ents IH]; cbn [replaceEntry]; [trivial|].
  intros H Hn. apply wfEntries_cons in H as (Hc & Hn' & He).
  destruct (String.eqb c c') eqn:E; apply wfEntries_cons.
  - apply String.eqb_eq in E as ->. auto.
  - rewrite In_replaceEntry. auto.
Qed.

Lemma wf_insertEntry c n ents :
  wfEntries ents -> wf n -> assoc c ents = None -> wfEntries (insertEntry c n ents).
Proof.
  induction ents as [|[c' n'] ents IH]; cbn [insertEntry assoc].
  - intros _ Hn _. apply wfEntries_cons. cbn [map]. auto using wfEntries_nil.
  - intros H Hn. apply wfEntries_cons in H as (Hc & Hn' & He).
    destruct (String.eqb c c') eqn:E; [discriminate|]. intros Ha.
    apply String.eqb_neq in E.
    destruct (String.ltb c c'); apply wfEntries_cons.
    + split; [|split; [exact Hn|apply wfEntries_cons; auto]].
      cbn [map fst]. intros [?|Hin]; [congruence|]. now apply assoc_None in Ha.
    + rewrite In_insertEntry. split; [intros [?|?]; [congruence|tauto]|]. auto.
Qed.

Lemma wf_setEntry c n ents : wfEntries ents -> wf n -> wfEntries (setEntry c n ents).
Proof.
  intros H Hn. unfold setEntry. destruct (assoc c ents) eqn:E.
  - now apply wf_replaceEntry.
  - now apply wf_insertEntry.
Qed.

Lemma In_delEntry c ents x : In x (map fst (delEntry c ents)) -> In x (map fst ents).
Proof.
  induction ents as [|[c1 n1] ents IH]; cbn [delEntry map fst]; [tauto|].
  destruct (String.eqb c c1); cbn [map fst In]; tauto.
Qed.

Lemma wf_delEntry c ents : wfEntries ents -> wfEntries (delEntry c ents).
Proof.
  induction ents as [|[c' n'] ents IH]; cbn [delEntry]; [trivial|].
  intros H. apply wfEntries_cons in H as (Hc & Hn' & He).
  destruct (String.eqb c c'); [auto|]. apply wfEntries_cons.
  split; [|auto]. intros Hin. apply Hc. eapply In_delEntry, Hin.
Qed.

Lemma wf_filter (f : string * node -> bool) ents :
  wfEntries ents -> wfEntries (List.filter f ents).
Proof.
  induction ents as [|[c' n'] ents IH]; cbn [List.filter]; [trivial|].
  intros H. apply wfEntries_cons in H as (Hc & Hn' & He).
  destruct (f (c', n')); [|auto]. apply wfEntries_cons.
  split; [|auto]. intros Hin. apply Hc.
  apply in_map_iff in Hin as (x & <- & Hx). apply filter_In in Hx as [Hx _].
  now apply in_map.
Qed.

Lemma wf_lookup p : forall X n, wf X -> lookup p X = Some n -> wf n.
Proof.
  induction p as [|c p IH]; intros [b|ents] n HX; cbn [lookup]; try discriminate.
  - now intros [= <-].
  - now intros [= <-].
  - destruct (assoc c ents) as [n'|] eqn:E; [|discriminate].
    apply IH. eapply wf_assoc; eauto.
Qed.

Lemma wf_MkdirAll d : forall X X', wf X -> MkdirAll d X = Some X' -> wf X'.
Proof.
  induction d as [|c d IH]; intros [b|ents] X' HX; cbn [MkdirAll]; try discriminate.
  - now intros [= <-].
  - destruct (MkdirAll d _) as [n'|] eqn:E; [|discriminate]. intros [= <-].
    apply wf_setEntry; [exact HX|]. eapply IH; [|exact E].
    destruct (assoc c ents) as [n|] eqn:Ea; cbn [default from_option id];
      [eapply wf_assoc; eauto|apply wfEntries_nil].
Qed.

Lemma wf_WriteFile f data : forall X X', wf X -> WriteFile f data X = Some X' -> wf X'.
Proof.
  induction f as [|c f IH]; intros [b|ents] X' HX; cbn [WriteFile]; try discriminate.
  - now intros [= <-].
  - destruct (assoc c ents) as [n|] eqn:Ea.
    + destruct (WriteFile f data n) as [n'|] eqn:E; [|discriminate]. intros [= <-].
      apply wf_setEntry; [exact HX|]. eapply IH; [|exact E]. eapply wf_assoc; eauto.
    + destruct f; [|discriminate]. intros [= <-]. now apply wf_setEntry.
Qed.

Lemma wf_alterDir g p : forall X,
  (forall ents, wfEntries ents -> wfEntries (g ents)) -> wf X -> wf (alterDir g p X).
Proof.
  induction p as [|c p IH]; intros [b|ents] Hg HX; cbn [alterDir]; trivial.
  - now apply Hg.
  - destruct (assoc c ents) as [n|] eqn:Ea; [|exact HX].
    apply wf_setEntry; [exact HX|]. apply IH; [exact Hg|]. eapply wf_assoc; eauto.
Qed.

Lemma wf_unlink p X : wf X -> wf (unlink p X).
Proof.
  intros HX. unfold unlink. destruct p.
  - apply wf_alterDir; [|exact HX]. intros _ _. apply wfEntries_nil.
  - apply wf_alterDir; [|exact HX]. intros ents. apply wf_delEntry.
Qed.

(** ** A rendering pass, run again *)

Section Replay.
Context `{Ext : Externals}.

Lemma sameContent_trans s0 s1 s2 :
  sameContent s0 s1 -> sameContent s1 s2 -> sameContent s0 s2.
Proof.
  unfold sameContent. intros (?&?&?&?&?&?&?) (?&?&?&?&?&?&?).
  repeat split; congruence.
Qed.

Lemma mkWorld_eta (w : World) : mkWorld (site w) (fs w) = w.
Proof. now destruct w. Qed.

Lemma siteOnly_ret {A} (a : A) : siteOnly (ret a).
Proof.
  intros w. cbn. split; [reflexivity|]. split; [apply sameContent_refl|].
  intros w2 <-. unfold ret. now rewrite mkWorld_eta.
Qed.

Lemma siteOnly_panic {A} : siteOnly (@panic World A).
Proof. intros w. exact I. Qed.

Lemma siteOnly_bind {A B} (c : M World A) (k : A -> M World B) :
  siteOnly c -> (forall a, siteOnly (k a)) -> siteOnly (bind c k).
Proof.
  intros Hc Hk w. specialize (Hc w). unfold returns in *. unfold bind at 1.
  destruct (c w) as [[a w1]|] eqn:Ec; [|exact I].
  destruct Hc as (Hf1 & Hs1 & Hr1). specialize (Hk a w1). unfold returns in Hk.
  destruct (k a w1) as [[r w']|] eqn:Ek; [|exact I].
  destruct Hk as (Hf2 & Hs2 & Hr2).
  split; [congruence|]. split; [eapply sameContent_trans; eauto|].
  intros w2 Hw2. unfold bind. rewrite (Hr1 w2 Hw2).
  exact (Hr2 (mkWorld (site w1) (fs w2)) eq_refl).
Qed.

Lemma siteOnly_gets_site : siteOnly (gets site).
Proof.
  intros w. cbn. split; [reflexivity|]. split; [apply sameContent_refl|].
  intros w2 Hw2. unfold gets. now rewrite Hw2, <- Hw2, mkWorld_eta.
Qed.

Lemma siteOnly_setTempl t : siteOnly (modify (onSite (setTempl t))).
Proof.
  intros w. cbn. split; [reflexivity|]. split; [repeat split|].
  intros w2 Hw2. unfold modify, onSite. now rewrite Hw2.
Qed.

Lemma siteOnly_GetString c key : siteOnly (GetString c key).
Proof.
  unfold GetString. destruct (c !! key) as [[]|];
    (apply siteOnly_ret || apply siteOnly_panic).
Qed.

Lemma siteOnly_expandBody page url : siteOnly (expandBody page url).
Proof.
  unfold expandBody. apply siteOnly_bind; [apply siteOnly_gets_site|]. intros s.
  destruct (isMarkdown _); [apply siteOnly_ret|].
  destruct (templ s) as [ts|]; [|apply siteOnly_ret].
  destruct (NewParse ts url _) as [ts'|msg]; [|apply siteOnly_ret].
  apply siteOnly_bind; [apply siteOnly_setTempl|]. intros _.
  destruct (ExecuteTemplate ts' url _) as [out [msg|]]; apply siteOnly_ret.
Qed.

Lemma siteOnly_applyLayout page content : siteOnly (applyLayout page content).
Proof.
  unfold applyLayout. apply siteOnly_bind; [apply siteOnly_gets_site|]. intros s.
  destruct (_ || _); [apply siteOnly_ret|].
  destruct (templ s); [apply siteOnly_ret|apply siteOnly_panic].
Qed.

Lemma siteOnly_postTimeOf page : siteOnly (postTimeOf page).
Proof.
  unfold postTimeOf. destruct (GetDate page) as [[t|]|];
    (apply siteOnly_ret || apply siteOnly_panic).
Qed.

Lemma siteOnly_newFeed now : siteOnly (newFeed now).
Proof.
  unfold newFeed. apply siteOnly_bind; [apply siteOnly_gets_site|]. intros s.
  do 6 (apply siteOnly_bind; [apply siteOnly_GetString|]; intros ?).
  apply siteOnly_ret.
Qed.

(** *** The rules *)

Lemma replays_siteOnly {A} s0 (good : A -> bool) (c : M World A) w :
  siteOnly c -> replays s0 good c w.
Proof.
  intros Hc Hs. eapply returns_mono; [apply Hc|].
  intros r w' (Hf & Hs' & Hr) _. split; [eapply sameContent_trans; eauto|].
  exists []. split; [constructor|]. split; [cbn; congruence|].
  intros w2 t Hw2 [= <-]. now apply Hr.
Qed.

Lemma replays_bind {A B} s0 (goodA : A -> bool) (good : B -> bool)
  (c : M World A) (k : A -> M World B) w :
  replays s0 goodA c w ->
  (forall a w1, goodA a = true -> replays s0 good (k a) w1) ->
  (forall a w1, goodA a = false -> returns (k a) w1 (fun r _ => good r = false)) ->
  replays s0 good (bind c k) w.
Proof.
  intros Hc Hk Hbad Hs. specialize (Hc Hs). unfold returns in *. unfold bind at 1.
  destruct (c w) as [[a w1]|] eqn:Ec; [|exact I].
  destruct (goodA a) eqn:Ga.
  - destruct (Hc eq_refl) as (Hs1 & ops1 & Ha1 & Hr1 & Hr1').
    specialize (Hk a w1 Ga Hs1). unfold returns in Hk.
    destruct (k a w1) as [[r w']|] eqn:Ek; [|exact I].
    intros Gr. destruct (Hk Gr) as (Hs' & ops2 & Ha2 & Hr2 & Hr2').
    split; [exact Hs'|]. exists (ops1 ++ ops2).
    split; [now apply Forall_app|]. split.
    + rewrite applyOps_app, Hr1. exact Hr2.
    + intros w2 t Hw2 Ht. rewrite applyOps_app in Ht.
      destruct (applyOps ops1 (fs w2)) as [t1|] eqn:E1; [|discriminate].
      unfold bind. rewrite (Hr1' w2 t1 Hw2 E1).
      now apply (Hr2' (mkWorld (site w1) t1) t).
  - specialize (Hbad a w1 Ga). unfold returns in Hbad.
    destruct (k a w1) as [[r w']|]; [|exact I]. intros Gr. congruence.
Qed.

(** After [gets site] the continuation knows the site. *)
Lemma replays_gets_site {B} s0 (good : B -> bool) (k : Site -> M World B) w :
  replays s0 good (k (site w)) w -> replays s0 good (bind (gets site) k) w.
Proof.
  intros Hk Hs. specialize (Hk Hs). unfold returns in *.
  change (bind (gets site) k w) with (k (site w) w).
  destruct (k (site w) w) as [[r w']|]; [|exact I].
  intros Gr. destruct (Hk Gr) as (Hs' & ops & Ha & Hr & Hr').
  split; [exact Hs'|]. exists ops. split; [exact Ha|]. split; [exact Hr|].
  intros w2 t Hw2 Ht. change (bind (gets site) k w2) with (k (site w2) w2).
  rewrite Hw2. now apply Hr'.
Qed.

Lemma replays_bindR {A B} s0 (c : M World (result A)) (k : A -> M World (result B)) w :
  replays s0 isOk c w ->
  (forall a w1, replays s0 isOk (k a) w1) ->
  replays s0 isOk (bindR c k) w.
Proof.
  intros Hc Hk. unfold bindR. apply (replays_bind s0 isOk); [exact Hc| |].
  - intros [a|msg] w1; [intros _; apply Hk|discriminate].
  - intros [a|msg] w1; [discriminate|reflexivity].
Qed.

Lemma replays_orReturn s0 (c k : M World (option error)) w :
  replays s0 isNil c w ->
  (forall w1, replays s0 isNil k w1) ->
  replays s0 isNil (orReturn c k) w.
Proof.
  intros Hc Hk. unfold orReturn. apply (replays_bind s0 isNil); [exact Hc| |].
  - intros [e|] w1; [discriminate|intros _; apply Hk].
  - intros [e|] w1; [reflexivity|discriminate].
Qed.

Lemma replay_one (o : op) op_ msg w t :
  (forall X, applyOp o X = op_ X) ->
  op_ (fs w) = Some t ->
  replay (sysCall op_ msg) w None (setFs t w) [o]
  ∧ replay (sysCallR op_ msg) w (Ok tt) (setFs t w) [o].
Proof.
  intros Ho Ht. split; (split; [cbn [applyOps]; now rewrite Ho, Ht|]);
    intros w2 t2 Hw2; cbn [applyOps]; rewrite Ho;
    destruct (op_ (fs w2)) as [t'|] eqn:E; try discriminate; intros [= <-];
    unfold sysCallR, sysCall, bind, ret; rewrite E; unfold setFs; cbn; now rewrite Hw2.
Qed.

Lemma replays_sysCallR s0 (o : op) op_ msg w :
  (forall X, applyOp o X = op_ X) -> allowedOp s0 o ->
  replays s0 isOk (sysCallR op_ msg) w.
Proof.
  intros Ho Ha Hs. apply returns_sysCallR; [|discriminate].
  intros t Ht _. split; [exact Hs|]. exists [o]. split; [now constructor|].
  now apply (replay_one o op_ msg w t Ho Ht).
Qed.

Lemma replays_sysCall s0 (o : op) op_ msg w :
  (forall X, applyOp o X = op_ X) -> allowedOp s0 o ->
  replays s0 isNil (sysCall op_ msg) w.
Proof.
  intros Ho Ha Hs. apply returns_sysCall; [|discriminate].
  intros t Ht _. split; [exact Hs|]. exists [o]. split; [now constructor|].
  now apply (replay_one o op_ msg w t Ho Ht).
Qed.

(** *** The rendering pass *)

Lemma replays_writePage s0 page feed w :
  In page (pages s0 ++ posts s0) ->
  replays s0 isOk (writePage page feed) w.
Proof.
  intros Hin Hs. pose proof Hs as (_ & HD & _). revert Hs.
  change (replays s0 isOk (writePage page feed) w).
  unfold writePage. apply replays_gets_site. rewrite HD.
  apply replays_bindR;
    [now apply (replays_sysCallR s0 (Mk (Join (Dest s0) (Dir_ (outUrl page)))))|].
  intros _ w1.
  apply replays_bindR; [apply replays_siteOnly, siteOnly_expandBody|]. intros content w2.
  apply (replays_bind s0 (fun _ => true));
    [apply replays_siteOnly, siteOnly_applyLayout| |discriminate].
  intros out w3 _.
  apply replays_bindR.
  { apply (replays_sysCallR s0 (Wr (Join (Dest s0) (outUrl page)) out)); [reflexivity|].
    cbn. apply in_or_app. left. now apply (in_map (fun p => Join (Dest s0) (outUrl p))). }
  intros _ w4.
  apply (replays_bind s0 (fun _ => true));
    [apply replays_siteOnly, siteOnly_postTimeOf| |discriminate].
  intros pt w5 _. destruct (IsZero pt); apply replays_siteOnly, siteOnly_ret.
Qed.

Lemma replays_writeEach s0 l : forall feed w,
  (forall page, In page l -> In page (pages s0 ++ posts s0)) ->
  replays s0 isOk (writeEach l feed) w.
Proof.
  induction l as [|page l IH]; intros feed w Hl; cbn [writeEach].
  - apply replays_siteOnly, siteOnly_ret.
  - apply replays_bindR; [apply replays_writePage, Hl; now left|].
    intros feed' w1. apply IH. intros p Hp. apply Hl. now right.
Qed.

Lemma replays_renderAll s0 now w : replays s0 isOk (renderAll now) w.
Proof.
  unfold renderAll.
  apply (replays_bind s0 (fun _ => true));
    [apply replays_siteOnly, siteOnly_newFeed| |discriminate].
  intros feed w1 _ Hs. pose proof Hs as (_ & _ & _ & Hposts & Hpages & _). revert Hs.
  apply replays_gets_site. rewrite Hposts, Hpages. now apply replays_writeEach.
Qed.

Lemma replays_writePages s0 now w : replays s0 isNil (writePages now) w.
Proof.
  unfold writePages. apply (replays_bind s0 isOk); [apply replays_renderAll| |].
  - intros [feed|msg] w1; [intros _|discriminate].
    intros Hs. pose proof Hs as (_ & HD & _). revert Hs.
    apply replays_gets_site. rewrite HD.
    destruct (ToAtom feed) as [atom|msg]; [|apply replays_siteOnly, siteOnly_ret].
    apply replays_orReturn; [|intros w2; apply replays_siteOnly, siteOnly_ret].
    apply (replays_sysCall s0 (Wr (Join (Dest s0) feedPath) atom)); [reflexivity|].
    cbn. apply in_or_app. right. now left.
  - intros [feed|msg] w1; [discriminate|]. reflexivity.
Qed.

Lemma copyTo_eq from to w :
  copyTo from to w
  = match ReadFile from (fs w) with
    | None => Done (Some ErrNotExist, w)
    | Some data =>
        match MkdirAll (removelast to) (fs w) with
        | None => Done (Some (Err "mkdir"), w)
        | Some t1 =>
            match WriteFile to data t1 with
            | None => Done (Some (Err "open"), setFs t1 w)
            | Some t2 => Done (None, setFs t2 w)
            end
        end
    end.
Proof.
  unfold copyTo, orReturn, sysCall, bind, gets, ret.
  destruct (ReadFile from (fs w)) as [data|]; [|reflexivity].
  destruct (MkdirAll (removelast to) (fs w)) as [t1|]; [|reflexivity].
  cbn [fs setFs]. now destruct (WriteFile to data t1).
Qed.

Lemma replays_copyTo s0 from to w :
  In from (sourceFiles s0) -> In to (outputFiles s0) ->
  replays s0 isNil (copyTo from to) w.
Proof.
  intros Hfrom Hto Hs. unfold returns. rewrite copyTo_eq.
  destruct (ReadFile from (fs w)) as [data|] eqn:Hrd; [|discriminate].
  destruct (MkdirAll (removelast to) (fs w)) as [t1|] eqn:Hmk; [|discriminate].
  destruct (WriteFile to data t1) as [t2|] eqn:Hwr; [|discriminate].
  intros _. split; [exact Hs|].
  exists [Rd from data; Mk (removelast to); Wr to data].
  split; [repeat constructor; assumption|]. split.
  - cbn. now rewrite Hrd, String.eqb_refl, Hmk, Hwr.
  - intros w2 t Hw2. cbn [applyOps applyOp]. rewrite copyTo_eq.
    destruct (ReadFile from (fs w2)) as [d|] eqn:Hrd2; [|discriminate].
    destruct (String.eqb d data) eqn:Ed; [|discriminate].
    apply String.eqb_eq in Ed as ->.
    destruct (MkdirAll (removelast to) (fs w2)) as [t1'|] eqn:Hmk2; [|discriminate].
    destruct (WriteFile to data t1') as [t2'|] eqn:Hwr2; [|discriminate].
    intros [= <-]. unfold setFs. cbn. now rewrite Hw2.
Qed.

Lemma replays_copyEach s0 l : forall w,
  (forall file, In file l -> In file (files s0)) ->
  replays s0 isNil (copyEach s0 l) w.
Proof.
  induction l as [|file l IH]; intros w Hl; cbn [copyEach].
  - apply replays_siteOnly, siteOnly_ret.
  - apply replays_orReturn.
    + apply replays_copyTo.
      * apply in_map, Hl. now left.
      * apply in_or_app. right. right. apply in_map, Hl. now left.
    + intros w1. apply IH. intros f Hf. apply Hl. now right.
Qed.

Lemma replays_writeStatic s0 w : replays s0 isNil writeStatic w.
Proof.
  intros Hs. pose proof Hs as (HS & HD & _ & _ & _ & Hfiles & _). revert Hs.
  unfold writeStatic. apply replays_gets_site.
  rewrite (copyEach_ext s0 (site w) _ HS HD), Hfiles. now apply replays_copyEach.
Qed.

Lemma replays_render s0 now w : replays s0 isNil (render now) w.
Proof.
  unfold render. apply replays_orReturn; [apply replays_writePages|]. intros w1.
  apply replays_orReturn; [apply replays_writeStatic|]. intros w2.
  apply replays_siteOnly, siteOnly_ret.
Qed.

(** A rendering pass that went through made calls on the tree, writing
    output files and reading static files, that make it go through from
    any world with the same site on which they go through. *)
Lemma render_replay now w w' :
  render now w = Done (None, w') ->
  sameContent (site w) (site w')
  ∧ ∃ ops, Forall (allowedOp (site w)) ops ∧ replay (render now) w None w' ops.
Proof.
  intros H.
  pose proof (replays_render (site w) now w (sameContent_refl _)) as R.
  exact (returns_elim _ _ _ _ _ R H eq_refl).
Qed.

Lemma wf_applyOps ops : forall X F, wf X -> applyOps ops X = Some F -> wf F.
Proof.
  induction ops as [|o ops IH]; intros X F HX; cbn [applyOps].
  - now intros [= <-].
  - destruct (applyOp o X) as [X'|] eqn:E; [|discriminate].
    apply IH. destruct o as [d|f data|from data].
    + eapply wf_MkdirAll; eauto.
    + eapply wf_WriteFile; eauto.
    + now apply applyOp_Rd in E as [-> _].
Qed.

End Replay.

(** ** Generate, twice *)

Lemma stripPrefix_Some p : forall q r, stripPrefix p q = Some r <-> q = p ++ r.
Proof.
  induction p as [|c p IH]; intros q r; cbn.
  - split; congruence.
  - destruct q as [|c' q]; [split; discriminate|].
    destruct (String.eqb c c') eqn:E.
    + apply String.eqb_eq in E as ->. rewrite IH. split; congruence.
    + apply String.eqb_neq in E. split; [discriminate|congruence].
Qed.

Lemma stripPrefix_None p q : stripPrefix p q = None <-> ~ p `prefix_of` q.
Proof.
  destruct (stripPrefix p q) as [r|] eqn:E.
  - apply stripPrefix_Some in E. split; [discriminate|]. intros H. destruct H. now exists r.
  - split; [|reflexivity]. intros _ [r Hr]. apply stripPrefix_Some in Hr. congruence.
Qed.

Lemma Lstat_alterDir_other g p q X :
  ~ p `prefix_of` q -> Lstat q (alterDir g p X) = Lstat q X.
Proof.
  intros Hpq. destruct (decide (q `prefix_of` p)) as [Hqp|Hqp].
  - now apply Lstat_alterDir_above.
  - unfold Lstat. now rewrite lookup_alterDir_frame.
Qed.

Lemma Lstat_unlink_other p c q X :
  ~ (p ++ [c]) `prefix_of` q -> Lstat q (unlink (p ++ [c]) X) = Lstat q X.
Proof.
  intros Hq. rewrite unlink_snoc.
  destruct (stripPrefix p q) as [[|c' rest]|] eqn:E.
  - apply stripPrefix_Some in E. rewrite app_nil_r in E. subst q.
    now apply Lstat_alterDir_above.
  - apply stripPrefix_Some in E. subst q.
    assert (Hc : c' <> c).
    { intros ->. apply Hq. exists rest. now rewrite <- app_assoc. }
    unfold Lstat. rewrite !lookup_app.
    destruct (lookup p X) as [[d|ents]|] eqn:Ep.
    + rewrite alterDir_absent by congruence. now rewrite Ep.
    + rewrite (lookup_alterDir _ _ _ _ Ep). cbn. now rewrite assoc_delEntry_ne.
    + rewrite alterDir_absent by congruence. now rewrite Ep.
  - apply stripPrefix_None in E. now apply Lstat_alterDir_other.
Qed.

Section Twice.
Context `{Ext : Externals}.

(** [prep] on a well-formed tree on which the destination root can be
    made: no error, and the tree it leaves. *)
Lemma prep_total w t0 :
  wf (fs w) ->
  MkdirAll (Dest (site w)) (fs w) = Some t0 ->
  ∃ wp, prep w = Done (None, wp)
        ∧ site wp = site w
        ∧ wf (fs wp)
        ∧ forall q, Lstat q (fs wp) = if erased (site w) q then Absent else Lstat q t0.
Proof.
  intros Hwf Hmk.
  pose proof (wf_MkdirAll _ _ _ Hwf Hmk) as Hwf0.
  destruct (MkdirAll_lookup _ _ _ Hmk) as [ents Hdest].
  destruct (ignore (site w)) as [ig|] eqn:Hig.
  - pose proof (wf_lookup _ _ _ Hwf0 Hdest) as [Hnd Hall].
    eexists. split; [apply (prep_ignore_made w ig t0 ents Hig Hmk Hdest Hnd)|].
    split; [reflexivity|]. cbn [fs setFs]. split.
    + apply wf_alterDir; [|exact Hwf0]. intros _ _. apply wf_filter.
      exact (wf_lookup _ _ _ Hwf0 Hdest).
    + intros q. unfold erased. rewrite Hig.
      destruct (stripPrefix (Dest (site w)) q) as [[|c rest]|] eqn:E.
      * apply stripPrefix_Some in E. rewrite app_nil_r in E. subst q.
        unfold Lstat. now rewrite (lookup_alterDir _ _ _ _ Hdest), Hdest.
      * apply stripPrefix_Some in E. subst q. unfold Lstat.
        rewrite !lookup_app, Hdest, (lookup_alterDir _ _ _ _ Hdest). cbn.
        rewrite assoc_kept. now destruct (matchIgnore (site w) c).
      * apply stripPrefix_None in E. now apply Lstat_alterDir_other.
  - eexists. split.
    { unfold prep. unfold bind at 1, gets at 1. unfold orReturn at 1, bind at 1, sysCall.
      rewrite Hmk, Hig. reflexivity. }
    split; [reflexivity|]. cbn [fs setFs]. split; [now apply wf_unlink|].
    intros q. unfold erased, RemoveAll. rewrite Hig.
    destruct (Dest (site w)) as [|c0 p0] eqn:HD.
    + cbn [stripPrefix]. cbn in Hdest. injection Hdest as ->.
      destruct q; reflexivity.
    + rewrite <- HD in *.
      assert (Hne : Dest (site w) <> []) by congruence.
      destruct (exists_last Hne) as (p & c & Hpc). rewrite Hpc in *.
      destruct (stripPrefix (p ++ [c]) q) as [r|] eqn:E.
      * apply stripPrefix_Some in E. subst q.
        assert (Lstat ((p ++ [c]) ++ r) (unlink (p ++ [c]) t0) = Absent) as ->.
        { unfold Lstat. rewrite <- app_assoc. cbn [app]. now rewrite lookup_unlink. }
        destruct r; [|reflexivity]. now destruct (p ++ [c]).
      * apply stripPrefix_None in E. now apply Lstat_unlink_other.
Qed.

(** After [writePages] the destination root is a directory: the feed
    has been written into it. *)
Lemma writePages_Dest now w :
  returns (writePages now) w (fun err w' =>
    err = None -> Lstat (Dest (site w')) (fs w') = IsDir).
Proof.
  unfold writePages. apply returns_bind, returns_any. intros r w1.
  apply returns_bind, returns_gets.
  destruct r as [feed|msg]; [|discriminate].
  destruct (ToAtom feed) as [atom|msg]; [|discriminate].
  apply returns_orReturn, returns_sysCall; [|discriminate].
  intros t Ht _. cbn [fs setFs site].
  refine (proj2 (Lstat_WriteFile_above _ _ _ _ _ Ht _ _)).
  - exists [feedPath]. reflexivity.
  - intros E. apply (f_equal (@length string)) in E.
    change (Join (Dest (site w1)) feedPath) with (Dest (site w1) ++ [feedPath]) in E.
    rewrite length_app in E. cbn in E. lia.
Qed.

Lemma allowed_written s ops f :
  Forall (allowedOp s) ops -> In f (written ops) -> In f (outputFiles s).
Proof.
  induction 1 as [|o ops Ho _ IH]; [intros []|].
  rewrite written_cons. destruct o; cbn in *; intuition congruence.
Qed.

Lemma allowed_readFrom s ops f :
  Forall (allowedOp s) ops -> In f (readFrom ops) -> In f (sourceFiles s).
Proof.
  induction 1 as [|o ops Ho _ IH]; [intros []|].
  rewrite readFrom_cons. destruct o; cbn in *; intuition congruence.
Qed.

Lemma Generate_split now w w1 :
  Generate now w = Done (None, w1) ->
  ∃ wp, prep w = Done (None, wp) ∧ render now wp = Done (None, w1).
Proof.
  change (Generate now) with (orReturn prep (render now)).
  unfold orReturn at 1, bind at 1.
  destruct (prep w) as [[[e|] wp]|]; try discriminate. eauto.
Qed.

Lemma render_Dest now w w' :
  render now w = Done (None, w') ->
  sameContent (site w) (site w') ->
  Lstat (Dest (site w)) (fs w') = IsDir.
Proof.
  unfold render. unfold orReturn at 1, bind at 1.
  destruct (writePages now w) as [[[e|] wq]|] eqn:Ewp; try discriminate.
  pose proof (returns_elim _ _ _ _ _ (writePages_Dest now w) Ewp eq_refl) as Hq.
  intros Hst HS.
  pose proof (replays_writePages (site w) now w (sameContent_refl _)) as R.
  destruct (returns_elim _ _ _ _ _ R Ewp eq_refl) as (HSq & _).
  assert (Est : writeStatic wq = Done (None, w')).
  { revert Hst. unfold orReturn, bind.
    destruct (writeStatic wq) as [[[e|] w2]|]; try discriminate. now intros [= <-]. }
  pose proof (replays_writeStatic (site wq) wq (sameContent_refl _)) as R2.
  destruct (returns_elim _ _ _ _ _ R2 Est eq_refl) as (_ & ops & _ & Hops & _).
  assert (HD : Dest (site wq) = Dest (site w)) by apply HSq.
  rewrite HD in Hq.
  pose proof (applyOps_grows _ _ _ (Dest (site w)) Hops) as G.
  now rewrite Hq in G.
Qed.

(** C3, as the code has it.  Take a well-formed tree, a run of
    [Generate] that returns no error and leaves the site as it was, the
    template set included, and let no static file that the run copies be
    one of the files it writes.  Then [Generate], run again with the
    clock at the same reading, returns no error and leaves every path of
    the tree as the first run left it: the same directories, the same
    files with the same bytes. *)
Theorem Generate_twice now w w1 :
  wf (fs w) ->
  Generate now w = Done (None, w1) ->
  site w1 = site w ->
  (forall from, In from (sourceFiles (site w)) -> ~ In from (outputFiles (site w))) ->
  ∃ w2, Generate now w1 = Done (None, w2)
        ∧ site w2 = site w1
        ∧ forall q, Lstat q (fs w2) = Lstat q (fs w1).
Proof.
  intros Hwf HG Hsite Hsrc.
  destruct (Generate_split _ _ _ HG) as (wp & Hprep & Hrender).
  (* the first run *)
  assert (Hmk : ∃ t0, MkdirAll (Dest (site w)) (fs w) = Some t0).
  { revert Hprep. unfold prep. unfold bind at 1, gets at 1.
    unfold orReturn at 1, bind at 1, sysCall.
    destruct (MkdirAll _ (fs w)) as [t0|]; [eauto|discriminate]. }
  destruct Hmk as [t0 Hmk].
  destruct (prep_total w t0 Hwf Hmk) as (wp' & Hprep' & Hsp & Hwfp & Hp).
  rewrite Hprep in Hprep'. injection Hprep' as <-.
  destruct (render_replay _ _ _ Hrender) as (HS & ops & Hall & Hops & Hagain).
  pose proof (wf_applyOps _ _ _ Hwfp Hops) as Hwf1.
  (* the second run *)
  assert (Hdir : Lstat (Dest (site w1)) (fs w1) = IsDir).
  { rewrite Hsite, <- Hsp. now apply (render_Dest now). }
  assert (Hmk1 : MkdirAll (Dest (site w1)) (fs w1) = Some (fs w1)).
  { unfold Lstat in Hdir.
    destruct (lookup (Dest (site w1)) (fs w1)) as [[d|ents]|] eqn:E; try discriminate.
    eapply MkdirAll_exists, E. }
  destruct (prep_total w1 (fs w1) Hwf1 Hmk1) as (wp2 & Hprep2 & Hsp2 & Hwfp2 & Hp2).
  destruct (applyOps_replay ops (fs wp) (fs w1) (fs wp2) Hops) as (F2 & HF2 & Hsame).
  { intros q. rewrite Hp2, Hp, Hsite.
    destruct (erased (site w) q); [now left|now right]. }
  { intros from Hr Hw. apply (Hsrc from).
    - rewrite <- Hsp. eapply allowed_readFrom; eauto.
    - rewrite <- Hsp. eapply allowed_written; eauto. }
  assert (Hrender2 : render now wp2 = Done (None, mkWorld (site w1) F2)).
  { apply Hagain; [congruence|exact HF2]. }
  exists (mkWorld (site w1) F2). split; [|split; [reflexivity|exact Hsame]].
  change (Generate now) with (orReturn prep (render now)).
  unfold orReturn at 1, bind at 1. now rewrite Hprep2.
Qed.

End Twice.

Lemma wf_treeBlog : wf treeBlog.
Proof.
  repeat (split || constructor || (rewrite ?elem_of_cons, ?elem_of_nil; intuition discriminate)).
Qed.

Lemma Generate_twice_witness :
  ∃ w2, Generate 9 (mkWorld siteBlog (treeBlogAt "9")) = Done (None, w2)
        ∧ site w2 = site (mkWorld siteBlog (treeBlogAt "9"))
        ∧ forall q, Lstat q (fs w2) = Lstat q (fs (mkWorld siteBlog (treeBlogAt "9"))).
Proof.
  apply (Generate_twice 9 worldBlog (mkWorld siteBlog (treeBlogAt "9")) wf_treeBlog);
    [reflexivity|reflexivity|].
  intros from [<-|[]] [E|[E|[E|[]]]]; discriminate E.
Defined.

(** C3, as the claim has it, fails: the second run of [Generate] on the
    unchanged site, a second later, writes a feed with other bytes. *)
Lemma Generate_twice_feed_differs :
  Generate 9 worldBlog = Done (None, mkWorld siteBlog (treeBlogAt "9"))
  ∧ Generate 10 (mkWorld siteBlog (treeBlogAt "9"))
    = Done (None, mkWorld siteBlog (treeBlogAt "10"))
  ∧ Lstat ["site"; "atom.xml"] (treeBlogAt "9")
    <> Lstat ["site"; "atom.xml"] (treeBlogAt "10").
Proof. split; [reflexivity|]. split; [reflexivity|]. discriminate. Qed.

Lemma returns_and {St A} (c : M St A) st (Q1 Q2 : A -> St -> Prop) :
  returns c st Q1 -> returns c st Q2 -> returns c st (fun a st' => Q1 a st' ∧ Q2 a st').
Proof. unfold returns. destruct (c st) as [[a st']|]; auto. Qed.

Section ScanAll.
Context `{Ext : Externals}.

(** The walker of [read] on a file, when it returns nil: what it adds to
    the pages, to the static files and to the local list of templates. *)
Lemma readWalker_lists s0 t0 rel st :
  sameSettings s0 (site (fst st)) -> fs (fst st) = t0 ->
  returns (readWalker rel (Some false) None) st (fun err st' =>
    err = None ->
    pages (site (fst st'))
    = pages (site (fst st)) ++ match pageAt s0 t0 rel with Some p => [p] | None => [] end
    ∧ files (site (fst st'))
      = files (site (fst st))
        ++ (if isStaticFile (relString rel) then [relString rel] else [])
    ∧ snd st'
      = snd st ++ (if isTemplateFile (relString rel) then [Src s0 ++ rel] else [])).
Proof.
  intros (HSrc & HDest & HConf & Hig & Htp) Ht.
  unfold readWalker, pageAt, isPageFile, isStaticFile, isTemplateFile.
  apply returns_bind, returns_gets. cbn beta iota zeta.
  apply returns_bind, returns_ret. cbn [andb].
  destruct (isHiddenOrTemp (relString rel)); cbn [negb andb].
  { apply returns_ret. intros _. now rewrite !app_nil_r. }
  destruct (isTemplate (relString rel)); cbn [negb andb].
  { apply returns_bind, returns_modify, returns_ret. intros _. cbn.
    rewrite HSrc, !app_nil_r. auto. }
  destruct (isPost (relString rel)); cbn [negb andb].
  - apply returns_bind, returns_GetString. intros permalink.
    apply returns_bind, returns_gets.
    destruct (ReadFile _ _) as [d|]; cbn [from_option].
    + destruct (ParsePost _ d _) as [post|msg].
      * apply returns_bind. unfold liftW, modify, onSite, returns. cbn.
        intros _. now rewrite !app_nil_r.
      * apply returns_ret. discriminate.
    + apply returns_ret. discriminate.
  - destruct (isPage (relString rel)); cbn [negb andb].
    + apply returns_bind, returns_gets. rewrite HSrc, Ht.
      destruct (ReadFile _ _) as [d|]; cbn [from_option].
      * destruct (ParsePage _ d) as [page|msg].
        -- apply returns_bind. unfold liftW, modify, onSite, returns. cbn.
           intros _. now rewrite !app_nil_r.
        -- apply returns_ret. discriminate.
      * apply returns_ret. discriminate.
    + destruct (isStatic (relString rel)).
      * apply returns_bind. unfold liftW, modify, onSite, returns. cbn.
        intros _. now rewrite !app_nil_r.
      * apply returns_ret. intros _. now rewrite !app_nil_r.
Qed.

Lemma forEach_lists s0 t0 l : forall st,
  sameSettings s0 (site (fst st)) -> fs (fst st) = t0 ->
  returns (forEach readWalker l) st (fun err st' =>
    err = None ->
    pages (site (fst st')) = pages (site (fst st)) ++ omap (pageAt s0 t0) l
    ∧ files (site (fst st'))
      = files (site (fst st))
        ++ map relString (List.filter (fun rel => isStaticFile (relString rel)) l)
    ∧ snd st'
      = snd st ++ map (fun rel => Src s0 ++ rel)
                    (List.filter (fun rel => isTemplateFile (relString rel)) l)).
Proof.
  induction l as [|rel l IH]; intros st Hs Ht; cbn [forEach].
  - apply returns_ret. intros _. cbn. now rewrite !app_nil_r.
  - apply returns_orReturn.
    eapply returns_mono;
      [apply (returns_and _ _ _ _ (readWalker_file s0 t0 rel st Hs Ht)
                (readWalker_lists s0 t0 rel st Hs Ht))|].
    intros [e|] st' (([Hs' Ht'] & _ & _) & Hl); [discriminate|].
    destruct (Hl eq_refl) as (Hp & Hf & Hy).
    eapply returns_mono; [apply IH; assumption|].
    intros err st'' Hl' ->. destruct (Hl' eq_refl) as (Hp' & Hf' & Hy').
    rewrite Hp', Hf', Hy', Hp, Hf, Hy, <- !app_assoc. cbn [List.filter].
    change (omap (pageAt s0 t0) (rel :: l))
      with (match pageAt s0 t0 rel with
            | Some p => p :: omap (pageAt s0 t0) l
            | None => omap (pageAt s0 t0) l
            end).
    destruct (pageAt s0 t0 rel), (isStaticFile (relString rel)),
      (isTemplateFile (relString rel)); auto.
Qed.

(** The scan, when it returns no error: the tree and the settings of the
    site are as before, the posts of the tree are put before the posts
    there were, its pages and static files after those there were, and
    the local list holds its template files. *)
Lemma scan_ok w layouts w1 :
  scan w = Done ((None, layouts), w1) ->
  (sameSettings (site w) (site w1) ∧ fs w1 = fs w)
  ∧ posts (site w1) = rev (walkedPosts (site w) (fs w)) ++ posts (site w)
  ∧ pages (site w1) = pages (site w) ++ walkedPages (site w) (fs w)
  ∧ files (site w1) = files (site w) ++ walkedStatic (site w) (fs w)
  ∧ layouts = walkedLayouts (site w) (fs w).
Proof.
  unfold scan. intros H.
  pose proof (Walk_read w) as R. unfold returns in R.
  assert (L : returns (Walk (fun _ _ => false) readWalker (lookup (Src (site w)) (fs w)))
                (w, []) (fun err st' =>
                  err = None ->
                  pages (site (fst st')) = pages (site w) ++ walkedPages (site w) (fs w)
                  ∧ files (site (fst st')) = files (site w) ++ walkedStatic (site w) (fs w)
                  ∧ snd st' = walkedLayouts (site w) (fs w))).
  { unfold Walk, walkedPages, walkedStatic, walkedLayouts, scannedFiles.
    destruct (lookup (Src (site w)) (fs w)) as [n|].
    - unfold returns.
      rewrite (walk_forEach readWalker (readPrune (site w))
                 (fun st => sameSettings (site w) (site (fst st)) ∧ fs (fst st) = fs w)).
      + apply (forEach_lists (site w) (fs w)); [apply sameSettings_refl|reflexivity].
      + intros rel st [Hs _]. apply readWalker_dir, Hs.
      + intros rel st [Hs Ht].
        eapply returns_mono; [apply (readWalker_file (site w) (fs w)); assumption|].
        intros err st' (HI & He & _). now split.
      + split; [apply sameSettings_refl|reflexivity].
    - unfold returns, readWalker, bind, gets, ret. cbn.
      intros _. now rewrite !app_nil_r. }
  unfold returns in L.
  destruct (Walk _ _ _ _) as [[err [w' ly]]|]; [|discriminate].
  injection H as -> -> ->. destruct R as (HI & Hp).
  destruct (L eq_refl) as (Hpg & Hf & Hy). cbn in *. auto 10.
Qed.

(** [read], when it returns no error. *)
Lemma read_ok now w w' :
  read now w = Done (None, w') ->
  fs w' = fs w
  ∧ Src (site w') = Src (site w) ∧ Dest (site w') = Dest (site w)
  ∧ ignore (site w') = ignore (site w)
  ∧ posts (site w') = rev (walkedPosts (site w) (fs w)) ++ posts (site w)
  ∧ pages (site w') = pages (site w) ++ walkedPages (site w) (fs w)
  ∧ files (site w') = files (site w) ++ walkedStatic (site w) (fs w)
  ∧ Conf (site w') = withParams now (posts (site w')) (Conf (site w))
  ∧ match walkedLayouts (site w) (fs w) with
    | [] => templ (site w') = templ (site w)
    | layouts =>
        ∃ ts, from_option ParseFiles (Fail ENOENT) (readAll (fs w) layouts) = Ok ts
              ∧ templ (site w') = Some ts
    end.
Proof.
  unfold read. unfold bind at 1.
  destruct (scan w) as [[[[e|] layouts] w1]|] eqn:Hscan; try discriminate.
  destruct (scan_ok _ _ _ Hscan) as ([(HS & HD & HC & HI & HT) Hfs] & Hp & Hpg & Hf & ->).
  unfold orReturn, bind at 1.
  destruct (compileTemplates (walkedLayouts (site w) (fs w)) w1) as [[[e|] w2]|] eqn:Hc;
    try discriminate.
  intros H.
  assert (E : w' = onSite (setConf (withParams now (posts (site w2)) (Conf (site w2)))) w2).
  { revert H. unfold setParams, calculateTags, calculateCategories, ConfSet.
    unfold bind, gets, modify, ret. cbn. intros [= <-]. destruct w2 as [[] ?]. reflexivity. }
  assert (C : fs w2 = fs w1 ∧ Src (site w2) = Src (site w1) ∧ Dest (site w2) = Dest (site w1)
              ∧ ignore (site w2) = ignore (site w1) ∧ posts (site w2) = posts (site w1)
              ∧ pages (site w2) = pages (site w1) ∧ files (site w2) = files (site w1)
              ∧ Conf (site w2) = Conf (site w1)
              ∧ match walkedLayouts (site w) (fs w) with
                | [] => templ (site w2) = templ (site w1)
                | layouts =>
                    ∃ ts, from_option ParseFiles (Fail ENOENT) (readAll (fs w1) layouts) = Ok ts
                          ∧ templ (site w2) = Some ts
                end).
  { revert Hc. unfold compileTemplates.
    destruct (walkedLayouts (site w) (fs w)) as [|l0 ls].
    - intros [= <-]. auto 10.
    - unfold bind at 1, gets at 1.
      destruct (from_option _ _ _) as [ts|msg]; unfold bind, modify, ret; [|discriminate].
      intros [= <-]. cbn. eauto 12. }
  destruct C as (Cfs & CS & CD & CI & Cp & Cpg & Cf & CC & CT).
  subst w'. cbn [fs site onSite setConf Src Dest ignore posts pages files Conf templ].
  rewrite Cfs, CS, CD, CI, Cp, Cpg, Cf, CC, Hfs, HS, HD, HI, HC.
  repeat (split; [assumption || reflexivity|]).
  revert CT. destruct (walkedLayouts (site w) (fs w)); rewrite ?Hfs; congruence.
Qed.

End ScanAll.

(** ** The scan: what a successful [read] leaves *)

Section ScanExtras.
Context `{Ext : Externals}.

(** After [read] has returned without an error, the page list is the
    pages there were followed by the pages of the source tree in the
    order in which the walk met them. *)
Theorem read_pages_order now w w' :
  read now w = Done (None, w') ->
  pages (site w') = pages (site w) ++ walkedPages (site w) (fs w).
Proof. intros H. apply (read_ok _ _ _ H). Qed.

(** After [read] has returned without an error, the list of static
    files is the files there were followed by those of the source tree
    that reach the last case of the switch, by their paths below the
    source root and in the order of the walk: each is a file the
    classification calls static and neither hidden nor temporary, nor a
    template, a post or a page. *)
Theorem read_static_files now w w' :
  read now w = Done (None, w') ->
  files (site w') = files (site w) ++ walkedStatic (site w) (fs w)
  ∧ forall f, In f (walkedStatic (site w) (fs w)) ->
      isHiddenOrTemp f = false ∧ isTemplate f = false ∧ isPost f = false
      ∧ isPage f = false ∧ isStatic f = true.
Proof.
  intros H. split; [apply (read_ok _ _ _ H)|].
  intros f Hin. unfold walkedStatic in Hin.
  apply in_map_iff in Hin as (rel & <- & Hin).
  apply filter_In in Hin as [_ Hst]. unfold isStaticFile in Hst.
  destruct (isHiddenOrTemp _), (isTemplate _), (isPost _), (isPage _), (isStatic _);
    try discriminate Hst; auto.
Qed.

(** After [read] has returned without an error, the configuration holds
    the post list under [posts], the time of the call under [time], and
    the posts grouped by tag and by category under [tags] and
    [categories]; every other key is as it was. *)
Theorem read_params now w w' :
  read now w = Done (None, w') ->
  Conf (site w') !! "posts" = Some (VPages (posts (site w')))
  ∧ Conf (site w') !! "time" = Some (VTime now)
  ∧ Conf (site w') !! "tags" = Some (VIndex (groupBy GetTags (posts (site w'))))
  ∧ Conf (site w') !! "categories"
    = Some (VIndex (groupBy GetCategories (posts (site w'))))
  ∧ forall key, ~ In key ["posts"; "time"; "tags"; "categories"] ->
      Conf (site w') !! key = Conf (site w) !! key.
Proof.
  intros H. destruct (read_ok _ _ _ H) as (_ & _ & _ & _ & _ & _ & _ & -> & _).
  unfold withParams. repeat split.
  - now rewrite !lookup_insert_ne, lookup_insert_eq by discriminate.
  - now rewrite !lookup_insert_ne, lookup_insert_eq by discriminate.
  - now rewrite lookup_insert_ne, lookup_insert_eq by discriminate.
  - now rewrite lookup_insert_eq.
  - intros key Hk. cbn in Hk.
    rewrite !lookup_insert_ne; [reflexivity|..]; intros <-; tauto.
Qed.

(** After [Reload] has returned without an error: when the walk met no
    template file the template set is nil; otherwise it is the set that
    [ParseFiles] made of the template files, in the order of the walk. *)
Theorem Reload_templates now w w' :
  Reload now w = Done (None, w') ->
  match walkedLayouts (site w) (fs w) with
  | [] => templ (site w') = None
  | layouts =>
      ∃ ts, from_option ParseFiles (Fail ENOENT) (readAll (fs w) layouts) = Ok ts
            ∧ templ (site w') = Some ts
  end.
Proof.
  rewrite Reload_read. intros H.
  destruct (read_ok _ _ _ H) as (_ & _ & _ & _ & _ & _ & _ & _ & HT).
  exact HT.
Qed.

(** A source directory that does not exist is no error: the walker of
    [read] answers nil to the error of the walk, and [read] returns nil
    with the lists and the template set as they were, and the
    parameters set. *)
Theorem read_missing_source now w :
  lookup (Src (site w)) (fs w) = None ->
  read now w
  = Done (None, onSite (setConf (withParams now (posts (site w)) (Conf (site w)))) w).
Proof.
  intros H. unfold read, scan. unfold bind at 1. rewrite H.
  destruct w as [[] t]. reflexivity.
Qed.

(** A source directory that is hidden or temporary is skipped as any
    other such directory: [read] looks at none of its files and returns
    nil with the lists and the template set as they were. *)
Theorem read_hidden_source now w ents :
  lookup (Src (site w)) (fs w) = Some (Dir ents) ->
  isHiddenOrTemp (pathString (Src (site w))) = true ->
  read now w
  = Done (None, onSite (setConf (withParams now (posts (site w)) (Conf (site w)))) w).
Proof.
  intros H Hh. unfold read, scan. unfold bind at 1. rewrite H.
  unfold Walk. cbn [walk isDirNode]. unfold bind at 1.
  rewrite (readWalker_dir (site w)) by reflexivity.
  unfold readPrune. rewrite app_nil_r, Hh. cbn [isDirNode isSkipDir andb].
  destruct w as [[] t]. reflexivity.
Qed.

(** The walker of [read] on a post file, under a permalink that is not
    a string. *)
Lemma readWalker_bad_permalink s0 v rel st :
  Conf (site (fst st)) = Conf s0 ->
  Conf s0 !! "permalink" = Some v ->
  (forall p, v <> VString p) ->
  isPostFile (relString rel) = true ->
  readWalker rel (Some false) None st = Panicked.
Proof.
  intros HC Hv Hns Hp. unfold isPostFile in Hp.
  unfold readWalker, bind, gets, IsDirOf, ret. cbn.
  destruct (isHiddenOrTemp _); [discriminate|].
  destruct (isTemplate _); [discriminate|].
  destruct (isPost _); [|discriminate].
  unfold GetString. rewrite HC, Hv.
  destruct v; try reflexivity. now destruct (Hns s).
Qed.

Lemma forEach_bad_permalink s0 t0 v l : forall st,
  sameSettings s0 (site (fst st)) -> fs (fst st) = t0 ->
  Conf s0 !! "permalink" = Some v ->
  (forall p, v <> VString p) ->
  (∃ rel, In rel l ∧ isPostFile (relString rel) = true) ->
  forall st', forEach readWalker l st <> Done (None, st').
Proof.
  induction l as [|x l IH]; intros st Hs Ht Hv Hns (rel & Hin & Hp) st'.
  - destruct Hin.
  - cbn [forEach]. unfold orReturn, bind.
    pose proof (readWalker_file s0 t0 x st Hs Ht) as R. unfold returns in R.
    destruct (decide (isPostFile (relString x) = true)) as [Hx|Hx].
    + rewrite (readWalker_bad_permalink s0 v x st); [discriminate| |assumption..].
      apply Hs.
    + destruct (readWalker x (Some false) None st) as [[[e|] st1]|]; try discriminate.
      destruct R as ([Hs1 Ht1] & _). apply IH; try assumption.
      exists rel. split; [|exact Hp]. destruct Hin as [->|Hin]; [contradiction|exact Hin].
Qed.

Lemma read_permalink_stuck now w v rel :
  Conf (site w) !! "permalink" = Some v ->
  (forall p, v <> VString p) ->
  In rel (scannedFiles (site w) (fs w)) ->
  isPostFile (relString rel) = true ->
  forall w', read now w <> Done (None, w').
Proof.
  intros Hv Hns Hin Hp w' H.
  unfold read in H. unfold bind at 1 in H.
  destruct (scan w) as [[[[e|] layouts] w1]|] eqn:Hscan; try discriminate.
  clear H. revert Hscan. unfold scan.
  unfold scannedFiles in Hin. unfold Walk.
  destruct (lookup (Src (site w)) (fs w)) as [n|]; [|destruct Hin].
  rewrite (walk_forEach readWalker (readPrune (site w))
             (fun st => sameSettings (site w) (site (fst st)) ∧ fs (fst st) = fs w)).
  - destruct (forEach readWalker _ _) as [[[e|] [w2 ly]]|] eqn:E; try discriminate.
    intros _.
    apply (forEach_bad_permalink (site w) (fs w) v _ (w, [])) in E; try assumption.
    + apply sameSettings_refl.
    + reflexivity.
    + eauto.
  - intros r st [Hs _]. apply readWalker_dir, Hs.
  - intros r st [Hs Ht].
    eapply returns_mono; [apply (readWalker_file (site w) (fs w)); assumption|].
    intros err st' (HI & He & _). now split.
  - split; [apply sameSettings_refl|reflexivity].
Qed.

(** A permalink of the configuration that is not a string makes the
    scan fail on the first post: when the walk reaches a post file,
    [read] panics on the type assertion of [GetString], unless an
    earlier file has made it return an error; it does not return nil. *)
Theorem read_bad_permalink now w v rel :
  Conf (site w) !! "permalink" = Some v ->
  (forall p, v <> VString p) ->
  In rel (scannedFiles (site w) (fs w)) ->
  isPostFile (relString rel) = true ->
  read now w = Panicked ∨ ∃ e w', read now w = Done (Some e, w').
Proof.
  intros Hv Hns Hin Hp.
  pose proof (read_permalink_stuck now w v rel Hv Hns Hin Hp) as N.
  destruct (read now w) as [[[e|] w']|]; [right; eauto| |now left].
  now destruct (N w').
Qed.

(** [NewSite], when it returns a site: the source is the one given, the
    destination is the one given when the configuration has no [dest]
    or a nil one, the ignore list is the [destignore] of the
    configuration (nil when there is none), and the lists are those of
    the source tree: posts in the reverse of the order of the walk,
    pages and static files in its order. *)
Theorem NewSite_site src dest conf now t s :
  NewSite src dest conf now t = Done (inl s) ->
  Src s = src
  ∧ (conf !! "dest" = None ∨ conf !! "dest" = Some VNil -> Dest s = dest)
  ∧ ignore s = GetStrings conf "destignore"
  ∧ let s0 := mkSite src (Dest s) conf [] [] [] None (ignore s) in
    posts s = rev (walkedPosts s0 t)
    ∧ pages s = walkedPages s0 t
    ∧ files s = walkedStatic s0 t.
Proof.
  unfold NewSite, ConfGet. intros H.
  assert (D : ∃ dest' w',
             read now (mkWorld (mkSite src dest' conf [] [] [] None
                                  (GetStrings conf "destignore")) t) = Done (None, w')
             ∧ s = site w'
             ∧ (conf !! "dest" = None ∨ conf !! "dest" = Some VNil -> dest' = dest)).
  { destruct (notNil (conf !! "dest")) eqn:Hn.
    - destruct (bind _ _ tt) as [[dest' []]|]; [|discriminate].
      destruct (read now _) as [[[e|] w']|] eqn:Hr; try discriminate.
      injection H as <-. exists dest', w'. repeat split; [exact Hr|].
      intros [E|E]; rewrite E in Hn; discriminate Hn.
    - unfold ret in H.
      destruct (read now _) as [[[e|] w']|] eqn:Hr; try discriminate.
      injection H as <-. exists dest, w'. repeat split; exact Hr. }
  destruct D as (dest' & w' & Hr & -> & Hd).
  destruct (read_ok _ _ _ Hr) as (_ & HS & HD & HI & Hp & Hpg & Hf & _).
  cbn [site fs Src Dest ignore posts pages files app] in *.
  rewrite app_nil_r in Hp.
  split; [exact HS|]. split; [intros Hnone; rewrite HD; auto|].
  split; [exact HI|]. cbn zeta. rewrite HD, HI. auto.
Qed.

Lemma addLabel_lookup post m label c :
  addLabel post m label !! c
  = if String.eqb c label
    then Some (default [] (m !! c) ++ [post])
    else m !! c.
Proof.
  unfold addLabel. destruct (String.eqb_spec c label) as [->|Hne].
  - destruct (m !! label) eqn:E; now rewrite lookup_insert_eq.
  - destruct (m !! label); rewrite lookup_insert_ne; congruence.
Qed.

Lemma joined_joined o l1 l2 : joined (joined o l1) l2 = joined o (l1 ++ l2).
Proof.
  destruct o as [x|], l1 as [|a l1], l2 as [|b l2]; cbn;
    rewrite ?app_nil_r, <- ?app_assoc; reflexivity.
Qed.

Lemma addLabels_lookup post c ls : forall m,
  fold_left (addLabel post) ls m !! c
  = joined (m !! c) (map (fun _ => post) (List.filter (String.eqb c) ls)).
Proof.
  induction ls as [|label ls IH]; intros m; cbn [fold_left List.filter].
  - destruct (m !! c); cbn; now rewrite ?app_nil_r.
  - rewrite IH, addLabel_lookup.
    destruct (String.eqb c label); [|reflexivity].
    cbn [map]. destruct (m !! c) as [x|]; cbn [default joined app].
    + destruct (map _ _); cbn; now rewrite <- ?app_assoc.
    + destruct (map _ _); reflexivity.
Qed.

Lemma groupBy_lookup labels c l : forall m,
  fold_left (fun m post => fold_left (addLabel post) (labels post) m) l m !! c
  = joined (m !! c) (labelled labels c l).
Proof.
  induction l as [|post l IH]; intros m; cbn [fold_left labelled flat_map].
  - destruct (m !! c); cbn; now rewrite ?app_nil_r.
  - rewrite IH, addLabels_lookup, joined_joined. reflexivity.
Qed.

(** [calculateCategories] and [calculateTags] set the keys [categories]
    and [tags] of the configuration to an index that has, for a label,
    the posts that carry it, in the order of the post list (a post that
    lists a label twice is there twice), and nothing for a label that no
    post carries. *)
Theorem calculate_index w :
  (∃ m, calculateCategories w
        = Done (tt, onSite (setConf (<["categories" := VIndex m]> (Conf (site w)))) w)
        ∧ forall c, m !! c = match labelled GetCategories c (posts (site w)) with
                             | [] => None
                             | ps => Some ps
                             end)
  ∧ (∃ m, calculateTags w
          = Done (tt, onSite (setConf (<["tags" := VIndex m]> (Conf (site w)))) w)
          ∧ forall c, m !! c = match labelled GetTags c (posts (site w)) with
                               | [] => None
                               | ps => Some ps
                               end).
Proof.
  split; eexists; (split; [reflexivity|]); intros c; unfold groupBy;
    rewrite groupBy_lookup, lookup_empty; cbn;
    now destruct (labelled _ c _).
Qed.

(** [Config.Set] and [Config.GetString]: after a key has been set,
    [GetString] returns the value when it is a string and panics on the
    type assertion when it is not; the other keys hold what they
    held. *)
Theorem Set_GetString key val w :
  ∃ w', ConfSet key val w = Done (tt, w')
        ∧ GetString (Conf (site w')) key w'
          = match val with VString s => Done (s, w') | _ => Panicked end
        ∧ forall key', key' <> key ->
            ConfGet (Conf (site w')) key' = ConfGet (Conf (site w)) key'.
Proof.
  eexists. split; [reflexivity|]. cbn [site onSite setConf Conf]. split.
  - unfold GetString. rewrite lookup_insert_eq. now destruct val.
  - intros key' Hne. unfold ConfGet. now rewrite lookup_insert_ne.
Qed.

End ScanExtras.

Lemma read_pages_order_witness :
  pages siteFull = pages (site worldFull) ++ walkedPages (site worldFull) (fs worldFull).
Proof.
  apply (read_pages_order 9 worldFull (mkWorld siteFull treeFull)). reflexivity.
Defined.

Lemma read_static_files_witness :
  files siteFull = files (site worldFull) ++ walkedStatic (site worldFull) (fs worldFull).
Proof.
  apply (read_static_files 9 worldFull (mkWorld siteFull treeFull)). reflexivity.
Defined.

Lemma read_params_witness :
  Conf siteFull !! "posts" = Some (VPages (posts siteFull)).
Proof.
  apply (read_params 9 worldFull (mkWorld siteFull treeFull)). reflexivity.
Defined.

Lemma Reload_templates_witness :
  ∃ ts, from_option ParseFiles (Fail ENOENT)
          (readAll treeFull [["src"; "_layouts"; "post.html"]]) = Ok ts
        ∧ templ siteFull = Some ts.
Proof.
  apply (Reload_templates 9 worldFull (mkWorld siteFull treeFull)). reflexivity.
Defined.

Lemma read_missing_source_witness :
  read 9 (mkWorld siteFresh (Dir []))
  = Done (None, onSite (setConf (withParams 9 [] ∅)) (mkWorld siteFresh (Dir []))).
Proof. apply (read_missing_source 9 (mkWorld siteFresh (Dir []))). reflexivity. Defined.

Lemma read_hidden_source_witness :
  read 9 (mkWorld siteHidden treeHidden)
  = Done (None, onSite (setConf (withParams 9 [] ∅)) (mkWorld siteHidden treeHidden)).
Proof.
  apply (read_hidden_source 9 (mkWorld siteHidden treeHidden)
           [("about.md", File "--- about")]); reflexivity.
Defined.

Lemma read_bad_permalink_witness :
  read 9 (mkWorld siteBadPermalink treeFull) = Panicked
  ∨ ∃ e w', read 9 (mkWorld siteBadPermalink treeFull) = Done (Some e, w').
Proof.
  apply (read_bad_permalink 9 (mkWorld siteBadPermalink treeFull)
           (VStrings ["date"]) ["_posts"; "2021-03-05-hello-world.md"]).
  - reflexivity.
  - intros p. discriminate.
  - vm_compute. right. left. reflexivity.
  - reflexivity.
Defined.

Lemma NewSite_site_witness : Src siteFull = ["src"].
Proof.
  apply (NewSite_site ["src"] ["site"] ∅ 9 treeFull siteFull). reflexivity.
Defined.

(** ** The rendering pass: what it writes *)

Lemma MkdirAll_file d X X' q b :
  MkdirAll d X = Some X' -> Lstat q X = IsFile b -> Lstat q X' = IsFile b.
Proof.
  intros H Hq. rewrite (MkdirAll_Lstat _ _ _ q H).
  destruct (decide (q `prefix_of` d)) as [Hp|]; [|exact Hq].
  now destruct (MkdirAll_inv _ _ _ _ b H Hp).
Qed.

Lemma WriteFile_file f data X X' q b :
  WriteFile f data X = Some X' -> Lstat q X = IsFile b -> q <> f ->
  Lstat q X' = IsFile b.
Proof.
  intros H Hq Hne. rewrite (WriteFile_Lstat _ _ _ _ q H).
  now destruct (decide (q = f)).
Qed.

Section RenderExtras.
Context `{Ext : Externals}.

Lemma returns_siteOnly {A} (c : M World A) w (Q : A -> World -> Prop) :
  siteOnly c ->
  (forall r w', fs w' = fs w -> sameContent (site w) (site w') -> Q r w') ->
  returns c w Q.
Proof.
  intros Hc HQ. eapply returns_mono; [apply Hc|]. intros r w' (Hf & Hs & _). auto.
Qed.

(** A turn of the loop of [writePages]: the content of the site stays,
    every file stays a file with its bytes but the one the item is
    written to, and that one is a file when the turn has no error. *)
Lemma writePage_effect page feed w :
  returns (writePage page feed) w (fun r w' =>
    sameContent (site w) (site w')
    ∧ (forall q b, Lstat q (fs w) = IsFile b -> q <> outFile (site w) page ->
                   Lstat q (fs w') = IsFile b)
    ∧ (isOk r = true -> ∃ out, Lstat (outFile (site w) page) (fs w') = IsFile out)).
Proof.
  unfold writePage, outFile.
  apply returns_bind, returns_gets.
  apply returns_bindR, returns_sysCallR.
  2:{ intros _. split; [apply sameContent_refl|]. split; [auto|discriminate]. }
  intros t Ht.
  apply returns_bindR, returns_siteOnly; [apply siteOnly_expandBody|].
  intros [content|msg] w1 Hf1 Hs1; cbn [fs site setFs] in Hf1, Hs1.
  2:{ split; [exact Hs1|]. split; [|discriminate].
      intros q b Hq _. rewrite Hf1. eapply MkdirAll_file; eauto. }
  apply returns_bind, returns_siteOnly; [apply siteOnly_applyLayout|].
  intros out w2 Hf2 Hs2.
  assert (Hs12 : sameContent (site w) (site w2)) by (eapply sameContent_trans; eauto).
  apply returns_bindR, returns_sysCallR.
  2:{ intros _. split; [exact Hs12|]. split; [|discriminate].
      intros q b Hq _. rewrite Hf2, Hf1. eapply MkdirAll_file; eauto. }
  intros t2 Ht2.
  apply returns_bind, returns_siteOnly; [apply siteOnly_postTimeOf|].
  intros pt w3 Hf3 Hs3. cbn [fs site setFs] in Hf3, Hs3.
  assert (Q : sameContent (site w) (site w3)
              ∧ (forall q b, Lstat q (fs w) = IsFile b ->
                             q <> Join (Dest (site w)) (outUrl page) ->
                             Lstat q (fs w3) = IsFile b)
              ∧ ∃ out, Lstat (Join (Dest (site w)) (outUrl page)) (fs w3) = IsFile out).
  { split; [eapply sameContent_trans; eauto|]. rewrite Hf3. rewrite Hf2, Hf1 in Ht2. split.
    - intros q b Hq Hne. eapply WriteFile_file; eauto. eapply MkdirAll_file; eauto.
    - exists out. rewrite (WriteFile_Lstat _ _ _ _ _ Ht2).
      now destruct (decide _). }
  destruct Q as (Q1 & Q2 & Q3).
  destruct (IsZero pt); apply returns_ret; auto.
Qed.

Lemma expandBody_markdown page url w :
  isMarkdown (GetExt page) = true ->
  expandBody page url w = Done (Ok (GetContent page), w).
Proof. intros H. unfold expandBody, bind, gets, ret. cbn. now rewrite H. Qed.

Lemma applyLayout_plain page content w :
  GetLayout page = "" ∨ GetLayout page = "nil" ->
  applyLayout page content w = Done (content, w).
Proof.
  intros H. unfold applyLayout, bind, gets, ret. cbn.
  now destruct H as [-> | ->].
Qed.

(** A markdown item without a layout is written as it is. *)
Lemma writePage_verbatim page feed w :
  isMarkdown (GetExt page) = true ->
  GetLayout page = "" ∨ GetLayout page = "nil" ->
  returns (writePage page feed) w (fun r w' =>
    isOk r = true ->
    Lstat (outFile (site w) page) (fs w') = IsFile (GetContent page)).
Proof.
  intros Hmd Hl. unfold writePage, outFile.
  apply returns_bind, returns_gets.
  apply returns_bindR, returns_sysCallR; [|discriminate].
  intros t Ht.
  apply returns_bindR. unfold returns at 1. rewrite expandBody_markdown by exact Hmd.
  apply returns_bind. unfold returns at 1. rewrite applyLayout_plain by exact Hl.
  apply returns_bindR, returns_sysCallR; [|discriminate].
  intros t2 Ht2. cbn [fs site setFs] in *.
  apply returns_bind, returns_siteOnly; [apply siteOnly_postTimeOf|].
  intros pt w3 Hf3 _. cbn [fs site setFs] in Hf3.
  assert (Q : Lstat (Join (Dest (site w)) (outUrl page)) (fs w3) = IsFile (GetContent page)).
  { rewrite Hf3, (WriteFile_Lstat _ _ _ _ _ Ht2). now destruct (decide _). }
  destruct (IsZero pt); apply returns_ret; auto.
Qed.

Lemma writeEach_effect l : forall feed w,
  returns (writeEach l feed) w (fun r w' =>
    sameContent (site w) (site w')
    ∧ (forall q b, Lstat q (fs w) = IsFile b ->
                   (forall p, In p l -> q <> outFile (site w) p) ->
                   Lstat q (fs w') = IsFile b)
    ∧ (isOk r = true ->
       forall p, In p l -> ∃ out, Lstat (outFile (site w) p) (fs w') = IsFile out)).
Proof.
  induction l as [|page l IH]; intros feed w; cbn [writeEach].
  - apply returns_ret. split; [apply sameContent_refl|]. split; [auto|intros _ p []].
  - apply returns_bindR.
    eapply returns_mono; [apply writePage_effect|].
    intros [feed'|msg] w1 (Hs1 & Hk1 & Hw1).
    2:{ split; [exact Hs1|]. split; [|discriminate].
        intros q b Hq Hne. apply Hk1; [exact Hq|]. apply Hne. now left. }
    destruct (Hw1 eq_refl) as (out & Hout).
    assert (HD : Dest (site w1) = Dest (site w)) by apply Hs1.
    eapply returns_mono; [apply IH|].
    intros r w2 (Hs2 & Hk2 & Hw2).
    assert (Ho : forall p, outFile (site w1) p = outFile (site w) p)
      by (intros p; unfold outFile; now rewrite HD).
    split; [eapply sameContent_trans; eauto|]. split.
    + intros q b Hq Hne. apply Hk2.
      * apply Hk1; [exact Hq|]. apply Hne. now left.
      * intros p Hp. rewrite Ho. apply Hne. now right.
    + intros Hr p [<-|Hp].
      * destruct (in_dec (List.list_eq_dec string_dec) (outFile (site w) page)
                    (map (outFile (site w)) l)) as [Hin|Hnin].
        -- apply in_map_iff in Hin as (p' & E & Hp'). rewrite <- E, <- Ho.
           now apply Hw2.
        -- exists out. apply Hk2; [exact Hout|].
           intros p' Hp' E. apply Hnin. rewrite E, Ho. now apply in_map.
      * rewrite <- Ho. now apply Hw2.
Qed.

Lemma newFeed_state now w feed w' : newFeed now w = Done (feed, w') -> w' = w.
Proof.
  unfold newFeed, bind, gets, GetString, ret, panic. cbn.
  repeat (match goal with
          | |- context [match ?c !! ?k with _ => _ end] => destruct (c !! k) as [[]|]
          end; try discriminate).
  all: now intros [= _ <-].
Qed.

(** What a run of [writePages] without an error is made of. *)
Lemma writePages_inv now w w' :
  writePages now w = Done (None, w') ->
  ∃ feed0 feed w3 atom t,
    newFeed now w = Done (feed0, w)
    ∧ writeEach (pages (site w) ++ posts (site w)) feed0 w = Done (Ok feed, w3)
    ∧ ToAtom feed = Ok atom
    ∧ WriteFile (Join (Dest (site w3)) feedPath) atom (fs w3) = Some t
    ∧ w' = setFs t w3.
Proof.
  unfold writePages, renderAll. unfold bind at 1 2.
  destruct (newFeed now w) as [[feed0 w0]|] eqn:Hfeed; [|discriminate].
  apply newFeed_state in Hfeed as Hw0. subst w0.
  unfold bind at 1, gets at 1.
  destruct (writeEach _ feed0 w) as [[[feed|msg] w3]|] eqn:Hall; [| |discriminate].
  2:{ unfold bind, gets, ret. discriminate. }
  unfold bind at 1, gets at 1.
  destruct (ToAtom feed) as [atom|msg] eqn:Hatom; [|discriminate].
  unfold orReturn, bind, sysCall.
  destruct (WriteFile _ atom (fs w3)) as [t|] eqn:Ht; [|discriminate].
  intros [= <-]. exists feed0, feed, w3, atom, t. auto.
Qed.

(** After [writePages] has returned without an error every page and
    every post has a file at its URL below the destination, and the file
    [atom.xml] of the destination holds the Atom document of the feed
    that the loop has made. *)
Theorem writePages_outputs now w w' :
  writePages now w = Done (None, w') ->
  (forall p, In p (pages (site w) ++ posts (site w)) ->
     ∃ out, Lstat (outFile (site w) p) (fs w') = IsFile out)
  ∧ ∃ feed w3 atom,
      renderAll now w = Done (Ok feed, w3)
      ∧ ToAtom feed = Ok atom
      ∧ Lstat (Join (Dest (site w)) feedPath) (fs w') = IsFile atom.
Proof.
  intros H. destruct (writePages_inv _ _ _ H) as (feed0 & feed & w3 & atom & t
                                                  & Hfeed & Hall & Hatom & Ht & ->).
  pose proof (returns_elim _ _ _ _ _ (writeEach_effect _ feed0 w) Hall)
    as (Hs & _ & Hw).
  assert (HD : Dest (site w3) = Dest (site w)) by apply Hs.
  rewrite HD in Ht. cbn [fs setFs]. split.
  - intros p Hp. destruct (Hw eq_refl p Hp) as (out & Hout).
    rewrite (WriteFile_Lstat _ _ _ _ _ Ht). destruct (decide _); eauto.
  - exists feed, w3, atom. split; [|split; [exact Hatom|]].
    + unfold renderAll. unfold bind at 1. rewrite Hfeed.
      unfold bind, gets. exact Hall.
    + rewrite (WriteFile_Lstat _ _ _ _ _ Ht). now destruct (decide _).
Qed.

(** A markdown item whose layout is empty or ["nil"] is written as it
    is: after [writePages] has returned without an error, the file at
    its URL holds the content of the item, when no later item and not
    the feed is written to the same file. *)
Theorem writePages_verbatim now w w' pre page rest :
  writePages now w = Done (None, w') ->
  pages (site w) ++ posts (site w) = pre ++ page :: rest ->
  isMarkdown (GetExt page) = true ->
  GetLayout page = "" ∨ GetLayout page = "nil" ->
  (forall p, In p rest -> outFile (site w) page <> outFile (site w) p) ->
  outFile (site w) page <> Join (Dest (site w)) feedPath ->
  Lstat (outFile (site w) page) (fs w') = IsFile (GetContent page).
Proof.
  intros H Hl Hmd Hlay Hrest Hfp.
  destruct (writePages_inv _ _ _ H) as (feed0 & feed & w3 & atom & t
                                        & Hfeed & Hall & Hatom & Ht & ->).
  rewrite Hl, writeEach_app in Hall. unfold bindR at 1, bind at 1 in Hall.
  destruct (writeEach pre feed0 w) as [[[feed1|msg] w1]|] eqn:Hpre; try discriminate.
  cbn [writeEach] in Hall. unfold bindR at 1, bind at 1 in Hall.
  destruct (writePage page feed1 w1) as [[[feed2|msg] w2]|] eqn:Hpage; try discriminate.
  pose proof (returns_elim _ _ _ _ _ (writeEach_effect pre feed0 w) Hpre) as (Hs1 & _).
  pose proof (returns_elim _ _ _ _ _ (writePage_effect page feed1 w1) Hpage) as (Hs2 & _).
  pose proof (returns_elim _ _ _ _ _ (writePage_verbatim page feed1 w1 Hmd Hlay) Hpage eq_refl)
    as Hv.
  pose proof (returns_elim _ _ _ _ _ (writeEach_effect rest feed2 w2) Hall)
    as (Hs3 & Hk3 & _).
  assert (HD1 : Dest (site w1) = Dest (site w)) by apply Hs1.
  assert (HD2 : Dest (site w2) = Dest (site w1)) by apply Hs2.
  assert (HD3 : Dest (site w3) = Dest (site w2)) by apply Hs3.
  unfold outFile in *. rewrite HD1 in Hv. rewrite HD3, HD2, HD1 in Ht.
  cbn [fs setFs]. rewrite (WriteFile_Lstat _ _ _ _ _ Ht).
  destruct (decide _) as [E|_]; [contradiction|].
  apply Hk3; [exact Hv|]. intros p Hp. rewrite HD2, HD1. now apply Hrest.
Qed.

Lemma GetString_bind {B} c key (f : string -> M World B) w :
  bind (GetString c key) f w
  = match c !! key with
    | None => f "" w
    | Some (VString s) => f s w
    | Some _ => Panicked
    end.
Proof. unfold bind, GetString. destruct (c !! key) as [[]|]; reflexivity. Qed.

(** [writePages] reads six keys of the configuration as strings, in
    the set-up of the feed, its first step.  When one of them holds a
    value that is not a string, the type assertion of [GetString]
    fails: the set-up of the feed panics, and with it [writePages],
    which returns no error. *)
Theorem writePages_bad_config now w key v :
  In key feedKeys ->
  Conf (site w) !! key = Some v ->
  (forall s, v <> VString s) ->
  newFeed now w = Panicked ∧ writePages now w = Panicked.
Proof.
  intros Hk Hv Hns.
  assert (F : newFeed now w = Panicked).
  { unfold newFeed. unfold bind at 1, gets at 1.
    repeat (rewrite GetString_bind;
            match goal with
            | |- context [match ?c !! ?k with _ => _ end] =>
                destruct (c !! k) as [[]|] eqn:?
            end;
            lazymatch goal with
            | |- Panicked = Panicked => reflexivity
            | _ => cbn beta
            end).
    all: exfalso; unfold feedKeys in Hk; cbn [In] in Hk.
    all: destruct Hk as [<-|[<-|[<-|[<-|[<-|[<-|[]]]]]]].
    all: match goal with
         | E : ?c !! ?k = _, Hv' : ?c !! ?k = Some ?x, N : forall s, ?x <> VString s |- _ =>
             rewrite Hv' in E;
             first [discriminate E | injection E as ->; exact (N _ eq_refl)]
         end. }
  split; [exact F|].
  unfold writePages, renderAll. unfold bind at 1 2. now rewrite F.
Qed.

(** *** Walks that keep an invariant *)

Section WalkInv.
Context {St : Type}.
Variable gone : path -> St -> bool.
Variable walkFn : path -> FileInfo -> option error -> M St (option error).
Variable Inv : St -> Prop.
Hypothesis step : forall rel fi err st, Inv st ->
  returns (walkFn rel fi err) st (fun _ st' => Inv st').

Lemma walk_inv n : forall rel st, Inv st ->
  returns (walk gone walkFn rel n) st (fun _ st' => Inv st').
Proof.
  induction n as [d|ents IH] using node_induction; intros rel st HI.
  - cbn [walk]. apply returns_bind.
    eapply returns_mono; [apply step, HI|].
    intros [e|] st' HI'; [destruct (_ && _)|]; apply returns_ret; exact HI'.
  - cbn [walk]. apply returns_bind.
    eapply returns_mono; [apply step, HI|].
    intros [e|] st' HI'; [destruct (_ && _); apply returns_ret; exact HI'|].
    apply returns_bind, returns_gets.
    destruct (gone rel st'); [apply step, HI'|].
    clear HI st. revert st' HI'.
    induction IH as [|[name n'] ents Hn _ IHents]; intros st HI.
    + apply returns_ret, HI.
    + cbn [snd] in Hn. rewrite walkNames_cons.
      apply returns_bind, returns_gets. apply returns_bind.
      assert (R : returns
        (if gone (rel ++ [name]) st
         then let* e := walkFn (rel ++ [name]) None (Some ErrNotExist) in
              match e with Some SkipDir => ret None | _ => ret e end
         else let* e := walk gone walkFn (rel ++ [name]) n' in
              match e with
              | Some SkipDir => if isDirNode n' then ret None else ret e
              | _ => ret e
              end) st (fun _ st' => Inv st')).
      { destruct (gone (rel ++ [name]) st); apply returns_bind.
        - eapply returns_mono; [apply step, HI|].
          intros [[|msg]|] st' HI'; apply returns_ret; exact HI'.
        - eapply returns_mono; [apply Hn, HI|].
          intros [[|msg]|] st' HI'; [destruct (isDirNode n')|..];
            apply returns_ret; exact HI'. }
      eapply returns_mono; [exact R|].
      intros [e|] st' HI'; [apply returns_ret, HI'|apply IHents, HI'].
Qed.

End WalkInv.

Lemma site_prepWalker s rel fi err w :
  returns (prepWalker s rel fi err) w (fun _ w' => site w' = site w).
Proof.
  unfold prepWalker. destruct rel as [|c rel]; [reflexivity|].
  destruct (matchIgnore s _).
  - apply returns_bind. destruct fi as [[]|]; cbn; auto.
  - apply returns_bind. destruct fi as [[]|]; cbn; auto.
    + unfold returns, sysCall. now destruct (Remove _ _).
Qed.

Lemma site_prep w : returns prep w (fun _ w' => site w' = site w).
Proof.
  unfold prep. apply returns_bind, returns_gets.
  apply returns_orReturn, returns_sysCall; [|reflexivity].
  intros t Ht. destruct (ignore (site w)).
  - apply returns_orReturn.
    eapply returns_mono.
    + unfold Walk, returns. cbv beta. change (fs (setFs t w)) with t.
      change (site (setFs t w)) with (site w).
      destruct (lookup (Dest (site w)) t) as [n|].
      * apply (walk_inv (prepGone (site w)) (prepWalker (site w))
                 (fun w' => site w' = site w)); [|reflexivity].
        intros rel fi err st HI.
        eapply returns_mono; [apply site_prepWalker|]. cbn. congruence.
      * eapply returns_mono; [apply site_prepWalker|]. cbn. congruence.
    + intros [e|] w' E; [exact E|apply returns_ret, E].
  - apply returns_bind, returns_modify, returns_ret. reflexivity.
Qed.

Lemma site_copyEach s l : forall w,
  returns (copyEach s l) w (fun _ w' => site w' = site w).
Proof.
  induction l as [|file l IH]; intros w; cbn [copyEach].
  - reflexivity.
  - apply returns_orReturn. unfold returns at 1. rewrite copyTo_eq.
    destruct (ReadFile _ _); [|reflexivity].
    destruct (MkdirAll _ _) as [t1|]; [|reflexivity].
    destruct (WriteFile _ _ t1) as [t2|]; [|reflexivity].
    apply (IH (setFs t2 w)).
Qed.

Lemma site_writePages now w :
  returns (writePages now) w (fun _ w' => sameContent (site w) (site w')).
Proof.
  unfold writePages, renderAll.
  apply returns_bind, returns_bind, returns_newFeed. intros feed0 _ _.
  apply returns_bind, returns_gets.
  eapply returns_mono; [apply writeEach_effect|].
  intros r w1 (Hs & _). apply returns_bind, returns_gets.
  destruct r as [feed|msg]; [|exact Hs].
  destruct (ToAtom feed); [|exact Hs].
  apply returns_orReturn, returns_sysCall; intros; exact Hs.
Qed.

(** [Generate] works on the tree: whatever it returns, the site has the
    source and destination paths, the configuration, the posts, pages
    and static files and the ignore list it had.  Of the site only the
    template set can change. *)
Theorem Generate_keeps_content now w err w' :
  Generate now w = Done (err, w') ->
  sameContent (site w) (site w').
Proof.
  apply (returns_elim (Generate now) w (fun _ w' => sameContent (site w) (site w'))).
  unfold Generate.
  apply returns_orReturn. eapply returns_mono; [apply site_prep|].
  intros [e|] w1 E1; [rewrite E1; apply sameContent_refl|].
  apply returns_orReturn. eapply returns_mono; [apply site_writePages|].
  intros [e|] w2 E2; rewrite E1 in E2; [exact E2|].
  apply returns_orReturn. unfold writeStatic. apply returns_bind, returns_gets.
  eapply returns_mono; [apply site_copyEach|].
  intros [e|] w3 E3; [|apply returns_ret]; rewrite E3; exact E2.
Qed.

(** When a file is in the way of the destination directory, at its path
    or above it, [Generate] returns the error of [os.MkdirAll] and has
    changed nothing, neither the tree nor the site. *)
Theorem Generate_blocked now w q b :
  q `prefix_of` Dest (site w) ->
  Lstat q (fs w) = IsFile b ->
  ∃ e, Generate now w = Done (Some e, w).
Proof.
  intros Hq Hb.
  assert (Hmk : MkdirAll (Dest (site w)) (fs w) = None).
  { destruct (MkdirAll _ _) as [t|] eqn:E; [|reflexivity].
    now destruct (MkdirAll_inv _ _ _ _ b E Hq). }
  exists (Err "mkdir"). unfold Generate, prep.
  unfold orReturn at 1, bind at 1. unfold bind at 1, gets at 1.
  unfold orReturn at 1, bind at 1, sysCall. now rewrite Hmk.
Qed.

(** When [Reload] returns an error, [recompile] returns it without a
    call of [Generate]: the tree, and with it the site generated
    before, is as it was. *)
Theorem recompile_reload_error nowReload nowGenerate w e w1 :
  Reload nowReload w = Done (Some e, w1) ->
  recompile nowReload nowGenerate w = Done (Some e, w1) ∧ fs w1 = fs w.
Proof.
  intros H. split.
  - unfold recompile, orReturn at 1, bind at 1. now rewrite H.
  - rewrite Reload_read in H. now apply read_error in H.
Qed.

End RenderExtras.

Lemma writePages_outputs_witness :
  ∃ out, Lstat (outFile (site worldBlog) helloPost) treeBlogPages = IsFile out.
Proof.
  apply (proj1 (writePages_outputs 9 worldBlog (mkWorld siteBlog treeBlogPages) eq_refl)).
  now left.
Defined.

Lemma writePages_verbatim_witness :
  Lstat (outFile (site worldBlog) helloPost) treeBlogPages = IsFile (GetContent helloPost).
Proof.
  apply (writePages_verbatim 9 worldBlog (mkWorld siteBlog treeBlogPages) [] helloPost []).
  - reflexivity.
  - reflexivity.
  - reflexivity.
  - left. reflexivity.
  - intros p [].
  - discriminate.
Defined.

Lemma Generate_keeps_content_witness : sameContent (site worldBlog) siteBlog.
Proof.
  apply (Generate_keeps_content 9 worldBlog None (mkWorld siteBlog (treeBlogAt "9"))).
  reflexivity.
Defined.

Lemma Generate_blocked_witness :
  ∃ e, Generate 9 (mkWorld siteFresh treeBlocked)
       = Done (Some e, mkWorld siteFresh treeBlocked).
Proof.
  apply (Generate_blocked 9 (mkWorld siteFresh treeBlocked) ["site"] "not a directory").
  - exists []. reflexivity.
  - reflexivity.
Defined.

Lemma recompile_reload_error_witness :
  recompile 9 10 worldBroken
  = Done (Some (Err "malformed front matter: _posts/2021-03-05-hello-world.md"),
          mkWorld (mkSite ["src"] ["site"] ∅ [] [] [] None None) treeBroken)
  ∧ treeBroken = fs worldBroken.
Proof. apply (recompile_reload_error 9 10 worldBroken). reflexivity. Defined.

Lemma writePages_bad_config_witness :
  newFeed 9 (mkWorld siteBadTitle (Dir [])) = Panicked
  ∧ writePages 9 (mkWorld siteBadTitle (Dir [])) = Panicked.
Proof.
  apply (writePages_bad_config 9 (mkWorld siteBadTitle (Dir [])) "title" (VStrings ["a"; "b"])).
  - now left.
  - reflexivity.
  - intros s. discriminate.
Defined.

(** ** More on the destination sync *)

Section PrepExtras.
Context `{Ext : Externals}.

(** [prep], when it returns no error, on a well-formed tree. *)
Lemma prep_ok w w' :
  wf (fs w) ->
  prep w = Done (None, w') ->
  forall q, Lstat q (fs w')
            = if erased (site w) q then Absent
              else if decide (q `prefix_of` Dest (site w)) then IsDir
              else Lstat q (fs w).
Proof.
  intros Hwf H.
  assert (Hmk : ∃ t0, MkdirAll (Dest (site w)) (fs w) = Some t0).
  { revert H. unfold prep. unfold bind at 1, gets at 1.
    unfold orReturn at 1, bind at 1, sysCall.
    destruct (MkdirAll _ (fs w)) as [t0|]; [eauto|discriminate]. }
  destruct Hmk as [t0 Hmk].
  destruct (prep_total w t0 Hwf Hmk) as (wp & Hprep & _ & _ & Hp).
  rewrite H in Hprep. injection Hprep as <-.
  intros q. rewrite Hp. now rewrite (MkdirAll_Lstat _ _ _ q Hmk).
Qed.

Lemma stripPrefix_app p r : stripPrefix p (p ++ r) = Some r.
Proof. now apply stripPrefix_Some. Qed.

(** With an ignore list that is empty but not nil, [prep] takes the
    branch of the walk: when it returns no error the destination root
    is a directory and nothing is below it. *)
Theorem prep_empty_ignore w w' :
  wf (fs w) ->
  ignore (site w) = Some [] ->
  prep w = Done (None, w') ->
  Lstat (Dest (site w)) (fs w') = IsDir
  ∧ forall c rest, Lstat (Dest (site w) ++ c :: rest) (fs w') = Absent.
Proof.
  intros Hwf Hig H. pose proof (prep_ok w w' Hwf H) as Hp. split.
  - assert (E : stripPrefix (Dest (site w)) (Dest (site w)) = Some []).
    { apply stripPrefix_Some. now rewrite app_nil_r. }
    rewrite Hp. unfold erased. rewrite E, Hig.
    now destruct (decide _) as [|[]].
  - intros c rest. rewrite Hp. unfold erased, matchIgnore.
    now rewrite stripPrefix_app, Hig.
Qed.

(** An empty string in the ignore list is a prefix of every name: with
    it [prep] removes nothing.  When it returns no error every path of
    the tree is as it was, but for the destination directory and the
    directories above it, which it has made where they were missing. *)
Theorem prep_ignore_everything w w' ig :
  wf (fs w) ->
  ignore (site w) = Some ig ->
  In "" ig ->
  prep w = Done (None, w') ->
  forall q, Lstat q (fs w')
            = if decide (q `prefix_of` Dest (site w)) then IsDir else Lstat q (fs w).
Proof.
  intros Hwf Hig Hin H q. rewrite (prep_ok w w' Hwf H).
  assert (E : erased (site w) q = false); [|now rewrite E].
  unfold erased. destruct (stripPrefix _ q) as [[|c rest]|]; rewrite ?Hig; try reflexivity.
  unfold matchIgnore. rewrite Hig. change (default [] (Some ig)) with ig.
  rewrite (anyPrefix_In c "" ig Hin); [reflexivity|].
  unfold HasPrefix. now destruct c.
Qed.

(** [prep] works in the destination: whatever the ignore list, a path
    that is neither at or below the destination root nor above it is
    after [prep] as it was before. *)
Theorem prep_outside w w' q :
  wf (fs w) ->
  prep w = Done (None, w') ->
  ~ Dest (site w) `prefix_of` q ->
  ~ q `prefix_of` Dest (site w) ->
  Lstat q (fs w') = Lstat q (fs w).
Proof.
  intros Hwf H Hout Habove. rewrite (prep_ok w w' Hwf H).
  apply stripPrefix_None in Hout. unfold erased. rewrite Hout.
  now destruct (decide _).
Qed.

(** ** More on the publisher *)

Lemma succeeded_app l1 l2 : succeeded (l1 ++ l2) = succeeded l1 ++ succeeded l2.
Proof. unfold succeeded. apply omap_app. Qed.

Lemma publish_succeeded s t l : forall c c',
  publish s t l c = Done (None, c') ->
  ∃ evs, history c' = history c ++ evs ∧ succeeded evs = map relString l.
Proof.
  induction l as [|rel l IH]; intros c c'; cbn [publish].
  - intros [= <-]. exists []. now rewrite app_nil_r.
  - destruct (ReadFile _ t) as [content|]; [|discriminate].
    destruct (Put _ _ _ (bucket c)) as [b1 [msg1|]].
    + destruct (Put _ _ _ b1) as [b2 [msg2|]]; [discriminate|].
      intros H. destruct (IH _ _ H) as (evs & Hh & Hs). cbn [history] in Hh.
      exists ([EvPut (relString rel) false; EvSleep 100; EvPut (relString rel) true] ++ evs).
      rewrite Hh, <- app_assoc. split; [reflexivity|].
      rewrite succeeded_app, Hs. reflexivity.
    + intros H. destruct (IH _ _ H) as (evs & Hh & Hs). cbn [history] in Hh.
      exists ([EvPut (relString rel) true] ++ evs).
      rewrite Hh, <- app_assoc. split; [reflexivity|].
      rewrite succeeded_app, Hs. reflexivity.
Qed.

(** When [Deploy] returns no error, every file of the destination tree
    has been uploaded: the requests that went through are, in the order
    of the walk, one for each file, under its path below the
    destination root.  No directory is uploaded. *)
Theorem Deploy_uploads_every_file s t dest c c' :
  lookup (Dest s) t = Some dest ->
  Deploy s t c = Done (None, c') ->
  ∃ evs, history c' = history c ++ evs
         ∧ succeeded evs = map relString (walkFiles [] dest).
Proof.
  intros Hd H. unfold Deploy, Walk in H. rewrite Hd, walk_deploy in H.
  now apply (publish_succeeded s t).
Qed.

(** The walker of [Deploy] asks the [FileInfo] whether it is a
    directory before it looks at the error: when the destination does
    not exist, [filepath.Walk] hands it a nil [FileInfo] with the error
    of [os.Lstat], and [Deploy] panics. *)
Theorem Deploy_missing_destination s t c :
  lookup (Dest s) t = None ->
  Deploy s t c = Panicked.
Proof. intros H. unfold Deploy, Walk. now rewrite H. Qed.

End PrepExtras.

Lemma wf_treeGit : wf treeGit.
Proof.
  repeat (split || constructor || (rewrite ?elem_of_cons, ?elem_of_nil; intuition discriminate)).
Qed.

Lemma prep_empty_ignore_witness :
  Lstat (Dest siteEmptyIgnore) (Dir [("site", Dir []); ("src", Dir [])]) = IsDir.
Proof.
  apply (prep_empty_ignore (mkWorld siteEmptyIgnore treeGit)
           (mkWorld siteEmptyIgnore (Dir [("site", Dir []); ("src", Dir [])]))
           wf_treeGit); reflexivity.
Defined.

Lemma prep_ignore_everything_witness :
  Lstat ["site"; "stale.html"] treeGit
  = if decide (["site"; "stale.html"] `prefix_of` ["site"]) then IsDir
    else Lstat ["site"; "stale.html"] treeGit.
Proof.
  apply (prep_ignore_everything (mkWorld siteIgnoreAll treeGit)
           (mkWorld siteIgnoreAll treeGit) [""] wf_treeGit);
    [reflexivity|now left|reflexivity].
Defined.

Lemma prep_outside_witness :
  Lstat ["src"] (Dir [("site", Dir [(".git", Dir [("config", File "[core]")]);
                                    (".gitfoo", File "foo")]);
                      ("src", Dir [])])
  = Lstat ["src"] treeGit.
Proof.
  apply (prep_outside worldGit
           (mkWorld siteGit (Dir [("site", Dir [(".git", Dir [("config", File "[core]")]);
                                                (".gitfoo", File "foo")]);
                                  ("src", Dir [])]))
           ["src"] wf_treeGit).
  - reflexivity.
  - intros [k E]. discriminate E.
  - intros [k E]. discriminate E.
Defined.

Lemma Deploy_uploads_every_file_witness :
  ∃ evs, [EvPut "about.html" true; EvPut "css/site.css" true; EvPut "index.html" true]
         = [] ++ evs
         ∧ succeeded evs
           = map relString (walkFiles [] (Dir [("about.html", File "About us");
                                               ("css", Dir [("site.css", File "body{}")]);
                                               ("index.html", File "Home")])).
Proof.
  apply (Deploy_uploads_every_file siteBuilt treeBuilt _ steadyCloud
           (@mkCloud demoExt (Demo.mkBucket [("about.html", "About us"); ("css/site.css", "body{}");
                                    ("index.html", "Home")] [])
              [EvPut "about.html" true; EvPut "css/site.css" true; EvPut "index.html" true]));
    reflexivity.
Defined.

Lemma Deploy_missing_destination_witness :
  Deploy siteBuilt (Dir []) steadyCloud = Panicked.
Proof. apply (Deploy_missing_destination siteBuilt (Dir []) steadyCloud). reflexivity. Defined.

(** ** The server *)

Lemma splitSlash_noSlash s : Forall (fun c => noSlash c = true) (splitSlash s).
Proof.
  induction s as [|a s IH]; cbn [splitSlash].
  - repeat constructor.
  - destruct (Ascii.eqb a "/") eqn:E.
    + constructor; [reflexivity|exact IH].
    + destruct (splitSlash s) as [|w ws].
      * repeat constructor. cbn [noSlash].
        apply andb_true_iff. split; [apply negb_true_iff; exact E|reflexivity].
      * inversion IH as [|? ? Hw Hws]; subst. constructor; [|exact Hws].
        cbn [noSlash].
        apply andb_true_iff. split; [apply negb_true_iff; exact E|exact Hw].
Qed.

Lemma splitSlash_plain x : noSlash x = true -> splitSlash x = [x].
Proof.
  induction x as [|a x IH]; [reflexivity|]. cbn [noSlash splitSlash].
  intros H. apply andb_true_iff in H as [Ha Hx]. apply negb_true_iff in Ha.
  now rewrite Ha, (IH Hx).
Qed.

Lemma splitSlash_sep x y :
  noSlash x = true -> splitSlash (x +:+ "/" +:+ y) = x :: splitSlash y.
Proof.
  induction x as [|a x IH]; [reflexivity|]. cbn [noSlash].
  intros H. apply andb_true_iff in H as [Ha Hx]. apply negb_true_iff in Ha.
  simpl. now rewrite Ha, (IH Hx).
Qed.

Lemma splitSlash_concat comps :
  Forall (fun c => noSlash c = true) comps ->
  splitSlash (String.concat "/" comps) = match comps with [] => [""] | _ => comps end.
Proof.
  induction 1 as [|x l Hx Hl IH]; [reflexivity|].
  destruct l as [|y l]; [now apply splitSlash_plain|].
  change (String.concat "/" (x :: y :: l)) with (x +:+ "/" +:+ String.concat "/" (y :: l)).
  now rewrite (splitSlash_sep _ _ Hx), IH.
Qed.

Lemma match_dotdot {A} (x : string) (a b : A) :
  match x with ".." => a | _ => b end = if String.eqb x ".." then a else b.
Proof.
  destruct x as [|c1 [|c2 [|c3 x]]]; try reflexivity.
  - destruct c1 as [[] [] [] [] [] [] [] []]; reflexivity.
  - destruct c1 as [[] [] [] [] [] [] [] []]; try reflexivity;
      destruct c2 as [[] [] [] [] [] [] [] []]; reflexivity.
  - destruct c1 as [[] [] [] [] [] [] [] []]; try reflexivity;
      destruct c2 as [[] [] [] [] [] [] [] []]; reflexivity.
Qed.

Lemma Forall_removelast {A} (P : A -> Prop) l : Forall P l -> Forall P (removelast l).
Proof.
  induction 1 as [|x l Hx Hl IH]; [constructor|]. cbn [removelast].
  destruct l; [constructor|]. constructor; assumption.
Qed.

Lemma last_In {A} (l : list A) d : l <> [] -> In (List.last l d) l.
Proof.
  induction l as [|x l IH]; [congruence|]. intros _.
  destruct l as [|y l]; [now left|]. right. apply IH. discriminate.
Qed.

Lemma cleanStepRel_plain acc c :
  Forall plain acc -> noSlash c = true -> Forall plain (cleanStepRel true acc c).
Proof.
  intros Hacc Hc. unfold cleanStepRel.
  destruct (String.eqb_spec c "") as [->|H1]; [exact Hacc|].
  destruct (String.eqb_spec c ".") as [->|H2]; [exact Hacc|]. cbn [orb].
  destruct (String.eqb_spec c "..") as [->|H3].
  - rewrite match_dotdot. destruct acc as [|x acc]; [constructor|].
    destruct (String.eqb_spec (List.last (x :: acc) "..") "..") as [E|_].
    + exfalso. assert (Hin : In ".." (x :: acc)) by (rewrite <- E; now apply last_In).
      rewrite Forall_forall in Hacc.
      apply (proj2 (list_elem_of_In _ _)) in Hin. now destruct (Hacc _ Hin) as (_ & _ & ? & _).
    + now apply Forall_removelast.
  - apply Forall_app. split; [exact Hacc|]. repeat constructor; assumption.
Qed.

Lemma fold_cleanStepRel_plain l : forall acc,
  Forall (fun c => noSlash c = true) l -> Forall plain acc ->
  Forall plain (fold_left (cleanStepRel true) l acc).
Proof.
  induction l as [|c l IH]; intros acc Hl Hacc; [exact Hacc|].
  inversion Hl; subst. cbn [fold_left]. apply IH; [assumption|].
  now apply cleanStepRel_plain.
Qed.

Lemma fold_cleanStep_plain l : forall acc,
  Forall plain l -> fold_left cleanStep l acc = acc ++ l.
Proof.
  induction l as [|c l IH]; intros acc Hl; [now rewrite app_nil_r|].
  inversion Hl as [|? ? (H1 & H2 & H3 & _) Hl']; subst. cbn [fold_left].
  unfold cleanStep at 2.
  apply String.eqb_neq in H1, H2, H3. rewrite H1, H2, H3. cbn [orb].
  rewrite (IH _ Hl'), <- app_assoc. reflexivity.
Qed.

(** The name made of a rooted path: the destination, followed by the
    components that [filepath.Clean] keeps. *)
Lemma Join_Clean_rooted dest s :
  HasPrefix s "/" = true ->
  ∃ comps, Forall plain comps ∧ Join dest (Clean s) = dest ++ comps.
Proof.
  intros Hr. unfold Clean. rewrite Hr.
  set (comps := fold_left (cleanStepRel true) (splitSlash s) []).
  assert (Hp : Forall plain comps).
  { apply fold_cleanStepRel_plain; [apply splitSlash_noSlash|constructor]. }
  exists comps. split; [exact Hp|].
  change (String.eqb ("/" +:+ String.concat "/" comps) "") with false. cbv iota.
  unfold Join. change ("/" +:+ String.concat "/" comps)
    with (String "/" (String.concat "/" comps)).
  cbn [splitSlash]. change (Ascii.eqb "/" "/") with true. cbv iota. cbn [fold_left].
  change (cleanStep dest "") with dest.
  rewrite splitSlash_concat.
  - destruct comps as [|c comps'] eqn:E; [now rewrite app_nil_r|].
    now apply fold_cleanStep_plain.
  - eapply Forall_impl; [exact Hp|]. now intros c (_ & _ & _ & ?).
Qed.

Lemma splitColon_plain x : noColon x = true -> splitColon x = [x].
Proof.
  induction x as [|a x IH]; [reflexivity|]. cbn [noColon splitColon].
  intros H. apply andb_true_iff in H as [Ha Hx]. apply negb_true_iff in Ha.
  now rewrite Ha, (IH Hx).
Qed.

Section ServerExtras.
Context `{Ext : Externals}.

(** The handler serves from the destination only: for the path of a
    request, which begins with a slash, the name it hands to
    [http.ServeFile] is the destination followed by components that are
    neither empty nor a dot nor dot-dot; dot-dot components of the
    request do not lead out of the destination.  The site is not
    changed. *)
Theorem handler_inside dest urlPath w p w' :
  HasPrefix urlPath "/" = true ->
  handler dest urlPath w = Done (p, w') ->
  (∃ comps, Forall plain comps ∧ p = dest ++ comps) ∧ w' = w.
Proof.
  intros Hr. unfold handler. unfold bind at 1, gets at 1.
  rewrite GetString_bind.
  assert (R : forall base, ∃ comps, Forall plain comps ∧
    Join dest (Clean match SplitList urlPath with
                     | [] => urlPath
                     | first :: _ =>
                         if String.eqb first base
                         then String.concat "/" (skipn (length (SplitList urlPath))
                                                   (SplitList urlPath))
                         else urlPath
                     end) = dest ++ comps).
  { intros base. destruct (SplitList urlPath) as [|first l] eqn:E.
    - now apply Join_Clean_rooted.
    - destruct (String.eqb first base); [|now apply Join_Clean_rooted].
      rewrite skipn_all. exists []. split; [constructor|]. now rewrite app_nil_r. }
  destruct (Conf (site w) !! "baseurl") as [[base| | | | | |]|]; try discriminate;
    intros [= <- <-]; (split; [apply R|reflexivity]).
Qed.

(** The base URL is not stripped from the path of a request.  For a
    path without a colon: when it is the base URL itself the handler
    serves the destination directory, otherwise it serves the path
    below the destination as it is, the base URL included. *)
Theorem handler_base dest urlPath w base :
  noColon urlPath = true ->
  GetString (St := World) (Conf (site w)) "baseurl" = ret base ->
  handler dest urlPath w
  = Done (if String.eqb urlPath base then dest else Join dest (Clean urlPath), w).
Proof.
  intros Hc Hb. unfold handler. unfold bind at 1, gets at 1. rewrite Hb.
  unfold bind, ret. unfold SplitList.
  destruct (String.eqb_spec urlPath "") as [->|Hne].
  - destruct (String.eqb_spec "" base); reflexivity.
  - rewrite (splitColon_plain _ Hc). cbn [length skipn String.concat].
    destruct (String.eqb urlPath base); reflexivity.
Qed.

End ServerExtras.

Lemma handler_inside_witness :
  (∃ comps, Forall plain comps ∧ ["site"; "etc"; "passwd"] = ["site"] ++ comps)
  ∧ mkWorld siteBase (Dir []) = mkWorld siteBase (Dir []).
Proof.
  apply (handler_inside ["site"] "/../../etc/passwd" (mkWorld siteBase (Dir []))); reflexivity.
Defined.

Lemma handler_base_witness :
  handler ["site"] "/blog/about.html" (mkWorld siteBase (Dir []))
  = Done (["site"; "blog"; "about.html"], mkWorld siteBase (Dir [])).
Proof.
  apply (handler_base ["site"] "/blog/about.html" (mkWorld siteBase (Dir [])) "/blog");
    reflexivity.
Defined.

(** ** The scan, run again *)

Section ReloadTwice.
Context `{Ext : Externals}.

(** The walker of [read] looks at the configuration for the permalink
    only. *)
Lemma readWalker_conf c rel fi err st :
  c !! "permalink" = Conf (site (fst st)) !! "permalink" ->
  readWalker rel fi err (onConf c st)
  = mapState (onConf c) (readWalker rel fi err st).
Proof.
  destruct st as [[[src dst conf ps pgs fls tp ig] t] ly]. cbn [fst site Conf].
  intros Hc. unfold readWalker, onConf, onSite, setConf, bind, gets, IsDirOf. cbn.
  destruct err; [reflexivity|].
  destruct fi as [[|]|]; [now destruct (isHiddenOrTemp _)| |reflexivity].
  cbn.
  destruct (isHiddenOrTemp _); [reflexivity|].
  destruct (isTemplate _); [reflexivity|].
  destruct (isPost _).
  - unfold GetString. rewrite Hc.
    destruct (conf !! "permalink") as [[p| | | | | |]|]; try reflexivity; cbn;
      (destruct (ReadFile (src ++ rel) t) as [d|]; cbn; [|reflexivity]);
      match goal with
      | |- context [ParsePost ?a ?b ?x] => now destruct (ParsePost a b x)
      end.
  - destruct (isPage _).
    + cbn. destruct (ReadFile (src ++ rel) t) as [d|]; cbn; [|reflexivity].
      match goal with
      | |- context [ParsePage ?a ?b] => now destruct (ParsePage a b)
      end.
    + now destruct (isStatic _).
Qed.

Lemma forEach_conf s0 t0 c l : forall st,
  sameSettings s0 (site (fst st)) -> fs (fst st) = t0 ->
  c !! "permalink" = Conf s0 !! "permalink" ->
  forEach readWalker l (onConf c st) = mapState (onConf c) (forEach readWalker l st).
Proof.
  induction l as [|rel l IH]; intros st Hs Ht Hc; cbn [forEach]; [reflexivity|].
  unfold orReturn, bind.
  rewrite readWalker_conf by (destruct Hs as (_ & _ & -> & _); exact Hc).
  pose proof (readWalker_file s0 t0 rel st Hs Ht) as R. unfold returns in R.
  destruct (readWalker rel (Some false) None st) as [[[e|] st1]|]; cbn [mapState];
    try reflexivity.
  destruct R as ([Hs1 Ht1] & _). now apply IH.
Qed.

Lemma sameSettings_setConf s c :
  Src (setConf c s) = Src s ∧ Dest (setConf c s) = Dest s
  ∧ ignore (setConf c s) = ignore s ∧ templ (setConf c s) = templ s.
Proof. repeat split. Qed.

Lemma scan_conf c w :
  c !! "permalink" = Conf (site w) !! "permalink" ->
  scan (onSite (setConf c) w) = mapState (onSite (setConf c)) (scan w).
Proof.
  intros Hc. unfold scan. cbn [site fs onSite].
  change (Src (setConf c (site w))) with (Src (site w)).
  unfold Walk. destruct (lookup (Src (site w)) (fs w)) as [n|]; [|reflexivity].
  assert (E1 : walk (fun _ _ => false) readWalker [] n (onSite (setConf c) w, [])
               = forEach readWalker (visited (readPrune (site w)) [] n)
                   (onSite (setConf c) w, [])).
  { apply (walk_forEach readWalker (readPrune (site w))
             (fun st => Src (site (fst st)) = Src (site w)
                        ∧ sameSettings (setConf c (site w)) (site (fst st))
                        ∧ fs (fst st) = fs w)).
    - intros rel st H. apply readWalker_dir, H.
    - intros rel st (HS & Hs & Ht).
      eapply returns_mono;
        [apply (readWalker_file (setConf c (site w)) (fs w)); assumption|].
      intros err st' ([Hs' Ht'] & He & _). split; [|exact He].
      split; [|now split]. now destruct Hs' as (-> & _).
    - split; [reflexivity|]. split; [apply sameSettings_refl|reflexivity]. }
  assert (E2 : walk (fun _ _ => false) readWalker [] n (w, [])
               = forEach readWalker (visited (readPrune (site w)) [] n) (w, [])).
  { apply (walk_forEach readWalker (readPrune (site w))
             (fun st => sameSettings (site w) (site (fst st)) ∧ fs (fst st) = fs w)).
    - intros rel st [Hs _]. apply readWalker_dir, Hs.
    - intros rel st [Hs Ht].
      eapply returns_mono; [apply (readWalker_file (site w) (fs w)); assumption|].
      intros err st' (HI & He & _). now split.
    - split; [apply sameSettings_refl|reflexivity]. }
  rewrite E1, E2.
  change (onSite (setConf c) w, @nil path) with (onConf c (w, [])).
  rewrite (forEach_conf (site w) (fs w));
    [|apply sameSettings_refl|reflexivity|exact Hc].
  now destruct (forEach readWalker _ (w, [])) as [[e [w' ly]]|].
Qed.

Lemma compileTemplates_conf c layouts w :
  compileTemplates layouts (onSite (setConf c) w)
  = mapState (onSite (setConf c)) (compileTemplates layouts w).
Proof.
  unfold compileTemplates. destruct layouts as [|l0 ls]; [reflexivity|].
  unfold bind, gets. cbn [fs onSite].
  now destruct (from_option _ _ _).
Qed.

(** [read] under another configuration with the same permalink. *)
Lemma read_conf now c w w' :
  c !! "permalink" = Conf (site w) !! "permalink" ->
  read now w = Done (None, w') ->
  read now (onSite (setConf c) w)
  = Done (None, onSite (setConf (withParams now (posts (site w')) c)) w').
Proof.
  intros Hc. unfold read. unfold bind at 1 3. rewrite (scan_conf c w Hc).
  destruct (scan w) as [[[[e|] layouts] w1]|]; try discriminate. cbn [mapState].
  unfold orReturn, bind at 1 3. rewrite compileTemplates_conf.
  destruct (compileTemplates layouts w1) as [[[e|] w2]|]; try discriminate.
  cbn [mapState].
  unfold setParams, calculateTags, calculateCategories, ConfSet.
  unfold bind, gets, modify, ret. cbn. intros [= <-].
  destruct w2 as [[] ?]. reflexivity.
Qed.

Lemma withParams_again now now' ps (c : gmap string value) :
  withParams now' ps (withParams now ps c) = <["time" := VTime now']> (withParams now ps c).
Proof.
  apply map_eq. intros k. unfold withParams.
  destruct (decide (k = "categories")) as [->|H1];
    [|destruct (decide (k = "tags")) as [->|H2];
      [|destruct (decide (k = "time")) as [->|H3];
        [|destruct (decide (k = "posts")) as [->|H4]]]];
    repeat first [rewrite lookup_insert_eq
                 | rewrite lookup_insert_ne by (discriminate || congruence)];
    reflexivity.
Qed.

(** [Reload] does not pile up: on a site that a [Reload] has just
    loaded, and a tree that has not changed, a second [Reload] returns
    no error and leaves the posts, the pages, the static files, the
    template set and the tree as they are; of the configuration it
    changes the [time]. *)
Theorem Reload_twice now now' w w1 :
  Reload now w = Done (None, w1) ->
  Reload now' w1
  = Done (None, onSite (setConf (<["time" := VTime now']> (Conf (site w1)))) w1).
Proof.
  intros H. rewrite Reload_read in H.
  destruct (read_ok _ _ _ H) as (Hfs & HS & HD & HI & Hp & _ & _ & HC & _).
  cbn [site fs Src Dest ignore posts Conf app] in *.
  rewrite Reload_read, Hfs, HS, HD, HI.
  set (w0 := mkWorld (mkSite (Src (site w)) (Dest (site w)) (Conf (site w))
                        [] [] [] None (ignore (site w))) (fs w)) in *.
  change (mkWorld (mkSite (Src (site w)) (Dest (site w)) (Conf (site w1))
                     [] [] [] None (ignore (site w))) (fs w))
    with (onSite (setConf (Conf (site w1))) w0).
  assert (Hperm : Conf (site w1) !! "permalink" = Conf (site w0) !! "permalink").
  { rewrite HC. unfold withParams. now rewrite !lookup_insert_ne by discriminate. }
  (* the second run, from the reset site under the new configuration *)
  assert (R : forall w', read now' w0 = Done (None, w') ->
                read now' (onSite (setConf (Conf (site w1))) w0)
                = Done (None, onSite (setConf (withParams now' (posts (site w'))
                                                (Conf (site w1)))) w')).
  { intros w'. now apply read_conf. }
  (* the first run at the time of the second *)
  assert (T : ∃ w', read now' w0 = Done (None, w')
                    ∧ posts (site w') = posts (site w1)
                    ∧ onSite (setConf (Conf (site w1))) w' = w1).
  { revert H. unfold read. unfold bind at 1 3.
    destruct (scan w0) as [[[[e|] layouts] w2]|]; try discriminate.
    unfold orReturn, bind at 1 3.
    destruct (compileTemplates layouts w2) as [[[e|] w3]|]; try discriminate.
    unfold setParams, calculateTags, calculateCategories, ConfSet.
    unfold bind, gets, modify, ret. cbn. intros [= <-].
    eexists. split; [reflexivity|]. destruct w3 as [[] ?]. split; reflexivity. }
  destruct T as (w' & Hr & Hps & Hw').
  rewrite (R w' Hr), Hps.
  assert (EC : withParams now' (posts (site w1)) (Conf (site w1))
               = <["time" := VTime now']> (Conf (site w1))).
  { rewrite HC. apply withParams_again. }
  rewrite EC. f_equal. f_equal.
  transitivity (onSite (setConf (<["time" := VTime now']> (Conf (site w1))))
                  (onSite (setConf (Conf (site w1))) w')).
  - now destruct w' as [[] ?].
  - now rewrite Hw'.
Qed.

End ReloadTwice.

Lemma Reload_twice_witness :
  Reload 10 (mkWorld siteFull treeFull)
  = Done (None, onSite (setConf (<["time" := VTime 10]> (Conf siteFull)))
                  (mkWorld siteFull treeFull)).
Proof. apply (Reload_twice 9 10 worldFull (mkWorld siteFull treeFull)). reflexivity. Defined.
